(** * The SnitchDNS API client: retry, backoff and nested decoding

    A shallow embedding of [internal/client/client.go], of [Configure] in
    [internal/provider], which makes the client, and of [extractAPIKey]
    in [internal/testcontainer].  The network, the cancellation signal,
    the random source, the variables of the process and [encoding/json]
    are the environment of the code; they are explicit inputs of the
    definitions below, and everything the client does with them is
    recorded in a trace of events. *)

From Stdlib Require Import ZArith List String Ascii Bool Lia.
From Stdlib Require Import Reals Lra Floats FloatLemmas.
From Stdlib Require Uint63.
Import ListNotations.
Open Scope Z_scope.

(** ** Go's machine integers *)

Module GoInt.

Definition min_int : Z := - 2 ^ 63.
Definition max_int : Z := 2 ^ 63 - 1.

(** [int] is 64 bits wide: arithmetic wraps around. *)
Definition wrap (z : Z) : Z := (z + 2 ^ 63) mod 2 ^ 64 - 2 ^ 63.

Definition in_range (z : Z) : bool := (min_int <=? z) && (z <=? max_int).

(** [attempt++] *)
Definition incr (z : Z) : Z := wrap (z + 1).

(** [attempt - 1] *)
Definition decr (z : Z) : Z := wrap (z - 1).

End GoInt.

(** ** Byte slices *)

Definition bytes : Type := list Byte.byte.

Definition bytes_of_string (s : string) : bytes := list_byte_of_string s.

(** [string(respBody)] *)
Definition string_of_bytes (b : bytes) : string := string_of_list_byte b.

(** ** float64, as the kernel's binary64 numbers

    The arithmetic of Go's [float64] is that of the primitive [float]:
    IEEE 754 binary64, each operation rounded to the nearest number, ties
    to even, and no two operations fused. *)

Module Float64.

(** [float64(n)] for an integer [n]: rounded to the nearest binary64. *)
Definition of_int (z : Z) : float :=
  SF2Prim (binary_normalize prec emax z 0 false).

(** [math.Pow(2, float64(n))] for an integer [n].  The result is the
    exact power of two when it is a binary64 number, [+Inf] above the
    range and [0] (or a subnormal) below it; an [n] beyond 2^53, which
    [float64] rounds, is far outside the range either way. *)
Definition pow2 (n : Z) : float := Z.ldexp one n.

(** The integer part of a finite binary64, towards zero. *)
Definition truncate (f : float) : option Z :=
  match Prim2SF f with
  | S754_zero _ => Some 0
  | S754_finite s m e =>
      let mag := if 0 <=? e then Z.pos m * 2 ^ e else Z.pos m / 2 ^ (- e) in
      Some (if s then - mag else mag)
  | S754_infinity _ | S754_nan => None
  end.

(** [int64(f)], the conversion behind [time.Duration(f)]: the integer
    part when it is an int64; Go leaves the value
    implementation-dependent otherwise ([None]). *)
Definition to_int64 (f : float) : option Z :=
  match truncate f with
  | Some z => if GoInt.in_range z then Some z else None
  | None => None
  end.

End Float64.

(** ** The client *)

(** [time.Duration]: a signed 64-bit count of nanoseconds. *)
Definition Duration : Type := Z.
Definition Nanosecond : Duration := 1.
Definition Millisecond : Duration := 1000000.
Definition Second : Duration := 1000000000.

Definition emptyJSON : string := "{}".

Record Client : Type := {
  BaseURL : string;
  APIKey : string;
  HTTPTimeout : Duration;          (* HTTPClient.Timeout *)
  UserAgent : string;
  MaxRetries : Z;
  RetryWaitMin : Duration;
  RetryWaitMax : Duration;
  DebugLogging : bool
}.

Definition NewClient (baseURL apiKey : string) : Client := {|
  BaseURL := baseURL;
  APIKey := apiKey;
  HTTPTimeout := 30 * Second;
  UserAgent := "terraform-provider-snitchdns/dev";
  MaxRetries := 3;
  RetryWaitMin := 1 * Second;
  RetryWaitMax := 30 * Second;
  DebugLogging := false
|}.

(** ** Jitter and backoff *)

(** What [rand.Read] and, when it fails, the clock give to
    [secureRandomFloat]. *)
Inductive randomness : Type :=
| RandBytes (b : bytes)            (* the eight bytes read *)
| RandFailed (unixNano : Z).       (* rand.Read failed; time.Now().UnixNano() *)

(** [binary.BigEndian.Uint64] *)
Definition bigEndianUint64 (b : bytes) : Z :=
  fold_left (fun acc x => acc * 256 + Z.of_N (Byte.to_N x)) b 0.

Definition secureRandomFloat (src : randomness) : float :=
  match src with
  | RandFailed unixNano =>
      (Float64.of_int (Z.rem unixNano 1000) / 1000)%float
  | RandBytes b =>
      (Float64.of_int (bigEndianUint64 b) / Float64.pow2 64)%float
  end.

(** [calculateBackoff], with the random factor that [secureRandomFloat]
    returned as an argument. *)
Definition calculateBackoff (c : Client) (attempt : Z) (randomFactor : float)
  : option Duration :=
  let backoff :=
    (Float64.of_int (RetryWaitMin c) * Float64.pow2 (GoInt.decr attempt))%float in
  let backoff :=
    if (Float64.of_int (RetryWaitMax c) <? backoff)%float
    then Float64.of_int (RetryWaitMax c) else backoff in
  let jitter := (backoff * 0.25)%float in
  let backoff := (backoff - jitter + (randomFactor * jitter * 2))%float in
  Float64.to_int64 backoff.

(** ** Errors and results *)

(** [ctx.Err()] once the context is done. *)
Inductive ctxError : Type :=
| Canceled               (* context.Canceled *)
| DeadlineExceeded.      (* context.DeadlineExceeded *)

(** The errors the client builds, one constructor per [fmt.Errorf] format
    (and [CtxError] for a [ctx.Err()] returned as it is).  The causes that
    come from the libraries are kept as their messages. *)
#[warnings="-register-all"]
Inductive error : Type :=
| CtxError (e : ctxError)
| MarshalError (cause : string)
    (* "failed to marshal request body: %w" *)
| CreateRequestError (cause : string)
    (* "failed to create request: %w" *)
| ExecuteError (cause : string)
    (* "failed to execute request: %w" *)
| ReadBodyError (cause : string)
    (* "failed to read response body: %w" *)
| StatusError (statusCode : Z) (body : string)
    (* "API request failed with status %d: %s" *)
| RetriesError (maxRetries : Z) (lastErr : option error)
    (* "request failed after %d retries: %w"; [None] wraps a nil error *)
| ParseResponseError (cause : string)
    (* "failed to parse response: %w" *)
| ParseDataError (cause : string)
    (* "failed to parse data field: %w" *)
| ParseConditionalDataError (cause : string).
    (* "failed to parse conditional_data field: %w" *)

(** [errors.Unwrap] on the client's own errors. *)
Definition unwrap (e : error) : option error :=
  match e with
  | RetriesError _ lastErr => lastErr
  | _ => None
  end.

(** What a call returns: [(respBody, nil)] or [(nil, err)]. *)
Inductive result : Type :=
| Ok (respBody : bytes)
| Err (err : error).

(** ** One attempt *)

Record request : Type := {
  req_method : string;
  req_url : string;
  req_header : list (string * string);
  req_body : option bytes
}.

(** [req.Header.Set] *)
Definition header_set (k v : string) (h : list (string * string))
  : list (string * string) :=
  filter (fun kv => negb (String.eqb (fst kv) k)) h ++ [(k, v)].

(** What the transport does with one attempt. *)
Inductive transport : Type :=
| NewRequestFails (cause : string)
    (* http.NewRequestWithContext returns an error *)
| DoFails (cause : string)
    (* c.HTTPClient.Do returns an error *)
| ReadFails (status : Z) (partial : bytes) (cause : string)
    (* the response arrives, io.ReadAll fails part-way *)
| Responds (status : Z) (body : bytes).
    (* the response arrives and its body is read to the end *)

(** The request [executeRequest] builds. *)
Definition buildRequest (c : Client) (method path : string)
  (jsonData : option bytes) : request :=
  let h := header_set "X-SnitchDNS-Auth" (APIKey c) [] in
  let h := if String.eqb (UserAgent c) "" then h
           else header_set "User-Agent" (UserAgent c) h in
  let h := match jsonData with
           | Some _ => header_set "Content-Type" "application/json" h
           | None => h
           end in
  {| req_method := method;
     req_url := (BaseURL c ++ path)%string;
     req_header := h;
     req_body := jsonData |}.

(** The three named results of [executeRequest], and the request that
    went to [HTTPClient.Do] (none when it could not be built). *)
Record attemptResult : Type := {
  sent : option request;
  respBody : bytes;
  statusCode : Z;
  err : option error
}.

Definition executeRequest (c : Client) (method path : string)
  (jsonData : option bytes) (t : transport) : attemptResult :=
  match t with
  | NewRequestFails cause =>
      {| sent := None; respBody := []; statusCode := 0;
         err := Some (CreateRequestError cause) |}
  | DoFails cause =>
      {| sent := Some (buildRequest c method path jsonData);
         respBody := []; statusCode := 0;
         err := Some (ExecuteError cause) |}
  | ReadFails status partial cause =>
      {| sent := Some (buildRequest c method path jsonData);
         respBody := partial; statusCode := status;
         err := Some (ReadBodyError cause) |}
  | Responds status body =>
      {| sent := Some (buildRequest c method path jsonData);
         respBody := body; statusCode := status;
         err := None |}
  end.

(** ** The retry loop *)

(** What the environment does during one iteration of the loop: the
    bytes the jitter is drawn from, whether [ctx.Done()] wins the
    [select] over the backoff timer (and with which [ctx.Err()]), what
    the transport does with the attempt, and [ctx.Err()] as read after a
    failed attempt. *)
Record iteration : Type := {
  random : randomness;
  wait_done : option ctxError;
  outcome : transport;
  ctx_err : option ctxError
}.

Inductive event : Type :=
| EvMarshal
    (* json.Marshal(body) was called *)
| EvWait (wait : option Duration)
    (* the select on time.After(wait) and ctx.Done() *)
| EvAttempt (jsonData : option bytes) (req : option request).
    (* executeRequest was called with these bytes, and sent this request *)

Definition is_attempt (e : event) : bool :=
  match e with EvAttempt _ _ => true | _ => false end.

Definition is_wait (e : event) : bool :=
  match e with EvWait _ => true | _ => false end.

Definition is_marshal (e : event) : bool :=
  match e with EvMarshal => true | _ => false end.

(** The number of attempts, of backoff waits and of serializations in a
    trace. *)
Definition attempts (t : list event) : nat := List.length (filter is_attempt t).
Definition waits (t : list event) : nat := List.length (filter is_wait t).
Definition marshals (t : list event) : nat := List.length (filter is_marshal t).

(** How one iteration of the loop ends: with a [return], or at the end of
    the body (or a [continue]) with [lastErr] set. *)
Inductive step : Type :=
| Return (r : result)
| Continue (lastErr : error).

Section Orchestrator.

Variable c : Client.
Variable env : nat -> iteration.
Variables method path : string.
Variable jsonData : option bytes.

(** The body of the [for] loop of [doRequestWithContext]. *)
Definition attemptOnce (attempt : Z) (it : iteration) : step * list event :=
  let wait := calculateBackoff c attempt (secureRandomFloat (random it)) in
  let waited := if 0 <? attempt then [EvWait wait] else [] in
  match (if 0 <? attempt then wait_done it else None) with
  | Some e => (Return (Err (CtxError e)), waited)
  | None =>
      let r := executeRequest c method path jsonData (outcome it) in
      let evs := waited ++ [EvAttempt jsonData (sent r)] in
      match err r with
      | Some e =>
          match ctx_err it with
          | Some ce => (Return (Err (CtxError ce)), evs)
          | None => (Continue e, evs)
          end
      | None =>
          if (200 <=? statusCode r) && (statusCode r <? 300) then
            (Return (Ok (respBody r)), evs)
          else if (400 <=? statusCode r) && (statusCode r <? 500) then
            (Return (Err (StatusError (statusCode r)
                                      (string_of_bytes (respBody r)))), evs)
          else
            (Continue (StatusError (statusCode r)
                                   (string_of_bytes (respBody r))), evs)
      end
  end.

(** The [for] loop, from the test of its condition.  [k] counts the
    iterations begun so far and picks the environment's; [attempt] is
    the loop counter, a Go [int].  [None] when the fuel runs out. *)
Fixpoint retryLoop (fuel : nat) (k : nat) (attempt : Z)
  (lastErr : option error) : option (result * list event) :=
  match fuel with
  | O => None
  | S fuel' =>
      if attempt <=? MaxRetries c then
        match attemptOnce attempt (env k) with
        | (Return r, evs) => Some (r, evs)
        | (Continue e, evs) =>
            match retryLoop fuel' (S k) (GoInt.incr attempt) (Some e) with
            | Some (r, evs') => Some (r, evs ++ evs')
            | None => None
            end
        end
      else
        Some (Err (RetriesError (MaxRetries c) lastErr), [])
  end.

End Orchestrator.

Section Requests.

(** The dynamic type of the [body interface{}] argument and
    [json.Marshal] on it: the bytes, or the error's message. *)
Variable Body : Type.
Variable json_Marshal : Body -> bytes + string.

Definition doRequestWithContext (c : Client) (env : nat -> iteration)
  (fuel : nat) (method path : string) (body : option Body)
  : option (result * list event) :=
  match body with
  | Some b =>
      match json_Marshal b with
      | inr e => Some (Err (MarshalError e), [EvMarshal])
      | inl jsonData =>
          match retryLoop c env method path (Some jsonData) fuel 0 0 None with
          | Some (r, evs) => Some (r, EvMarshal :: evs)
          | None => None
          end
      end
  | None => retryLoop c env method path None fuel 0 0 None
  end.

(** [context.Background()] is never done. *)
Definition background (env : nat -> iteration) (k : nat) : iteration :=
  {| random := random (env k);
     wait_done := None;
     outcome := outcome (env k);
     ctx_err := None |}.

Definition doRequest (c : Client) (env : nat -> iteration) (fuel : nat)
  (method path : string) (body : option Body)
  : option (result * list event) :=
  doRequestWithContext c (background env) fuel method path body.

End Requests.

(** ** Records and their nested JSON *)

(** A JSON value as [encoding/json] stores it in an [interface{}]; a
    number is kept as its literal. *)
#[warnings="-register-all"]
Inductive json : Type :=
| JNull
| JBool (b : bool)
| JNumber (literal : string)
| JString (s : string)
| JArray (elements : list json)
| JObject (members : list (string * json)).

(** [map[string]interface{}]: the members of a map that is not nil. *)
Definition jsonMap : Type := list (string * json).

(** The fields of [Record] that the outer decode fills. *)
Record recordFields : Type := {
  f_id : Z;
  f_zone_id : Z;
  f_active : bool;
  f_cls : string;
  f_type : string;
  f_ttl : Z;
  f_data : string;
  f_is_conditional : bool;
  f_conditional_count : Z;
  f_conditional_limit : Z;
  f_conditional_reset : bool;
  f_conditional_data : string
}.

(** [Record]: the decoded fields, and the two parsed maps, tagged
    [json:"-"], which are [None] while they are nil. *)
Record DNSRecord : Type := {
  fields : recordFields;
  Data : option jsonMap;
  ConditionalData : option jsonMap
}.

Definition DataRaw (r : DNSRecord) : string := f_data (fields r).
Definition ConditionalDataRaw (r : DNSRecord) : string :=
  f_conditional_data (fields r).

Section Records.

(** [json.Unmarshal] into a zero [Record], and into a nil
    [map[string]interface{}] (which stays nil, [None], on a JSON null):
    the value, or the error's message. *)
Variable unmarshalRecord : bytes -> recordFields + string.
Variable unmarshalMap : string -> option jsonMap + string.

(** The lines that follow the request in [CreateRecord], [GetRecord] and
    [UpdateRecord], the same in the three. *)
Definition decodeRecord (respBody : bytes) : DNSRecord + error :=
  match unmarshalRecord respBody with
  | inr e => inr (ParseResponseError e)
  | inl f =>
      let record := {| fields := f; Data := None; ConditionalData := None |} in
      let parsedData :=
        if negb (String.eqb (DataRaw record) "") then
          match unmarshalMap (DataRaw record) with
          | inr e => inr (ParseDataError e)
          | inl m =>
              inl {| fields := f; Data := m; ConditionalData := None |}
          end
        else inl record in
      match parsedData with
      | inr e => inr e
      | inl record =>
          if negb (String.eqb (ConditionalDataRaw record) "")
             && negb (String.eqb (ConditionalDataRaw record) emptyJSON) then
            match unmarshalMap (ConditionalDataRaw record) with
            | inr e => inr (ParseConditionalDataError e)
            | inl m =>
                inl {| fields := f; Data := Data record;
                       ConditionalData := m |}
            end
          else inl record
      end
  end.

Variable Body : Type.
Variable json_Marshal : Body -> bytes + string.

(** What the three functions do with the outcome of [doRequest]. *)
Definition decodeResponse (run : option (result * list event))
  : option ((DNSRecord + error) * list event) :=
  match run with
  | None => None
  | Some (Err e, evs) => Some (inr e, evs)
  | Some (Ok respBody, evs) => Some (decodeRecord respBody, evs)
  end.

Definition CreateRecord (c : Client) (env : nat -> iteration) (fuel : nat)
  (zoneID : string) (req : Body) : option ((DNSRecord + error) * list event) :=
  decodeResponse
    (doRequest Body json_Marshal c env fuel "POST"
       ("/zones/" ++ zoneID ++ "/records")%string (Some req)).

Definition GetRecord (c : Client) (env : nat -> iteration) (fuel : nat)
  (zoneID recordID : string) : option ((DNSRecord + error) * list event) :=
  decodeResponse
    (doRequest Body json_Marshal c env fuel "GET"
       ("/zones/" ++ zoneID ++ "/records/" ++ recordID)%string None).

Definition UpdateRecord (c : Client) (env : nat -> iteration) (fuel : nat)
  (zoneID recordID : string) (req : Body)
  : option ((DNSRecord + error) * list event) :=
  decodeResponse
    (doRequest Body json_Marshal c env fuel "POST"
       ("/zones/" ++ zoneID ++ "/records/" ++ recordID)%string (Some req)).

End Records.

(** ** Zones, and the two deletions *)

(** [Zone]; [Tags] is [None] while the slice is nil. *)
Record Zone : Type := {
  ID : Z;
  UserID : Z;
  Domain : string;
  Active : bool;
  CatchAll : bool;
  Forwarding : bool;
  Regex : bool;
  Master : bool;
  Tags : option (list string);
  CreatedAt : string;
  UpdatedAt : string
}.

Section Zones.

(** [json.Unmarshal] into a zero [Zone]: the value, or the error's
    message. *)
Variable unmarshalZone : bytes -> Zone + string.

Variable Body : Type.
Variable json_Marshal : Body -> bytes + string.

(** The lines that follow the request in [CreateZone],
    [GetZoneWithContext] and [UpdateZone], the same in the three. *)
Definition decodeZone (run : option (result * list event))
  : option ((Zone + error) * list event) :=
  match run with
  | None => None
  | Some (Err e, evs) => Some (inr e, evs)
  | Some (Ok respBody, evs) =>
      match unmarshalZone respBody with
      | inr e => Some (inr (ParseResponseError e), evs)
      | inl zone => Some (inl zone, evs)
      end
  end.

Definition CreateZone (c : Client) (env : nat -> iteration) (fuel : nat)
  (req : Body) : option ((Zone + error) * list event) :=
  decodeZone (doRequest Body json_Marshal c env fuel "POST" "/zones" (Some req)).

Definition GetZoneWithContext (c : Client) (env : nat -> iteration)
  (fuel : nat) (id : string) : option ((Zone + error) * list event) :=
  decodeZone
    (doRequestWithContext Body json_Marshal c env fuel "GET"
       ("/zones/" ++ id)%string None).

Definition GetZone (c : Client) (env : nat -> iteration) (fuel : nat)
  (id : string) : option ((Zone + error) * list event) :=
  GetZoneWithContext c (background env) fuel id.

Definition UpdateZone (c : Client) (env : nat -> iteration) (fuel : nat)
  (id : string) (req : Body) : option ((Zone + error) * list event) :=
  decodeZone
    (doRequest Body json_Marshal c env fuel "POST"
       ("/zones/" ++ id)%string (Some req)).

(** [_, err := c.doRequest(...); return err] *)
Definition errorOf (run : option (result * list event))
  : option (option error * list event) :=
  match run with
  | None => None
  | Some (Ok _, evs) => Some (None, evs)
  | Some (Err e, evs) => Some (Some e, evs)
  end.

Definition DeleteZone (c : Client) (env : nat -> iteration) (fuel : nat)
  (id : string) : option (option error * list event) :=
  errorOf
    (doRequest Body json_Marshal c env fuel "DELETE"
       ("/zones/" ++ id)%string None).

Definition DeleteRecord (c : Client) (env : nat -> iteration) (fuel : nat)
  (zoneID recordID : string) : option (option error * list event) :=
  errorOf
    (doRequest Body json_Marshal c env fuel "DELETE"
       ("/zones/" ++ zoneID ++ "/records/" ++ recordID)%string None).

End Zones.

(** ** The provider's configuration

    [Configure] of [internal/provider]: the caller of [NewClient].  The
    diagnostics are those of the plugin framework: [Append] leaves out a
    diagnostic that the collection already contains, and [HasError] looks
    for one of error severity. *)

Module Provider.

Inductive severity : Type :=
| SeverityInvalid
| SeverityError
| SeverityWarning.

(** A diagnostic; [AttributePath] is [None] for one that is not about an
    attribute. *)
Record diagnostic : Type := {
  Severity : severity;
  AttributePath : option string;
  Summary : string;
  Detail : string
}.

Definition severity_eqb (a b : severity) : bool :=
  match a, b with
  | SeverityInvalid, SeverityInvalid
  | SeverityError, SeverityError
  | SeverityWarning, SeverityWarning => true
  | _, _ => false
  end.

(** [diag.Equal] *)
Definition Equal (a b : diagnostic) : bool :=
  severity_eqb (Severity a) (Severity b)
  && match AttributePath a, AttributePath b with
     | Some p, Some q => String.eqb p q
     | None, None => true
     | _, _ => false
     end
  && String.eqb (Summary a) (Summary b)
  && String.eqb (Detail a) (Detail b).

Definition Contains (diags : list diagnostic) (d : diagnostic) : bool :=
  existsb (fun d' => Equal d' d) diags.

Definition HasError (diags : list diagnostic) : bool :=
  existsb (fun d => severity_eqb (Severity d) SeverityError) diags.

Definition Append (diags new : list diagnostic) : list diagnostic :=
  fold_left (fun acc d => if Contains acc d then acc else acc ++ [d])
    new diags.

Definition AddAttributeError (diags : list diagnostic)
  (path summary detail : string) : list diagnostic :=
  Append diags [{| Severity := SeverityError; AttributePath := Some path;
                   Summary := summary; Detail := detail |}].

(** [SnitchDNSProviderModel] *)
Record SnitchDNSProviderModel : Type := {
  APIUrl : string;
  APIKey : string
}.

(** The part of [provider.ConfigureResponse] that [Configure] works
    with. *)
Record ConfigureResponse : Type := {
  Diagnostics : list diagnostic;
  DataSourceData : option Client;
  ResourceData : option Client
}.

Definition missingURL : string :=
  ("The provider cannot create the SnitchDNS API client as there is a missing or empty value for the API URL. "
   ++ "Set the api_url value in the provider configuration or use the SNITCHDNS_API_URL environment variable. "
   ++ "If either is already set, ensure the value is not empty.")%string.

Definition missingKey : string :=
  ("The provider cannot create the SnitchDNS API client as there is a missing or empty value for the API key. "
   ++ "Set the api_key value in the provider configuration or use the SNITCHDNS_API_KEY environment variable. "
   ++ "If either is already set, ensure the value is not empty.")%string.

(** [path.Root("api_url")] with ["Missing API URL"], and the same for the
    key. *)
Definition missingURLDiagnostic : diagnostic :=
  {| Severity := SeverityError; AttributePath := Some "api_url"%string;
     Summary := "Missing API URL"; Detail := missingURL |}.

Definition missingKeyDiagnostic : diagnostic :=
  {| Severity := SeverityError; AttributePath := Some "api_key"%string;
     Summary := "Missing API Key"; Detail := missingKey |}.

(** A call of [tflog.Debug]: the message and the fields. *)
Record logEntry : Type := {
  Message : string;
  Fields : list (string * string)
}.

(** The setting in force: the configured value, or the environment's when
    that is empty. *)
Definition effective (configured : string) (getenv : string -> string)
  (name : string) : string :=
  if String.eqb configured "" then getenv name else configured.

(** [Configure].  [read] is what [req.Config.Get(ctx, &data)] returns
    and [data] what it leaves in the model; [getenv] is [os.Getenv].
    The result is the response as [Configure] leaves it, and what it
    logged. *)
Definition Configure (read : list diagnostic) (data : SnitchDNSProviderModel)
  (getenv : string -> string) (resp : ConfigureResponse)
  : ConfigureResponse * list logEntry :=
  let diags := Append (Diagnostics resp) read in
  if HasError diags then
    ({| Diagnostics := diags; DataSourceData := DataSourceData resp;
        ResourceData := ResourceData resp |}, [])
  else
    let apiURL := APIUrl data in
    let apiURL := if String.eqb apiURL "" then getenv "SNITCHDNS_API_URL"%string
                  else apiURL in
    let apiKey := APIKey data in
    let apiKey := if String.eqb apiKey "" then getenv "SNITCHDNS_API_KEY"%string
                  else apiKey in
    let diags := if String.eqb apiURL ""
                 then AddAttributeError diags "api_url" "Missing API URL"
                        missingURL
                 else diags in
    let diags := if String.eqb apiKey ""
                 then AddAttributeError diags "api_key" "Missing API Key"
                        missingKey
                 else diags in
    if HasError diags then
      ({| Diagnostics := diags; DataSourceData := DataSourceData resp;
          ResourceData := ResourceData resp |}, [])
    else
      let client := NewClient apiURL apiKey in
      ({| Diagnostics := diags; DataSourceData := Some client;
          ResourceData := Some client |},
       [{| Message := "Configuring SnitchDNS client";
           Fields := [("api_url"%string, apiURL)] |}]).

End Provider.

(** ** The API key of the test container

    [extractAPIKey] of [internal/testcontainer].  A Go string is its
    bytes; the functions of the package [strings] that the code calls are
    written out on them. *)

Module Testcontainer.

(** The UTF-8 encodings of the runes for which [unicode.IsSpace] holds:
    tab, line feed, vertical tab, form feed, carriage return, space,
    U+0085, U+00A0, U+1680, U+2000 to U+200A, U+2028, U+2029, U+202F,
    U+205F and U+3000. *)
Definition spaceRunes : list string :=
  map string_of_list_ascii
    [ ["009"]; ["010"]; ["011"]; ["012"]; ["013"]; ["032"];
      ["194"; "133"]; ["194"; "160"]; ["225"; "154"; "128"];
      ["226"; "128"; "128"]; ["226"; "128"; "129"]; ["226"; "128"; "130"];
      ["226"; "128"; "131"]; ["226"; "128"; "132"]; ["226"; "128"; "133"];
      ["226"; "128"; "134"]; ["226"; "128"; "135"]; ["226"; "128"; "136"];
      ["226"; "128"; "137"]; ["226"; "128"; "138"]; ["226"; "128"; "168"];
      ["226"; "128"; "169"]; ["226"; "128"; "175"]; ["226"; "129"; "159"];
      ["227"; "128"; "128"] ]%char.

(** [strings.HasPrefix] *)
Fixpoint HasPrefix (s prefix : string) {struct prefix} : bool :=
  match prefix, s with
  | EmptyString, _ => true
  | String p prefix', String a s' => Ascii.eqb a p && HasPrefix s' prefix'
  | String _ _, EmptyString => false
  end.

(** [s[n:]] *)
Fixpoint from (n : nat) (s : string) : string :=
  match n, s with
  | O, _ => s
  | S n', String _ s' => from n' s'
  | S _, EmptyString => EmptyString
  end.

(** [s[:n]] *)
Fixpoint upto (n : nat) (s : string) : string :=
  match n, s with
  | O, _ => EmptyString
  | S n', String a s' => String a (upto n' s')
  | S _, EmptyString => EmptyString
  end.

(** [strings.Index]; [None] for -1. *)
Fixpoint Index (s substr : string) : option nat :=
  if HasPrefix s substr then Some O
  else match s with
       | EmptyString => None
       | String _ s' => option_map S (Index s' substr)
       end.

(** The space rune that [s] begins with: the rune that
    [utf8.DecodeRuneInString] finds there is a space exactly when [s]
    begins with the encoding of one. *)
Definition leadingSpace (s : string) : option string :=
  find (HasPrefix s) spaceRunes.

(** [strings.TrimLeftFunc(s, unicode.IsSpace)] *)
Fixpoint trimLeft (fuel : nat) (s : string) : string :=
  match fuel with
  | O => s
  | S fuel' =>
      match leadingSpace s with
      | Some rune => trimLeft fuel' (from (String.length rune) s)
      | None => s
      end
  end.

Definition TrimLeft (s : string) : string := trimLeft (String.length s) s.

Definition reverse (s : string) : string :=
  string_of_list_ascii (rev (list_ascii_of_string s)).

(** The space rune that [s] ends with: the same for
    [utf8.DecodeLastRuneInString], which goes back to the first byte of
    the rune. *)
Definition trailingSpace (s : string) : option string :=
  find (fun rune => HasPrefix (reverse s) (reverse rune)) spaceRunes.

(** [strings.TrimRightFunc(s, unicode.IsSpace)] *)
Fixpoint trimRight (fuel : nat) (s : string) : string :=
  match fuel with
  | O => s
  | S fuel' =>
      match trailingSpace s with
      | Some rune =>
          trimRight fuel' (upto (String.length s - String.length rune) s)
      | None => s
      end
  end.

Definition TrimRight (s : string) : string := trimRight (String.length s) s.

(** [strings.TrimSpace]: the runes of space at both ends are taken
    away, the leading ones first. *)
Definition TrimSpace (s : string) : string := TrimRight (TrimLeft s).

(** [strings.Split(s, sep)] for a separator of one byte. *)
Fixpoint Split (s : string) (sep : ascii) : list string :=
  match s with
  | EmptyString => [EmptyString]
  | String a s' =>
      if Ascii.eqb a sep then EmptyString :: Split s' sep
      else match Split s' sep with
           | piece :: pieces => String a piece :: pieces
           | [] => [String a EmptyString]
           end
  end.

(** [strings.SplitN(s, sep, 2)]: [s] cut at the first [sep], or [s]
    alone. *)
Definition SplitN2 (s sep : string) : list string :=
  match Index s sep with
  | Some i => [upto i s; from (i + String.length sep) s]
  | None => [s]
  end.

(** What [container.Exec] and, after it, [io.ReadAll] give. *)
Inductive execution : Type :=
| ExecFails (cause : string)
| Exits (code : Z) (read : bytes + string).

(** The errors of [extractAPIKey], one for each [fmt.Errorf]. *)
Inductive keyError : Type :=
| ExecError (cause : string)
    (* "failed to execute cat command: %w" *)
| ExitCodeError (code : Z)
    (* "cat command failed with exit code %d" *)
| ReadOutputError (cause : string)
    (* "failed to read apikey output: %w" *)
| KeyNotFound (rawOutput : string)
    (* "API_KEY not found. Raw output (hex): % x\nString output: %q" *)
| InvalidFormat (apiKeyLine : string)
    (* "invalid apikey format: %q (hex: % x)" *)
| EmptyKey.
    (* "empty API key" *)

Definition newline : ascii := "010".

(** The [for] loop over the lines: the first line that has [API_KEY=]
    in it, from there on; the empty string when there is none. *)
Fixpoint apiKeyLineOf (lines : list string) : string :=
  match lines with
  | [] => EmptyString
  | l :: lines' =>
      let l := TrimSpace l in
      match Index l "API_KEY=" with
      | Some idx => from idx l
      | None => apiKeyLineOf lines'
      end
  end.

Definition extractAPIKey (run : execution) : string + keyError :=
  match run with
  | ExecFails cause => inr (ExecError cause)
  | Exits code read =>
      if negb (code =? 0) then inr (ExitCodeError code)
      else
        match read with
        | inr cause => inr (ReadOutputError cause)
        | inl output =>
            let rawOutput := string_of_bytes output in
            let line := TrimSpace rawOutput in
            let lines := Split line newline in
            let apiKeyLine := apiKeyLineOf lines in
            if String.eqb apiKeyLine "" then inr (KeyNotFound rawOutput)
            else
              match SplitN2 apiKeyLine "=" with
              | [_; value] =>
                  let apiKey := TrimSpace value in
                  if String.eqb apiKey "" then inr EmptyKey
                  else inl apiKey
              | _ => inr (InvalidFormat apiKeyLine)
              end
        end
  end.

End Testcontainer.

(** ** A reference decoder

    [encoding/json] is outside the repository; the properties below hold
    for whatever it does.  For the scenarios, this is a decoder of the
    JSON grammar without [\u] escapes, with Go's rules for the two
    targets: a later member replaces an earlier one of the same name, a
    JSON null leaves the target as it is, and a member that [Record] does
    not name is skipped. *)

Module Json.

Definition quote : ascii := "034"%char.
Definition backslash : ascii := "092"%char.

Definition is_space (a : ascii) : bool :=
  Ascii.eqb a " " || Ascii.eqb a "009" || Ascii.eqb a "010" || Ascii.eqb a "013".

Definition is_digit (a : ascii) : bool :=
  let n := nat_of_ascii a in (48 <=? n)%nat && (n <=? 57)%nat.

Fixpoint skip_space (s : list ascii) : list ascii :=
  match s with
  | a :: r => if is_space a then skip_space r else s
  | [] => []
  end.

Definition unescape (a : ascii) : option ascii :=
  if Ascii.eqb a quote then Some quote
  else if Ascii.eqb a backslash then Some backslash
  else if Ascii.eqb a "/" then Some "/"%char
  else if Ascii.eqb a "b" then Some "008"%char
  else if Ascii.eqb a "f" then Some "012"%char
  else if Ascii.eqb a "n" then Some "010"%char
  else if Ascii.eqb a "r" then Some "013"%char
  else if Ascii.eqb a "t" then Some "009"%char
  else None.

(** The rest of a string literal, after its opening quote. *)
Fixpoint parseString (s : list ascii) (acc : list ascii)
  : option (string * list ascii) :=
  match s with
  | [] => None
  | a :: r =>
      if Ascii.eqb a quote then Some (string_of_list_ascii (rev acc), r)
      else if Ascii.eqb a backslash then
        match r with
        | e :: r' =>
            match unescape e with
            | Some ch => parseString r' (ch :: acc)
            | None => None
            end
        | [] => None
        end
      else if (nat_of_ascii a <? 32)%nat then None
      else parseString r (a :: acc)
  end.

Fixpoint takeDigits (s : list ascii) : list ascii * list ascii :=
  match s with
  | a :: r =>
      if is_digit a then let (d, r') := takeDigits r in (a :: d, r')
      else ([], s)
  | [] => ([], [])
  end.

(** A number literal: sign, integer part without a leading zero,
    fraction, exponent. *)
Definition parseNumber (s : list ascii) : option (string * list ascii) :=
  let (sign, s1) :=
    match s with
    | a :: r => if Ascii.eqb a "-" then ([a], r) else ([], s)
    | [] => ([], s)
    end in
  let (int, s2) := takeDigits s1 in
  match int with
  | [] => None
  | d :: ds =>
      if Ascii.eqb d "0" && negb (Nat.eqb (List.length ds) 0) then None
      else
        let frac :=
          match s2 with
          | a :: r =>
              if Ascii.eqb a "." then
                let (f, r') := takeDigits r in
                match f with [] => None | _ => Some (a :: f, r') end
              else Some ([], s2)
          | [] => Some ([], s2)
          end in
        match frac with
        | None => None
        | Some (f, s3) =>
            let expo :=
              match s3 with
              | a :: r =>
                  if Ascii.eqb a "e" || Ascii.eqb a "E" then
                    let (sg, r1) :=
                      match r with
                      | b :: r' =>
                          if Ascii.eqb b "+" || Ascii.eqb b "-"
                          then ([b], r') else ([], r)
                      | [] => ([], r)
                      end in
                    let (x, r2) := takeDigits r1 in
                    match x with
                    | [] => None
                    | _ => Some (a :: sg ++ x, r2)
                    end
                  else Some ([], s3)
              | [] => Some ([], s3)
              end in
            match expo with
            | None => None
            | Some (x, s4) =>
                Some (string_of_list_ascii (sign ++ int ++ f ++ x), s4)
            end
        end
  end.

(** [word] at the head of [s]. *)
Fixpoint expect (word s : list ascii) : option (list ascii) :=
  match word, s with
  | [], _ => Some s
  | w :: word', a :: r => if Ascii.eqb w a then expect word' r else None
  | _ :: _, [] => None
  end.

(** [m[key] = v] *)
Fixpoint setMember (key : string) (v : json) (m : jsonMap) : jsonMap :=
  match m with
  | [] => [(key, v)]
  | (k, old) :: m' =>
      if String.eqb k key then (k, v) :: m' else (k, old) :: setMember key v m'
  end.

Fixpoint parseValue (fuel : nat) (s : list ascii) {struct fuel}
  : option (json * list ascii) :=
  match fuel with
  | O => None
  | S fuel' =>
      match skip_space s with
      | [] => None
      | a :: r =>
          if Ascii.eqb a "{" then
            match skip_space r with
            | b :: r' =>
                if Ascii.eqb b "}" then Some (JObject [], r')
                else parseMembers fuel' r []
            | [] => None
            end
          else if Ascii.eqb a "[" then
            match skip_space r with
            | b :: r' =>
                if Ascii.eqb b "]" then Some (JArray [], r')
                else parseElements fuel' r []
            | [] => None
            end
          else if Ascii.eqb a quote then
            match parseString r [] with
            | Some (str, r') => Some (JString str, r')
            | None => None
            end
          else if Ascii.eqb a "t" then
            option_map (pair (JBool true))
              (expect (list_ascii_of_string "rue") r)
          else if Ascii.eqb a "f" then
            option_map (pair (JBool false))
              (expect (list_ascii_of_string "alse") r)
          else if Ascii.eqb a "n" then
            option_map (pair JNull) (expect (list_ascii_of_string "ull") r)
          else
            match parseNumber (a :: r) with
            | Some (lit, r') => Some (JNumber lit, r')
            | None => None
            end
      end
  end
with parseMembers (fuel : nat) (s : list ascii) (acc : jsonMap) {struct fuel}
  : option (json * list ascii) :=
  match fuel with
  | O => None
  | S fuel' =>
      match skip_space s with
      | a :: r =>
          if Ascii.eqb a quote then
            match parseString r [] with
            | Some (key, r1) =>
                match skip_space r1 with
                | b :: r2 =>
                    if Ascii.eqb b ":" then
                      match parseValue fuel' r2 with
                      | Some (v, r3) =>
                          match skip_space r3 with
                          | d :: r4 =>
                              if Ascii.eqb d "," then
                                parseMembers fuel' r4 (setMember key v acc)
                              else if Ascii.eqb d "}" then
                                Some (JObject (setMember key v acc), r4)
                              else None
                          | [] => None
                          end
                      | None => None
                      end
                    else None
                | [] => None
                end
            | None => None
            end
          else None
      | [] => None
      end
  end
with parseElements (fuel : nat) (s : list ascii) (acc : list json)
  {struct fuel} : option (json * list ascii) :=
  match fuel with
  | O => None
  | S fuel' =>
      match parseValue fuel' s with
      | Some (v, r) =>
          match skip_space r with
          | d :: r' =>
              if Ascii.eqb d "," then parseElements fuel' r' (acc ++ [v])
              else if Ascii.eqb d "]" then Some (JArray (acc ++ [v]), r')
              else None
          | [] => None
          end
      | None => None
      end
  end.

(** A whole text: one value, and only space after it. *)
Definition parse (text : string) : option json :=
  let s := list_ascii_of_string text in
  match parseValue (S (List.length s)) s with
  | Some (v, r) =>
      match skip_space r with
      | [] => Some v
      | _ :: _ => None
      end
  | None => None
  end.

Fixpoint lookup (key : string) (m : jsonMap) : option json :=
  match m with
  | [] => None
  | (k, v) :: m' => if String.eqb k key then Some v else lookup key m'
  end.

(** The integer a literal of digits stands for. *)
Definition digitsValue (ds : list ascii) : Z :=
  fold_left (fun acc d => acc * 10 + (Z.of_nat (nat_of_ascii d) - 48)) ds 0.

Definition intOfLiteral (literal : string) : option Z :=
  let s := list_ascii_of_string literal in
  let (neg, ds) :=
    match s with
    | a :: r => if Ascii.eqb a "-" then (true, r) else (false, s)
    | [] => (false, s)
    end in
  if forallb is_digit ds && negb (Nat.eqb (List.length ds) 0) then
    let z := if neg then - digitsValue ds else digitsValue ds in
    if GoInt.in_range z then Some z else None
  else None.

Definition intField (key : string) (m : jsonMap) : Z + string :=
  match lookup key m with
  | None | Some JNull => inl 0
  | Some (JNumber literal) =>
      match intOfLiteral literal with
      | Some z => inl z
      | None => inr "json: cannot unmarshal number into Go struct field of type int"%string
      end
  | Some _ => inr "json: cannot unmarshal into Go struct field of type int"%string
  end.

Definition boolField (key : string) (m : jsonMap) : bool + string :=
  match lookup key m with
  | None | Some JNull => inl false
  | Some (JBool b) => inl b
  | Some _ => inr "json: cannot unmarshal into Go struct field of type bool"%string
  end.

Definition stringField (key : string) (m : jsonMap) : string + string :=
  match lookup key m with
  | None | Some JNull => inl ""%string
  | Some (JString v) => inl v
  | Some _ => inr "json: cannot unmarshal into Go struct field of type string"%string
  end.

Definition bind {A B : Type} (x : A + string) (k : A -> B + string)
  : B + string :=
  match x with
  | inl a => k a
  | inr e => inr e
  end.

Definition zeroFields : recordFields :=
  {| f_id := 0; f_zone_id := 0; f_active := false; f_cls := ""; f_type := "";
     f_ttl := 0; f_data := ""; f_is_conditional := false;
     f_conditional_count := 0; f_conditional_limit := 0;
     f_conditional_reset := false; f_conditional_data := "" |}.

(** [json.Unmarshal(respBody, &record)] on a zero [Record]. *)
Definition unmarshalRecord (respBody : bytes) : recordFields + string :=
  match parse (string_of_bytes respBody) with
  | None => inr "invalid character in JSON input"%string
  | Some JNull => inl zeroFields
  | Some (JObject m) =>
      bind (intField "id" m) (fun id =>
      bind (intField "zone_id" m) (fun zone_id =>
      bind (boolField "active" m) (fun active =>
      bind (stringField "cls" m) (fun cls =>
      bind (stringField "type" m) (fun type =>
      bind (intField "ttl" m) (fun ttl =>
      bind (stringField "data" m) (fun data =>
      bind (boolField "is_conditional" m) (fun is_conditional =>
      bind (intField "conditional_count" m) (fun conditional_count =>
      bind (intField "conditional_limit" m) (fun conditional_limit =>
      bind (boolField "conditional_reset" m) (fun conditional_reset =>
      bind (stringField "conditional_data" m) (fun conditional_data =>
      inl {| f_id := id; f_zone_id := zone_id; f_active := active;
             f_cls := cls; f_type := type; f_ttl := ttl; f_data := data;
             f_is_conditional := is_conditional;
             f_conditional_count := conditional_count;
             f_conditional_limit := conditional_limit;
             f_conditional_reset := conditional_reset;
             f_conditional_data := conditional_data |}))))))))))))
  | Some _ =>
      inr "json: cannot unmarshal into Go value of type client.Record"%string
  end.

(** [json.Unmarshal([]byte(raw), &m)] on a nil [map[string]interface{}]. *)
Definition unmarshalMap (raw : string) : option jsonMap + string :=
  match parse raw with
  | None => inr "invalid character in JSON input"%string
  | Some JNull => inl None
  | Some (JObject m) => inl (Some m)
  | Some _ =>
      inr "json: cannot unmarshal into Go value of type map[string]interface {}"%string
  end.

(** A text between double quotes, its quotes and backslashes escaped. *)
Definition quoted (text : string) : string :=
  let escape a :=
    if Ascii.eqb a quote || Ascii.eqb a backslash then [backslash; a]
    else [a] in
  string_of_list_ascii
    (quote :: flat_map escape (list_ascii_of_string text) ++ [quote]).

End Json.

(** A record as the server sends it: an A record, with its [data] and
    [conditional_data] given as JSON texts. *)
Definition recordJSON (data conditional_data : string) : bytes :=
  bytes_of_string
    ("{" ++ Json.quoted "id" ++ ": 7, "
         ++ Json.quoted "zone_id" ++ ": 1, "
         ++ Json.quoted "active" ++ ": true, "
         ++ Json.quoted "cls" ++ ": " ++ Json.quoted "IN" ++ ", "
         ++ Json.quoted "type" ++ ": " ++ Json.quoted "A" ++ ", "
         ++ Json.quoted "ttl" ++ ": 60, "
         ++ Json.quoted "data" ++ ": " ++ Json.quoted data ++ ", "
         ++ Json.quoted "is_conditional" ++ ": false, "
         ++ Json.quoted "conditional_data" ++ ": "
         ++ Json.quoted conditional_data ++ "}")%string.

(** [{"address": "192.0.2.1"}] *)
Definition addressJSON : string :=
  ("{" ++ Json.quoted "address" ++ ": " ++ Json.quoted "192.0.2.1" ++ "}")%string.

(** The same for zones.  A [[]string]: absent or null it stays nil, and a
    null among its elements leaves the empty string there. *)
Definition tagsField (key : string) (m : jsonMap)
  : option (list string) + string :=
  match Json.lookup key m with
  | None | Some JNull => inl None
  | Some (JArray elements) =>
      fold_right
        (fun v acc =>
           match v, acc with
           | JString s, inl (Some tags) => inl (Some (s :: tags))
           | JNull, inl (Some tags) => inl (Some (""%string :: tags))
           | _, inr e => inr e
           | _, _ =>
               inr "json: cannot unmarshal into Go struct field of type string"%string
           end)
        (inl (Some [])) elements
  | Some _ =>
      inr "json: cannot unmarshal into Go struct field of type []string"%string
  end.

Definition zeroZone : Zone :=
  {| ID := 0; UserID := 0; Domain := ""; Active := false; CatchAll := false;
     Forwarding := false; Regex := false; Master := false; Tags := None;
     CreatedAt := ""; UpdatedAt := "" |}.

(** [json.Unmarshal(respBody, &zone)] on a zero [Zone]. *)
Definition referenceUnmarshalZone (respBody : bytes) : Zone + string :=
  match Json.parse (string_of_bytes respBody) with
  | None => inr "invalid character in JSON input"%string
  | Some JNull => inl zeroZone
  | Some (JObject m) =>
      Json.bind (Json.intField "id" m) (fun id =>
      Json.bind (Json.intField "user_id" m) (fun user_id =>
      Json.bind (Json.stringField "domain" m) (fun domain =>
      Json.bind (Json.boolField "active" m) (fun active =>
      Json.bind (Json.boolField "catch_all" m) (fun catch_all =>
      Json.bind (Json.boolField "forwarding" m) (fun forwarding =>
      Json.bind (Json.boolField "regex" m) (fun regex =>
      Json.bind (Json.boolField "master" m) (fun master =>
      Json.bind (tagsField "tags" m) (fun tags =>
      Json.bind (Json.stringField "created_at" m) (fun created_at =>
      Json.bind (Json.stringField "updated_at" m) (fun updated_at =>
      inl {| ID := id; UserID := user_id; Domain := domain; Active := active;
             CatchAll := catch_all; Forwarding := forwarding; Regex := regex;
             Master := master; Tags := tags; CreatedAt := created_at;
             UpdatedAt := updated_at |})))))))))))
  | Some _ =>
      inr "json: cannot unmarshal into Go value of type client.Zone"%string
  end.

(** The zone that the servers of the test-suite answer with. *)
Definition zoneJSON : bytes :=
  bytes_of_string
    ("{" ++ Json.quoted "id" ++ ": 1, "
         ++ Json.quoted "domain" ++ ": " ++ Json.quoted "example.com" ++ ", "
         ++ Json.quoted "active" ++ ": true, "
         ++ Json.quoted "catch_all" ++ ": false, "
         ++ Json.quoted "forwarding" ++ ": false, "
         ++ Json.quoted "regex" ++ ": false}")%string.

Definition exampleZone : Zone :=
  {| ID := 1; UserID := 0; Domain := "example.com"; Active := true;
     CatchAll := false; Forwarding := false; Regex := false; Master := false;
     Tags := None; CreatedAt := ""; UpdatedAt := "" |}.

(** ** The real value of a binary64 number *)

(** [m * 2^e] *)
Definition F2R (m e : Z) : R := (IZR m * powerRZ 2 e)%R.

(** The value of a number of the specification of binary64; 0 for what
    is not finite. *)
Definition SF2R (x : spec_float) : R :=
  match x with
  | S754_finite s m e => if s then (- F2R (Z.pos m) e)%R else F2R (Z.pos m) e
  | S754_zero _ | S754_infinity _ | S754_nan => 0%R
  end.

(** A zero, or a finite number that is positive. *)
Definition nonnegFinite (x : spec_float) : bool :=
  match x with
  | S754_zero _ => true
  | S754_finite s _ _ => negb s
  | S754_infinity _ | S754_nan => false
  end.

Definition goodSF (x : spec_float) : Prop :=
  valid_binary x = true /\ nonnegFinite x = true.

(** The same for the kernel's numbers. *)
Definition value (x : float) : R := SF2R (Prim2SF x).

Definition goodF (x : float) : Prop := nonnegFinite (Prim2SF x) = true.

Definition plusInfinity (x : float) : Prop := Prim2SF x = S754_infinity false.

(** The exponent to which [m * 2^e] is rounded, and its mantissa there,
    rounded down. *)
Definition roundExp (m : positive) (e : Z) : Z :=
  fexp prec emax (Z.pos (digits2_pos m) + e).

Definition roundDown (m : positive) (e : Z) : Z :=
  Z.pos m / 2 ^ (roundExp m e - e).

(** ** The vocabulary of the specification *)

(** A transient failure: a 5xx status, or a transport-level error while
    the context is not done. *)
Definition transient (it : iteration) : bool :=
  match outcome it with
  | Responds status _ => (500 <=? status) && (status <? 600)
  | NewRequestFails _ | DoFails _ | ReadFails _ _ _ =>
      match ctx_err it with None => true | Some _ => false end
  end.

(** The backoff wait of an iteration runs to its end. *)
Definition uninterrupted (it : iteration) : bool :=
  match wait_done it with None => true | Some _ => false end.

(** The error a failed attempt leaves in [lastErr]. *)
Definition recordedError (t : transport) : error :=
  match t with
  | NewRequestFails cause => CreateRequestError cause
  | DoFails cause => ExecuteError cause
  | ReadFails _ _ cause => ReadBodyError cause
  | Responds status body => StatusError status (string_of_bytes body)
  end.

(** The loop goes on to the next value of [attempt] after this
    iteration. *)
Definition continues (c : Client) (method path : string)
  (jsonData : option bytes) (attempt : Z) (it : iteration) : bool :=
  match fst (attemptOnce c method path jsonData attempt it) with
  | Continue _ => true
  | Return _ => false
  end.

(** The events of the first [n] iterations of a loop that is at its
    [k]-th iteration with counter [attempt]. *)
Fixpoint prefixTrace (c : Client) (env : nat -> iteration)
  (method path : string) (jsonData : option bytes)
  (n k : nat) (attempt : Z) : list event :=
  match n with
  | O => []
  | S n' =>
      snd (attemptOnce c method path jsonData attempt (env k))
      ++ prefixTrace c env method path jsonData n' (S k) (attempt + 1)
  end.

(** [lastErr] after [n] more failed attempts, the first of them the
    [k]-th. *)
Definition lastErrAfter (env : nat -> iteration) (n k : nat)
  (lastErr : option error) : option error :=
  match n with
  | O => lastErr
  | S n' => Some (recordedError (outcome (env (k + n')%nat)))
  end.

(** The attempt fails at the transport level: [executeRequest] returns
    an error. *)
Definition failsAtTransport (t : transport) : bool :=
  match t with
  | Responds _ _ => false
  | NewRequestFails _ | DoFails _ | ReadFails _ _ _ => true
  end.

(** The bytes the loop works with: [Some jsonData] when the body is
    absent ([jsonData] stays nil) or serializes, [None] when
    [json.Marshal] fails. *)
Definition marshalled {Body : Type} (json_Marshal : Body -> bytes + string)
  (body : option Body) : option (option bytes) :=
  match body with
  | None => Some None
  | Some b =>
      match json_Marshal b with
      | inl jsonData => Some (Some jsonData)
      | inr _ => None
      end
  end.

(** The events before the loop. *)
Definition marshalEvents {Body : Type} (body : option Body) : list event :=
  match body with
  | Some _ => [EvMarshal]
  | None => []
  end.

(** An event of the loop that works with the bytes [jsonData]: a wait,
    or an attempt that was given these bytes and sent them as the body of
    its request. *)
Definition carries (jsonData : option bytes) (ev : event) : Prop :=
  match ev with
  | EvAttempt d req =>
      d = jsonData /\ (forall q, req = Some q -> req_body q = jsonData)
  | EvWait _ => True
  | EvMarshal => False
  end.

(** The specification's reading of the sentinel: a nested field that is
    the empty-object sentinel is absent, whichever field it is. *)
Definition sentinelMeansAbsent (r : DNSRecord) : Prop :=
  (DataRaw r = emptyJSON -> Data r = None)
  /\ (ConditionalDataRaw r = emptyJSON -> ConditionalData r = None).

(** The second pass as the code makes it: [data] is decoded unless it is
    the empty string; [conditional_data] is decoded unless it is the
    empty string or the empty-object sentinel, and a field that is not
    decoded stays nil. *)
Definition secondPass (unmarshalMap : string -> option jsonMap + string)
  (r : DNSRecord) : Prop :=
  (DataRaw r = ""%string -> Data r = None)
  /\ (DataRaw r <> ""%string -> unmarshalMap (DataRaw r) = inl (Data r))
  /\ (ConditionalDataRaw r = ""%string \/ ConditionalDataRaw r = emptyJSON ->
      ConditionalData r = None)
  /\ (ConditionalDataRaw r <> ""%string ->
      ConditionalDataRaw r <> emptyJSON ->
      unmarshalMap (ConditionalDataRaw r) = inl (ConditionalData r)).

(** The base of the backoff before attempt [i >= 1]:
    [min(RetryWaitMin * 2^(i-1), RetryWaitMax)], in nanoseconds. *)
Definition backoffBase (c : Client) (i : Z) : Z :=
  Z.min (RetryWaitMin c * 2 ^ (i - 1)) (RetryWaitMax c).

(** A wait within a quarter of the base, as the specification has it:
    [0.75 * base <= wait <= 1.25 * base]. *)
Definition withinJitter (c : Client) (i : Z) (wait : Duration) : Prop :=
  3 * backoffBase c i <= 4 * wait <= 5 * backoffBase c i.

(** The wait before attempt [i] as the specification has it, a real
    number of nanoseconds: [base * (0.75 + 0.5 * r)]. *)
Definition jitteredBase (c : Client) (i : Z) (r : float) : R :=
  (IZR (backoffBase c i) * (3 / 4 + value r / 2))%R.

(** What the roundings of the float64 operations may move it by:
    [base / 2^50] nanoseconds. *)
Definition roundingError (c : Client) (i : Z) : R :=
  (IZR (backoffBase c i) / IZR (2 ^ 50))%R.

(** *** Traces and results of a call *)

(** The waits of a trace, in order; [None] is a wait that is not an
    [int64]. *)
Definition waitDurations (t : list event) : list (option Duration) :=
  flat_map (fun ev => match ev with EvWait w => [w] | _ => [] end) t.

(** The requests that went to [HTTPClient.Do], in order. *)
Definition requestsSent (t : list event) : list request :=
  flat_map (fun ev => match ev with
                      | EvAttempt _ (Some q) => [q]
                      | _ => []
                      end) t.

(** The value of a header; [req.Header.Get] gives the empty string for
    [None].  [Set] and [Get] bring the name to the same canonical form,
    so that a value is found under the name it was set with. *)
Fixpoint headerValue (k : string) (h : list (string * string))
  : option string :=
  match h with
  | [] => None
  | (k', v) :: h' => if String.eqb k' k then Some v else headerValue k h'
  end.

(** The events of the loop as they follow each other: an attempt, then
    a wait and an attempt for every retry; a wait alone at the end is one
    that the context cut short. *)
Fixpoint retriesShape (t : list event) : bool :=
  match t with
  | [] => true
  | [EvWait _] => true
  | EvWait _ :: EvAttempt _ _ :: t' => retriesShape t'
  | _ => false
  end.

Definition loopShape (t : list event) : bool :=
  match t with
  | [] => true
  | EvAttempt _ _ :: t' => retriesShape t'
  | _ => false
  end.

(** An error that the loop keeps in [lastErr] and goes on: a failure of
    [executeRequest], or a status that is neither 2xx nor 4xx. *)
Definition retried (e : error) : bool :=
  match e with
  | CreateRequestError _ | ExecuteError _ | ReadBodyError _ => true
  | StatusError status _ =>
      negb ((200 <=? status) && (status <? 300))
      && negb ((400 <=? status) && (status <? 500))
  | _ => false
  end.

(** The errors that [doRequestWithContext] returns. *)
Definition callError (c : Client) (e : error) : bool :=
  match e with
  | CtxError _ | MarshalError _ => true
  | StatusError status _ => (400 <=? status) && (status <? 500)
  | RetriesError n lastErr =>
      (n =? MaxRetries c)
      && match lastErr with
         | None => true
         | Some e' => retried e'
         end
  | _ => false
  end.

(** The source of the jitter as the code has it: eight bytes from
    [rand.Read], or a clock that is not before 1970. *)
Definition wellFormed (src : randomness) : bool :=
  match src with
  | RandBytes b => Nat.eqb (List.length b) 8
  | RandFailed unixNano => 0 <=? unixNano
  end.

(** A wait between the integer parts of three and of five quarters of
    the base of retry [i]. *)
Definition jittered (c : Client) (i : Z) (wait : option Duration) : Prop :=
  exists d, wait = Some d
            /\ 3 * backoffBase c i / 4 <= d <= 5 * backoffBase c i / 4.

(** The time spent waiting, in nanoseconds. *)
Definition totalWait (t : list event) : Z :=
  fold_right (fun w acc => match w with Some d => d + acc | None => acc end)
    0 (waitDurations t).

(** The call returned the body of the answer to its last attempt, an
    answer with a 2xx status. *)
Definition lastAnswer (env : nat -> iteration) (t : list event)
  (respBody : bytes) : Prop :=
  exists n status,
    attempts t = S n
    /\ outcome (env n) = Responds status respBody
    /\ 200 <= status < 300.

(** The random factor drawn from the 64-bit number [n]. *)
Definition factorOfUint64 (n : Z) : float :=
  (Float64.of_int n / Float64.pow2 64)%float.

(** ** The scenarios of the test-suite *)

(** A body that is already JSON text, and one that does not serialize. *)
Definition marshalText (s : string) : bytes + string :=
  inl (bytes_of_string s).

Definition marshalFails (_ : string) : bytes + string :=
  inr "json: unsupported type"%string.

(** [NewClient(server.URL, "test-key")] with the test's settings. *)
Definition testClient (maxRetries : Z) (waitMin waitMax : Duration) : Client :=
  {| BaseURL := "http://127.0.0.1:8080";
     APIKey := "test-key";
     HTTPTimeout := 30 * Second;
     UserAgent := "terraform-provider-snitchdns/dev";
     MaxRetries := maxRetries;
     RetryWaitMin := waitMin;
     RetryWaitMax := waitMax;
     DebugLogging := false |}.

(** The clients of [TestRetryLogic] and [TestRetryExhausted], and one
    whose shortest wait is a nanosecond. *)
Definition retryLogicClient : Client :=
  testClient 3 (10 * Millisecond) (50 * Millisecond).

Definition retryExhaustedClient : Client :=
  testClient 2 (1 * Millisecond) (5 * Millisecond).

Definition nanosecondClient : Client :=
  testClient 3 Nanosecond (30 * Second).

(** An iteration during which nothing is cancelled. *)
Definition served (t : transport) : iteration :=
  {| random := RandBytes (repeat Byte.x80 8);
     wait_done := None;
     outcome := t;
     ctx_err := None |}.

Definition serviceUnavailable : iteration := served (Responds 503 []).
Definition notFound : iteration :=
  served (Responds 404 (bytes_of_string "no such zone")).
Definition found : iteration :=
  served (Responds 200 (bytes_of_string "{}")).
Definition brokenBody : iteration :=
  served (ReadFails 200 (bytes_of_string "{") "unexpected EOF").

(** The server of [TestRetryLogic]: 503 twice, then 200. *)
Definition failsTwice (k : nat) : iteration :=
  if (k <? 2)%nat then serviceUnavailable else found.

(** The deadline passes during the first backoff wait. *)
Definition deadlineInWait (k : nat) : iteration :=
  match k with
  | O => serviceUnavailable
  | S _ => {| random := RandBytes (repeat Byte.x80 8);
              wait_done := Some DeadlineExceeded;
              outcome := Responds 200 [];
              ctx_err := Some DeadlineExceeded |}
  end.

(** The deadline passes while the first request is in flight
    ([TestContextTimeout]). *)
Definition deadlineInFlight (_ : nat) : iteration :=
  {| random := RandBytes (repeat Byte.x80 8);
     wait_done := Some DeadlineExceeded;
     outcome := DoFails "context deadline exceeded";
     ctx_err := Some DeadlineExceeded |}.

(** The fields of the record [recordJSON addressJSON emptyJSON]. *)
Definition addressFields : recordFields :=
  {| f_id := 7; f_zone_id := 1; f_active := true; f_cls := "IN";
     f_type := "A"; f_ttl := 60; f_data := addressJSON;
     f_is_conditional := false; f_conditional_count := 0;
     f_conditional_limit := 0; f_conditional_reset := false;
     f_conditional_data := emptyJSON |}.

(** The server of [TestRetryLogic], with its answer: 503 twice, then the
    zone. *)
Definition zoneAfterTwo (k : nat) : iteration :=
  if (k <? 2)%nat then serviceUnavailable else served (Responds 200 zoneJSON).

(** A server that answers a deletion with 204 and no body. *)
Definition deleted : iteration := served (Responds 204 []).

(** A client whose [MaxRetries] is the largest [int]. *)
Definition relentlessClient : Client :=
  testClient GoInt.max_int (1 * Millisecond) (5 * Millisecond).

(** The events of a run. *)
Definition traceOf {A : Type} (run : option (A * list event)) : list event :=
  match run with
  | Some (_, t) => t
  | None => []
  end.

(** The traces of [TestRetryLogic] and of [TestRetryExhausted]. *)
Definition retryLogicTrace : list event :=
  Eval vm_compute in
    traceOf (doRequestWithContext string marshalText retryLogicClient
               zoneAfterTwo 5 "GET" "/zones/1" None).

Definition retryExhaustedTrace : list event :=
  Eval vm_compute in
    traceOf (doRequestWithContext string marshalText retryExhaustedClient
               (fun _ => serviceUnavailable) 5 "GET" "/zones/1" None).

Definition deletionTrace : list event :=
  Eval vm_compute in
    traceOf (doRequestWithContext string marshalText retryLogicClient
               (fun _ => deleted) 5 "DELETE" "/zones/1" None).

(** A record whose [data] is not JSON. *)
Definition brokenDataTrace : list event :=
  Eval vm_compute in
    traceOf (doRequestWithContext string marshalText retryLogicClient
               (fun _ => served (Responds 200 (recordJSON "{" "")))
               5 "GET" "/zones/1/records/7" None).

(** The traces of [TestNoRetryOn4xx], and of a call whose deadline passes
    during its first wait. *)
Definition notFoundTrace : list event :=
  Eval vm_compute in
    traceOf (doRequestWithContext string marshalText retryLogicClient
               (fun _ => notFound) 5 "GET" "/zones/1" None).

Definition deadlineTrace : list event :=
  Eval vm_compute in
    traceOf (doRequestWithContext string marshalText retryLogicClient
               deadlineInWait 5 "GET" "/zones/1" None).

(** * Properties *)

(** ** Arithmetic and traces *)

Lemma incr_no_overflow (z : Z) :
  GoInt.min_int <= z < GoInt.max_int -> GoInt.incr z = z + 1.
Proof.
  unfold GoInt.incr, GoInt.wrap, GoInt.min_int, GoInt.max_int. intros H.
  rewrite Z.mod_small; lia.
Qed.

Lemma attempts_app (t1 t2 : list event) :
  attempts (t1 ++ t2) = (attempts t1 + attempts t2)%nat.
Proof. unfold attempts. now rewrite filter_app, length_app. Qed.

Lemma waits_app (t1 t2 : list event) :
  waits (t1 ++ t2) = (waits t1 + waits t2)%nat.
Proof. unfold waits. now rewrite filter_app, length_app. Qed.

(** ** One iteration *)

Section IterationFacts.

Variable c : Client.
Variables method path : string.
Variable jsonData : option bytes.

Local Abbreviation once := (attemptOnce c method path jsonData).
Local Abbreviation goes_on := (continues c method path jsonData).

Ltac iteration_cases attempt it :=
  unfold continues, attemptOnce, transient, uninterrupted;
  destruct it as [rnd0 wd0 [cause0|cause0|status0 partial0 cause0|status0 body0] ce0];
  cbn [random wait_done outcome ctx_err executeRequest err statusCode
       respBody sent recordedError];
  destruct (0 <? attempt) eqn:Hattempt; destruct wd0; destruct ce0;
  repeat match goal with
    | |- context [(?a <=? ?b) && (?b <? ?d)] =>
        destruct (a <=? b) eqn:?; destruct (b <? d) eqn:?;
        cbn [andb fst snd]
    end;
  cbn [fst snd app].

(** The events of one iteration: at most one wait, then at most one
    attempt. *)
Lemma attemptOnce_attempts_le (attempt : Z) (it : iteration) :
  (attempts (snd (once attempt it)) <= 1)%nat.
Proof. iteration_cases attempt it; cbn; lia. Qed.

Lemma attemptOnce_waits (attempt : Z) (it : iteration) :
  waits (snd (once attempt it)) = if 0 <? attempt then 1%nat else 0%nat.
Proof. iteration_cases attempt it; reflexivity. Qed.

(** An iteration after which the loop goes on made one attempt and
    recorded its failure. *)
Lemma attemptOnce_continue (attempt : Z) (it : iteration) (e : error)
  (evs : list event) :
  once attempt it = (Continue e, evs) ->
  e = recordedError (outcome it) /\ attempts evs = 1%nat.
Proof.
  iteration_cases attempt it; intros H; inversion H; subst; split; reflexivity.
Qed.

Lemma continues_spec (attempt : Z) (it : iteration) :
  goes_on attempt it = true ->
  exists evs, once attempt it = (Continue (recordedError (outcome it)), evs)
              /\ attempts evs = 1%nat.
Proof.
  unfold continues. destruct (once attempt it) as [[r|e] evs] eqn:E;
    cbn [fst]; intros H; [discriminate|].
  destruct (attemptOnce_continue _ _ _ _ E) as [-> Hn]. eauto.
Qed.

(** A transient failure whose backoff ran to its end is retried. *)
Lemma transient_continues (attempt : Z) (it : iteration) :
  transient it = true ->
  (0 < attempt -> uninterrupted it = true) ->
  goes_on attempt it = true.
Proof.
  iteration_cases attempt it; intros Ht Hw;
    try reflexivity; try discriminate; try lia;
    try (apply Z.ltb_lt in Hattempt; specialize (Hw Hattempt); discriminate).
Qed.

(** An attempt answered with a 4xx status ends the call with the status
    error; the iteration ends without an attempt only when its wait is
    cut short. *)
Lemma attemptOnce_terminal (attempt : Z) (it : iteration) (status : Z)
  (body : bytes) :
  outcome it = Responds status body ->
  400 <= status < 500 ->
  (exists evs,
     once attempt it
     = (Return (Err (StatusError status (string_of_bytes body))), evs)
     /\ attempts evs = 1%nat)
  \/ (exists e evs,
        once attempt it = (Return (Err (CtxError e)), evs)
        /\ attempts evs = 0%nat).
Proof.
  iteration_cases attempt it; intros H Hst; inversion H; subst;
    try lia; eauto.
Qed.

Lemma attemptOnce_carries (attempt : Z) (it : iteration) :
  Forall (carries jsonData) (snd (once attempt it)).
Proof.
  iteration_cases attempt it;
    repeat constructor; cbn; intros q Hq; inversion Hq; reflexivity.
Qed.

End IterationFacts.

(** ** The loop *)

Section LoopFacts.

Variable c : Client.
Variable env : nat -> iteration.
Variables method path : string.
Variable jsonData : option bytes.

Local Abbreviation once := (attemptOnce c method path jsonData).
Local Abbreviation goes_on := (continues c method path jsonData).
Local Abbreviation loop := (retryLoop c env method path jsonData).
Local Abbreviation prefix := (prefixTrace c env method path jsonData).

(** The loop leaves at once when the counter is past [MaxRetries]. *)
Lemma loop_exit (fuel k : nat) (attempt : Z) (lastErr : option error) :
  MaxRetries c < attempt ->
  loop (S fuel) k attempt lastErr
  = Some (Err (RetriesError (MaxRetries c) lastErr), []).
Proof.
  intros H. cbn [retryLoop]. apply Z.leb_gt in H. now rewrite H.
Qed.

(** [n] iterations after each of which the loop goes on: the loop is
    then where it would be had it started [n] iterations later, with
    their events before its own. *)
Lemma loop_prefix (n : nat) : forall (fuel k : nat) (attempt : Z)
  (lastErr : option error),
  GoInt.min_int <= attempt ->
  attempt + Z.of_nat n <= MaxRetries c + 1 ->
  attempt + Z.of_nat n <= GoInt.max_int ->
  (forall i, (i < n)%nat ->
     goes_on (attempt + Z.of_nat i) (env (k + i)%nat) = true) ->
  loop (n + fuel) k attempt lastErr
  = match loop fuel (k + n) (attempt + Z.of_nat n)
            (lastErrAfter env n k lastErr) with
    | Some (r, evs) => Some (r, prefix n k attempt ++ evs)
    | None => None
    end.
Proof.
  induction n as [|n IH]; intros fuel k attempt lastErr Hlo Hmax Hint Hgo.
  - cbn [prefixTrace lastErrAfter Nat.add app Z.of_nat].
    rewrite Nat.add_0_r, Z.add_0_r.
    destruct (loop fuel k attempt lastErr) as [[r evs]|]; reflexivity.
  - cbn [Nat.add retryLoop].
    assert (Hle : (attempt <=? MaxRetries c) = true) by (apply Z.leb_le; lia).
    rewrite Hle.
    pose proof (Hgo 0%nat (Nat.lt_0_succ n)) as H0.
    rewrite Z.add_0_r, Nat.add_0_r in H0.
    destruct (continues_spec _ _ _ _ _ _ H0) as [evs0 [E0 _]].
    rewrite E0, incr_no_overflow by lia.
    rewrite (IH fuel (S k) (attempt + 1)); try lia.
    + replace (attempt + 1 + Z.of_nat n) with (attempt + Z.of_nat (S n)) by lia.
      replace (S k + n)%nat with (k + S n)%nat by lia.
      replace (lastErrAfter env n (S k)
                 (Some (recordedError (outcome (env k)))))
        with (lastErrAfter env (S n) k lastErr).
      * destruct (loop fuel (k + S n) (attempt + Z.of_nat (S n))
                    (lastErrAfter env (S n) k lastErr)) as [[r evs]|];
          [|reflexivity].
        cbn [prefixTrace]. rewrite E0. cbn [snd]. now rewrite app_assoc.
      * destruct n as [|n']; cbn [lastErrAfter].
        -- now rewrite Nat.add_0_r.
        -- f_equal. f_equal. f_equal. f_equal. lia.
    + intros i Hi. specialize (Hgo (S i) (proj1 (Nat.succ_lt_mono i n) Hi)).
      replace (attempt + 1 + Z.of_nat i) with (attempt + Z.of_nat (S i)) by lia.
      now replace (S k + i)%nat with (k + S i)%nat by lia.
Qed.

(** Each of these iterations made one attempt. *)
Lemma prefix_attempts (n : nat) : forall (k : nat) (attempt : Z),
  (forall i, (i < n)%nat ->
     goes_on (attempt + Z.of_nat i) (env (k + i)%nat) = true) ->
  attempts (prefix n k attempt) = n.
Proof.
  induction n as [|n IH]; intros k attempt Hgo; [reflexivity|].
  cbn [prefixTrace]. rewrite attempts_app.
  pose proof (Hgo 0%nat (Nat.lt_0_succ n)) as H0.
  rewrite Z.add_0_r, Nat.add_0_r in H0.
  destruct (continues_spec _ _ _ _ _ _ H0) as [evs0 [E0 Hn]].
  rewrite E0. cbn [snd]. rewrite Hn, IH; [reflexivity|].
  intros i Hi. specialize (Hgo (S i) (proj1 (Nat.succ_lt_mono i n) Hi)).
  replace (attempt + 1 + Z.of_nat i) with (attempt + Z.of_nat (S i)) by lia.
  now replace (S k + i)%nat with (k + S i)%nat by lia.
Qed.

(** In a loop that returns, an attempt answered with a 4xx status is
    the last one, and its status error is what the loop returns. *)
Lemma loop_terminal_last (fuel : nat) : forall (k : nat) (attempt : Z)
  (lastErr : option error) (r : result) (evs : list event) (j : nat)
  (status : Z) (body : bytes),
  loop fuel k attempt lastErr = Some (r, evs) ->
  (j < attempts evs)%nat ->
  outcome (env (k + j)%nat) = Responds status body ->
  400 <= status < 500 ->
  attempts evs = S j /\ r = Err (StatusError status (string_of_bytes body)).
Proof.
  induction fuel as [|fuel IH];
    intros k attempt lastErr r evs j status body Hrun Hj Hout Hst;
    [discriminate|].
  cbn [retryLoop] in Hrun.
  destruct (attempt <=? MaxRetries c).
  2:{ inversion Hrun; subst. cbn in Hj. lia. }
  pose proof (attemptOnce_attempts_le c method path jsonData attempt (env k))
    as Hle.
  destruct (once attempt (env k)) as [[r0|e0] evs0] eqn:E0; cbn [snd] in Hle.
  - inversion Hrun; subst r0 evs0; clear Hrun.
    assert (j = 0)%nat by lia. subst j. rewrite Nat.add_0_r in Hout.
    destruct (attemptOnce_terminal c method path jsonData attempt _ _ _
                Hout Hst) as [[evs1 [E1 H1]]|[e [evs1 [E1 H1]]]];
      rewrite E0 in E1; inversion E1; subst; [split; [lia|reflexivity]|lia].
  - destruct (attemptOnce_continue _ _ _ _ _ _ _ _ E0) as [_ Hn].
    destruct (loop fuel (S k) (GoInt.incr attempt) (Some e0))
      as [[r1 evs1]|] eqn:E1; [|discriminate].
    inversion Hrun; subst r evs; clear Hrun.
    rewrite attempts_app, Hn in *.
    destruct j as [|j].
    + rewrite Nat.add_0_r in Hout.
      destruct (attemptOnce_terminal c method path jsonData attempt _ _ _
                  Hout Hst) as [[evs2 [E2 _]]|[e [evs2 [E2 _]]]];
        rewrite E0 in E2; discriminate.
    + replace (k + S j)%nat with (S k + j)%nat in Hout by lia.
      destruct (IH _ _ _ _ _ j _ _ E1 ltac:(lia) Hout Hst) as [Ha Hr].
      split; [lia|assumption].
Qed.

(** The waits of these iterations: one each, but none before the very
    first attempt. *)
Lemma prefix_waits (n : nat) : forall (k : nat) (attempt : Z),
  0 <= attempt ->
  waits (prefix n k attempt) = if 0 <? attempt then n else pred n.
Proof.
  induction n as [|n IH]; intros k attempt Hpos.
  - destruct (0 <? attempt); reflexivity.
  - cbn [prefixTrace]. rewrite waits_app, attemptOnce_waits, IH by lia.
    replace (0 <? attempt + 1) with true by (symmetry; apply Z.ltb_lt; lia).
    destruct (0 <? attempt); cbn [pred]; lia.
Qed.

(** Every attempt of the loop is given the same bytes. *)
Lemma loop_carries (fuel : nat) : forall (k : nat) (attempt : Z)
  (lastErr : option error) (r : result) (evs : list event),
  loop fuel k attempt lastErr = Some (r, evs) ->
  Forall (carries jsonData) evs.
Proof.
  induction fuel as [|fuel IH]; intros k attempt lastErr r evs Hrun;
    [discriminate|].
  cbn [retryLoop] in Hrun.
  destruct (attempt <=? MaxRetries c).
  2:{ inversion Hrun; subst. constructor. }
  pose proof (attemptOnce_carries c method path jsonData attempt (env k))
    as Hc.
  destruct (once attempt (env k)) as [[r0|e0] evs0]; cbn [snd] in Hc.
  - inversion Hrun; subst. assumption.
  - destruct (loop fuel (S k) (GoInt.incr attempt) (Some e0))
      as [[r1 evs1]|] eqn:E1; [|discriminate].
    inversion Hrun; subst. apply Forall_app. split; [assumption|].
    eapply IH; eassumption.
Qed.

(** The loop returns: [MaxRetries + 2] units of fuel are enough when the
    counter cannot overflow. *)
Lemma loop_returns (m : nat) : forall (fuel k : nat) (attempt : Z)
  (lastErr : option error),
  GoInt.min_int <= attempt ->
  MaxRetries c + 1 <= GoInt.max_int ->
  MaxRetries c + 1 - attempt <= Z.of_nat m ->
  (m + 1 <= fuel)%nat ->
  exists r evs, loop fuel k attempt lastErr = Some (r, evs).
Proof.
  induction m as [|m IH]; intros fuel k attempt lastErr Hlo Hint Hm Hfuel;
    (destruct fuel as [|fuel]; [lia|]); cbn [retryLoop];
    destruct (attempt <=? MaxRetries c) eqn:Hle; eauto.
  - apply Z.leb_le in Hle. lia.
  - apply Z.leb_le in Hle.
    destruct (once attempt (env k)) as [[r0|e0] evs0]; eauto.
    rewrite incr_no_overflow by lia.
    destruct (IH fuel (S k) (attempt + 1) (Some e0)) as [r [evs E]];
      try lia.
    rewrite E. eauto.
Qed.

(** With [MaxRetries] the largest [int] the condition of the loop is
    always true: against a server that never recovers the loop does not
    return, whatever the fuel. *)
Lemma loop_runs_on_at_max_int (fuel : nat) : forall (k : nat) (attempt : Z)
  (lastErr : option error),
  MaxRetries c = GoInt.max_int ->
  (forall j, transient (env j) = true /\ uninterrupted (env j) = true) ->
  GoInt.min_int <= attempt <= GoInt.max_int ->
  loop fuel k attempt lastErr = None.
Proof.
  induction fuel as [|fuel IH]; intros k attempt lastErr Hmax Henv Hr;
    [reflexivity|].
  cbn [retryLoop]. rewrite Hmax.
  replace (attempt <=? GoInt.max_int) with true
    by (symmetry; apply Z.leb_le; lia).
  destruct (Henv k) as [Ht Hw].
  pose proof (transient_continues c method path jsonData attempt (env k) Ht
                (fun _ => Hw)) as Hgo.
  destruct (continues_spec _ _ _ _ _ _ Hgo) as [evs [E _]]. rewrite E.
  rewrite IH; [reflexivity|assumption|assumption|].
  unfold GoInt.incr, GoInt.wrap, GoInt.min_int, GoInt.max_int in *.
  pose proof (Z.mod_pos_bound (attempt + 1 + 2 ^ 63) (2 ^ 64)
                ltac:(lia)). lia.
Qed.

End LoopFacts.

(** ** Calls *)

Section CallFacts.

Variable Body : Type.
Variable json_Marshal : Body -> bytes + string.

Local Abbreviation call := (doRequestWithContext Body json_Marshal).

(** A call is the serialization followed by the loop. *)
Lemma call_loop (c : Client) (env : nat -> iteration) (fuel : nat)
  (method path : string) (body : option Body) (jsonData : option bytes) :
  marshalled json_Marshal body = Some jsonData ->
  call c env fuel method path body
  = match retryLoop c env method path jsonData fuel 0 0 None with
    | Some (r, evs) => Some (r, marshalEvents body ++ evs)
    | None => None
    end.
Proof.
  unfold marshalled, doRequestWithContext, marshalEvents.
  destruct body as [b|].
  - destruct (json_Marshal b) as [d|e]; [|discriminate].
    intros H. inversion H. subst. reflexivity.
  - intros H. inversion H. subst.
    destruct (retryLoop c env method path None fuel 0 0 None) as [[r evs]|];
      reflexivity.
Qed.

Lemma marshalEvents_attempts (body : option Body) :
  attempts (marshalEvents body) = 0%nat.
Proof. destruct body; reflexivity. Qed.

Lemma marshalEvents_waits (body : option Body) :
  waits (marshalEvents body) = 0%nat.
Proof. destruct body; reflexivity. Qed.

(** A call returns: [MaxRetries + 2] units of fuel are enough when the
    loop counter cannot overflow. *)
Lemma call_returns (c : Client) (env : nat -> iteration) (fuel : nat)
  (method path : string) (body : option Body) :
  MaxRetries c + 1 <= GoInt.max_int ->
  (Z.to_nat (MaxRetries c + 1) + 1 <= fuel)%nat ->
  exists r evs, call c env fuel method path body = Some (r, evs).
Proof.
  intros Hint Hfuel. unfold doRequestWithContext.
  destruct body as [b|].
  - destruct (json_Marshal b) as [d|e]; [|eauto].
    destruct (loop_returns c env method path (Some d)
                (Z.to_nat (MaxRetries c + 1)) fuel 0 0 None)
      as [r [evs E]]; try (unfold GoInt.min_int; lia).
    rewrite E. eauto.
  - apply (loop_returns c env method path None (Z.to_nat (MaxRetries c + 1)));
      try (unfold GoInt.min_int; lia).
Qed.

(** C1: with [MaxRetries >= 0], when each of the [MaxRetries + 1]
    attempts is a transient failure (a 5xx status, or a transport error
    while the context is not done; the backoff waits between them run to
    their end), the call makes exactly [MaxRetries + 1] attempts and
    returns the retries error that wraps the failure of the last one. *)
Theorem retries_exhausted (c : Client) (env : nat -> iteration)
  (method path : string) (body : option Body) (jsonData : option bytes)
  (fuel : nat) :
  0 <= MaxRetries c ->
  MaxRetries c + 1 <= GoInt.max_int ->
  marshalled json_Marshal body = Some jsonData ->
  (forall k, (k <= Z.to_nat (MaxRetries c))%nat -> transient (env k) = true) ->
  (forall k, (1 <= k <= Z.to_nat (MaxRetries c))%nat ->
     uninterrupted (env k) = true) ->
  (Z.to_nat (MaxRetries c) + 2 <= fuel)%nat ->
  exists evs,
    call c env fuel method path body
    = Some (Err (RetriesError (MaxRetries c)
                   (Some (recordedError
                            (outcome (env (Z.to_nat (MaxRetries c))))))),
            evs)
    /\ attempts evs = Z.to_nat (MaxRetries c + 1).
Proof.
  intros Hpos Hint Hm Htr Hw Hfuel.
  set (n := S (Z.to_nat (MaxRetries c))).
  assert (Hgo : forall i, (i < n)%nat ->
            continues c method path jsonData (0 + Z.of_nat i) (env (0 + i)%nat)
            = true).
  { intros i Hi. apply transient_continues.
    - apply Htr. cbn [Nat.add]. lia.
    - intros H0. apply Hw. cbn [Nat.add]. lia. }
  rewrite (call_loop _ _ _ _ _ _ _ Hm).
  replace fuel with (n + (fuel - n))%nat by lia.
  rewrite loop_prefix; try assumption;
    try (unfold GoInt.min_int, GoInt.max_int in *; lia).
  replace (fuel - n)%nat with (S (fuel - n - 1)) by lia.
  rewrite loop_exit by lia.
  eexists. split.
  - cbn [lastErrAfter Nat.add]. reflexivity.
  - rewrite attempts_app, marshalEvents_attempts, app_nil_r.
    rewrite prefix_attempts by assumption. lia.
Qed.

(** C2: when the first [k] attempts ([k <= MaxRetries]) are transient
    failures and attempt [k+1] answers with a status in [200,300), the
    call returns that answer's bytes after exactly [k+1] attempts, and
    that attempt is the last thing it does. *)
Theorem success_after_transient_failures (c : Client)
  (env : nat -> iteration) (method path : string) (body : option Body)
  (jsonData : option bytes) (k : nat) (status : Z) (answer : bytes)
  (fuel : nat) :
  Z.of_nat k <= MaxRetries c ->
  MaxRetries c <= GoInt.max_int ->
  marshalled json_Marshal body = Some jsonData ->
  (forall i, (i < k)%nat -> transient (env i) = true) ->
  (forall i, (1 <= i <= k)%nat -> uninterrupted (env i) = true) ->
  outcome (env k) = Responds status answer ->
  200 <= status < 300 ->
  (k + 1 <= fuel)%nat ->
  exists evs,
    call c env fuel method path body
    = Some (Ok answer,
            evs ++ [EvAttempt jsonData
                      (Some (buildRequest c method path jsonData))])
    /\ attempts (evs ++ [EvAttempt jsonData
                           (Some (buildRequest c method path jsonData))])
       = (k + 1)%nat.
Proof.
  intros Hk Hint Hm Htr Hw Hout Hst Hfuel.
  assert (Hgo : forall i, (i < k)%nat ->
            continues c method path jsonData (0 + Z.of_nat i) (env (0 + i)%nat)
            = true).
  { intros i Hi. apply transient_continues.
    - apply Htr. cbn [Nat.add]. lia.
    - intros H0. apply Hw. cbn [Nat.add]. lia. }
  rewrite (call_loop _ _ _ _ _ _ _ Hm).
  replace fuel with (k + S (fuel - k - 1))%nat by lia.
  rewrite loop_prefix; try assumption;
    try (unfold GoInt.min_int, GoInt.max_int in *; lia).
  cbn [retryLoop Nat.add Z.add].
  replace (Z.of_nat k <=? MaxRetries c) with true by (symmetry; apply Z.leb_le; lia).
  unfold attemptOnce.
  assert (Hwk : (if 0 <? Z.of_nat k then wait_done (env k) else None) = None).
  { destruct (0 <? Z.of_nat k) eqn:E; [|reflexivity].
    apply Z.ltb_lt in E. specialize (Hw k ltac:(lia)).
    unfold uninterrupted in Hw. now destruct (wait_done (env k)). }
  rewrite Hwk, Hout. cbn [executeRequest err statusCode respBody sent].
  replace (200 <=? status) with true by (symmetry; apply Z.leb_le; lia).
  replace (status <? 300) with true by (symmetry; apply Z.ltb_lt; lia).
  cbn [andb].
  eexists. split.
  - rewrite !app_assoc. reflexivity.
  - rewrite !attempts_app, marshalEvents_attempts.
    rewrite prefix_attempts by assumption.
    destruct (0 <? Z.of_nat k); cbn; lia.
Qed.

(** C3: when the first attempt answers with a status in [400,500), the
    call makes exactly one attempt, whatever [MaxRetries >= 0] is, and
    returns at once the error that carries the status and the raw body;
    and in every call that returns, an attempt answered with such a
    status is the last one. *)
Theorem terminal_failure_is_final (c : Client) (env : nat -> iteration)
  (method path : string) (body : option Body) (jsonData : option bytes)
  (status : Z) (answer : bytes) (fuel : nat) :
  0 <= MaxRetries c ->
  marshalled json_Marshal body = Some jsonData ->
  outcome (env 0%nat) = Responds status answer ->
  400 <= status < 500 ->
  (1 <= fuel)%nat ->
  (exists evs,
     call c env fuel method path body
     = Some (Err (StatusError status (string_of_bytes answer)), evs)
     /\ attempts evs = 1%nat /\ waits evs = 0%nat)
  /\ (forall env' fuel' r evs j status' answer',
        call c env' fuel' method path body = Some (r, evs) ->
        (j < attempts evs)%nat ->
        outcome (env' j) = Responds status' answer' ->
        400 <= status' < 500 ->
        attempts evs = S j
        /\ r = Err (StatusError status' (string_of_bytes answer'))).
Proof.
  intros Hpos Hm Hout Hst Hfuel. split.
  - rewrite (call_loop _ _ _ _ _ _ _ Hm).
    destruct fuel as [|fuel]; [lia|]. cbn [retryLoop].
    replace (0 <=? MaxRetries c) with true by (symmetry; apply Z.leb_le; lia).
    unfold attemptOnce. cbn [Z.ltb Z.compare]. rewrite Hout.
    cbn [executeRequest err statusCode respBody sent].
    replace (200 <=? status) with true by (symmetry; apply Z.leb_le; lia).
    replace (status <? 300) with false by (symmetry; apply Z.ltb_ge; lia).
    replace (400 <=? status) with true by (symmetry; apply Z.leb_le; lia).
    replace (status <? 500) with true by (symmetry; apply Z.ltb_lt; lia).
    cbn [andb app]. eexists. split; [reflexivity|].
    rewrite attempts_app, waits_app, marshalEvents_attempts,
      marshalEvents_waits. split; reflexivity.
  - intros env' fuel' r evs j status' answer' Hrun Hj Hout' Hst'.
    rewrite (call_loop _ _ _ _ _ _ _ Hm) in Hrun.
    destruct (retryLoop c env' method path jsonData fuel' 0 0 None)
      as [[r0 evs0]|] eqn:E; [|discriminate].
    inversion Hrun; subst r0 evs; clear Hrun.
    rewrite attempts_app, marshalEvents_attempts in *. cbn [Nat.add] in *.
    eapply loop_terminal_last; eauto.
Qed.

(** C10: with a negative [MaxRetries] the call makes no attempt and
    waits for nothing, and still returns the retries error, a non-nil
    error that wraps nil. *)
Theorem negative_budget_fails_unattempted (c : Client)
  (env : nat -> iteration) (method path : string) (body : option Body)
  (jsonData : option bytes) (fuel : nat) :
  MaxRetries c < 0 ->
  marshalled json_Marshal body = Some jsonData ->
  (1 <= fuel)%nat ->
  exists evs,
    call c env fuel method path body
    = Some (Err (RetriesError (MaxRetries c) None), evs)
    /\ attempts evs = 0%nat /\ waits evs = 0%nat
    /\ unwrap (RetriesError (MaxRetries c) None) = None.
Proof.
  intros Hneg Hm Hfuel.
  rewrite (call_loop _ _ _ _ _ _ _ Hm).
  destruct fuel as [|fuel]; [lia|].
  rewrite loop_exit by lia.
  eexists. split; [reflexivity|].
  rewrite app_nil_r, marshalEvents_attempts, marshalEvents_waits.
  repeat split; reflexivity.
Qed.

(** C4: an attempt that completes at the transport level hands back the
    whole body and the status, and its outcome depends on the status
    alone: success with the body in [200,300), the final status error in
    [400,500), and a failure the loop retries for every other status. *)
Theorem outcome_by_status (c : Client) (method path : string)
  (jsonData : option bytes) (attempt : Z) (it : iteration) (status : Z)
  (answer : bytes) :
  outcome it = Responds status answer ->
  (0 < attempt -> uninterrupted it = true) ->
  (respBody (executeRequest c method path jsonData (outcome it)) = answer
   /\ statusCode (executeRequest c method path jsonData (outcome it)) = status
   /\ err (executeRequest c method path jsonData (outcome it)) = None)
  /\ (200 <= status < 300 ->
      fst (attemptOnce c method path jsonData attempt it)
      = Return (Ok answer))
  /\ (400 <= status < 500 ->
      fst (attemptOnce c method path jsonData attempt it)
      = Return (Err (StatusError status (string_of_bytes answer))))
  /\ (~ 200 <= status < 300 -> ~ 400 <= status < 500 ->
      fst (attemptOnce c method path jsonData attempt it)
      = Continue (StatusError status (string_of_bytes answer))).
Proof.
  intros Hout Hw. rewrite Hout.
  cbn [executeRequest respBody statusCode err]. split; [auto|].
  assert (Hwd : (if 0 <? attempt then wait_done it else None) = None).
  { destruct (0 <? attempt) eqn:E; [|reflexivity].
    apply Z.ltb_lt in E. specialize (Hw E).
    unfold uninterrupted in Hw. now destruct (wait_done it). }
  unfold attemptOnce. rewrite Hwd, Hout.
  cbn [executeRequest respBody statusCode err sent].
  destruct (200 <=? status) eqn:E1; destruct (status <? 300) eqn:E2;
    destruct (400 <=? status) eqn:E3; destruct (status <? 500) eqn:E4;
    cbn [andb fst];
    repeat match goal with
      | H : (_ <=? _) = true |- _ => apply Z.leb_le in H
      | H : (_ <=? _) = false |- _ => apply Z.leb_gt in H
      | H : (_ <? _) = true |- _ => apply Z.ltb_lt in H
      | H : (_ <? _) = false |- _ => apply Z.ltb_ge in H
      end;
    repeat split; intros; try reflexivity; lia.
Qed.

(** C9: an attempt whose response has a 2xx status but whose body cannot
    be read to the end, while the context is not done, is a transient
    failure that the loop retries, never a success. *)
Theorem partial_read_is_retried (c : Client) (method path : string)
  (jsonData : option bytes) (attempt : Z) (it : iteration) (status : Z)
  (partial : bytes) (cause : string) :
  outcome it = ReadFails status partial cause ->
  200 <= status < 300 ->
  ctx_err it = None ->
  (0 < attempt -> uninterrupted it = true) ->
  fst (attemptOnce c method path jsonData attempt it)
  = Continue (ReadBodyError cause)
  /\ transient it = true
  /\ continues c method path jsonData attempt it = true
  /\ (forall b, fst (attemptOnce c method path jsonData attempt it)
                <> Return (Ok b)).
Proof.
  intros Hout Hst Hctx Hw.
  assert (Hwd : (if 0 <? attempt then wait_done it else None) = None).
  { destruct (0 <? attempt) eqn:E; [|reflexivity].
    apply Z.ltb_lt in E. specialize (Hw E).
    unfold uninterrupted in Hw. now destruct (wait_done it). }
  assert (E : fst (attemptOnce c method path jsonData attempt it)
              = Continue (ReadBodyError cause)).
  { unfold attemptOnce. rewrite Hwd, Hout, Hctx. reflexivity. }
  repeat split.
  - exact E.
  - unfold transient. now rewrite Hout, Hctx.
  - unfold continues. now rewrite E.
  - intros b. rewrite E. discriminate.
Qed.

(** C6: in a call that has come to its [n]-th retry, a cancellation that
    fires during the backoff wait, or that is in force when the attempt
    fails at the transport level, makes the call return the context's
    error at once: the interrupted wait, or the failed attempt, is the
    last event, and the error is neither a recorded failure nor the
    retries error. *)
Theorem cancellation_is_immediate (c : Client) (env : nat -> iteration)
  (method path : string) (body : option Body) (jsonData : option bytes)
  (n : nat) (e : ctxError) (fuel : nat) :
  Z.of_nat n <= MaxRetries c ->
  MaxRetries c <= GoInt.max_int ->
  marshalled json_Marshal body = Some jsonData ->
  (forall i, (i < n)%nat ->
     continues c method path jsonData (Z.of_nat i) (env i) = true) ->
  (n + 1 <= fuel)%nat ->
  ((0 < n)%nat -> wait_done (env n) = Some e ->
   exists evs wait,
     call c env fuel method path body
     = Some (Err (CtxError e), evs ++ [EvWait wait])
     /\ attempts (evs ++ [EvWait wait]) = n
     /\ waits (evs ++ [EvWait wait]) = n)
  /\ (((0 < n)%nat -> uninterrupted (env n) = true) ->
      failsAtTransport (outcome (env n)) = true ->
      ctx_err (env n) = Some e ->
      exists evs req,
        call c env fuel method path body
        = Some (Err (CtxError e), evs ++ [EvAttempt jsonData req])
        /\ attempts (evs ++ [EvAttempt jsonData req]) = (n + 1)%nat
        /\ waits (evs ++ [EvAttempt jsonData req]) = n).
Proof.
  intros Hn Hint Hm Hgo Hfuel.
  assert (Hgo' : forall i, (i < n)%nat ->
            continues c method path jsonData (0 + Z.of_nat i) (env (0 + i)%nat)
            = true) by (intros i Hi; now apply Hgo).
  assert (Hrun : call c env fuel method path body
                 = match attemptOnce c method path jsonData (Z.of_nat n) (env n)
                   with
                   | (Return r, evs) =>
                       Some (r, marshalEvents body
                                ++ prefixTrace c env method path jsonData n 0 0
                                ++ evs)
                   | (Continue e0, evs) =>
                       match retryLoop c env method path jsonData
                               (fuel - n - 1) (S n)
                               (GoInt.incr (Z.of_nat n)) (Some e0) with
                       | Some (r, evs') =>
                           Some (r, marshalEvents body
                                    ++ prefixTrace c env method path jsonData
                                         n 0 0
                                    ++ evs ++ evs')
                       | None => None
                       end
                   end).
  { rewrite (call_loop _ _ _ _ _ _ _ Hm).
    replace fuel with (n + S (fuel - n - 1))%nat at 1 by lia.
    rewrite loop_prefix; try assumption;
      try (unfold GoInt.min_int, GoInt.max_int in *; lia).
    cbn [retryLoop Nat.add Z.add].
    replace (Z.of_nat n <=? MaxRetries c) with true
      by (symmetry; apply Z.leb_le; lia).
    destruct (attemptOnce c method path jsonData (Z.of_nat n) (env n))
      as [[r0|e0] evs0]; [reflexivity|].
    destruct (retryLoop c env method path jsonData (fuel - n - 1) (S n)
                (GoInt.incr (Z.of_nat n)) (Some e0)) as [[r1 evs1]|];
      reflexivity. }
  pose proof (prefix_attempts c env method path jsonData n 0 0 Hgo') as Hpa.
  pose proof (prefix_waits c env method path jsonData n 0 0 (Z.le_refl 0))
    as Hpw.
  cbn [Z.ltb Z.compare] in Hpw.
  split.
  - intros Hpos Hwd. rewrite Hrun. unfold attemptOnce.
    replace (0 <? Z.of_nat n) with true by (symmetry; apply Z.ltb_lt; lia).
    rewrite Hwd. eexists. eexists. split.
    + rewrite app_assoc. reflexivity.
    + rewrite !attempts_app, !waits_app, marshalEvents_attempts,
        marshalEvents_waits, Hpa, Hpw. cbn. lia.
  - intros Hw Hfail Hctx. rewrite Hrun. unfold attemptOnce.
    assert (Hwd : (if 0 <? Z.of_nat n then wait_done (env n) else None)
                  = None).
    { destruct (0 <? Z.of_nat n) eqn:E; [|reflexivity].
      apply Z.ltb_lt in E. specialize (Hw ltac:(lia)).
      unfold uninterrupted in Hw. now destruct (wait_done (env n)). }
    rewrite Hwd, Hctx.
    destruct (outcome (env n)) as [cause|cause|st partial cause|st b];
      try discriminate;
      cbn [executeRequest err sent];
      (eexists; eexists; split;
       [rewrite !app_assoc; reflexivity|
        rewrite !attempts_app, !waits_app, marshalEvents_attempts,
          marshalEvents_waits, Hpa, Hpw;
        destruct (0 <? Z.of_nat n) eqn:E; cbn;
        [apply Z.ltb_lt in E|apply Z.ltb_ge in E]; lia]).
Qed.

(** C7: a body that is present is serialized once, before the first
    attempt, and every attempt of the call is given, and sends, the bytes
    of that one serialization; when the serialization fails the call
    returns the marshal error and makes no attempt. *)
Theorem body_serialized_once (c : Client) (env : nat -> iteration)
  (method path : string) (b : Body) (fuel : nat) :
  (forall e, json_Marshal b = inr e ->
     call c env fuel method path (Some b)
     = Some (Err (MarshalError e), [EvMarshal])
     /\ attempts [EvMarshal] = 0%nat)
  /\ (forall jsonData r evs,
        json_Marshal b = inl jsonData ->
        call c env fuel method path (Some b) = Some (r, evs) ->
        exists evs',
          evs = EvMarshal :: evs'
          /\ marshals evs = 1%nat
          /\ Forall (carries (Some jsonData)) evs').
Proof.
  split.
  - intros e He. unfold doRequestWithContext. rewrite He. split; reflexivity.
  - intros jsonData r evs Hd Hrun. unfold doRequestWithContext in Hrun.
    rewrite Hd in Hrun.
    destruct (retryLoop c env method path (Some jsonData) fuel 0 0 None)
      as [[r0 evs0]|] eqn:E; [|discriminate].
    inversion Hrun; subst r0 evs; clear Hrun.
    pose proof (loop_carries _ _ _ _ _ _ _ _ _ _ _ E) as Hc.
    exists evs0. repeat split; [|assumption].
    unfold marshals. cbn [filter is_marshal List.length]. f_equal.
    clear E. induction Hc as [|ev evs1 Hev _ IH]; [reflexivity|].
    destruct ev; cbn [filter is_marshal]; [contradiction|assumption..].
Qed.

End CallFacts.

(** ** Binary64 arithmetic

    What the backoff needs of IEEE 754, from the standard library's
    specification of the operations: rounding never crosses a number of
    the format, so a result that the format holds is exact and a bound
    that the format holds is kept. *)

(** *** Powers of two *)
Lemma powerRZ_2_pos (e : Z) : (0 < powerRZ 2 e)%R.
Proof. apply powerRZ_lt. lra. Qed.

Lemma powerRZ_2_1 : powerRZ 2 1 = 2%R.
Proof. exact (powerRZ_1 2). Qed.

Lemma powerRZ_2_add (a b : Z) : powerRZ 2 (a + b) = (powerRZ 2 a * powerRZ 2 b)%R.
Proof. apply powerRZ_add. lra. Qed.

Lemma IZR_pow2 (k : Z) : 0 <= k -> IZR (2 ^ k) = powerRZ 2 k.
Proof.
  intros Hk. rewrite <- (Z2Nat.id k Hk) at 1.
  rewrite <- pow_IZR. now rewrite pow_powerRZ, Z2Nat.id.
Qed.

Lemma powerRZ_2_le (a b : Z) : a <= b -> (powerRZ 2 a <= powerRZ 2 b)%R.
Proof.
  intros H. replace b with (a + (b - a)) by lia.
  rewrite powerRZ_2_add, <- (IZR_pow2 (b - a)) by lia.
  assert (0 < 2 ^ (b - a)) by (apply Z.pow_pos_nonneg; lia).
  assert (H1 : (1 <= IZR (2 ^ (b - a)))%R) by (apply IZR_le; lia).
  pose proof (powerRZ_2_pos a). nra.
Qed.

Lemma F2R_shift (m e k : Z) : 0 <= k -> F2R (m * 2 ^ k) e = F2R m (e + k).
Proof.
  intros Hk. unfold F2R. rewrite mult_IZR, IZR_pow2, powerRZ_2_add by lia. ring.
Qed.

(** *** The number of binary digits *)
Lemma digits2_pos_bounds (p : positive) :
  2 ^ (Z.pos (digits2_pos p) - 1) <= Z.pos p < 2 ^ Z.pos (digits2_pos p).
Proof.
  induction p as [p IH|p IH|]; cbn [digits2_pos].
  - rewrite Pos2Z.inj_succ.
    replace (Z.succ (Z.pos (digits2_pos p)) - 1) with (Z.succ (Z.pos (digits2_pos p) - 1)) by lia.
    rewrite !Z.pow_succ_r by lia. lia.
  - rewrite Pos2Z.inj_succ.
    replace (Z.succ (Z.pos (digits2_pos p)) - 1) with (Z.succ (Z.pos (digits2_pos p) - 1)) by lia.
    rewrite !Z.pow_succ_r by lia. lia.
  - cbn. lia.
Qed.

(** *** Shifting a mantissa to the right *)
Lemma iter_pos_nat {A : Type} (f : A -> A) (p : positive) : forall x,
  iter_pos f p x = Nat.iter (Pos.to_nat p) f x.
Proof.
  induction p as [p IH|p IH|]; intros x; cbn [iter_pos].
  - rewrite !IH, Pos2Nat.inj_xI, Nat.iter_succ_r.
    replace (2 * Pos.to_nat p)%nat with (Pos.to_nat p + Pos.to_nat p)%nat by lia.
    now rewrite Nat.iter_add.
  - rewrite !IH, Pos2Nat.inj_xO.
    replace (2 * Pos.to_nat p)%nat with (Pos.to_nat p + Pos.to_nat p)%nat by lia.
    now rewrite Nat.iter_add.
  - reflexivity.
Qed.

Lemma shr_1_spec (mrs : shr_record) :
  0 <= shr_m mrs ->
  shr_m (shr_1 mrs) = shr_m mrs / 2
  /\ shr_r (shr_1 mrs) = Z.odd (shr_m mrs)
  /\ shr_s (shr_1 mrs) = shr_r mrs || shr_s mrs.
Proof.
  destruct mrs as [m r s]. cbn [shr_m shr_r shr_s]. intros Hm.
  destruct m as [|[p|p|]|p]; try lia; cbn [shr_1 shr_m shr_r shr_s].
  - repeat split.
  - repeat split. rewrite Pos2Z.inj_xI.
    rewrite <- (Z.div_unique (2 * Z.pos p + 1) 2 (Z.pos p) 1); lia.
  - repeat split. rewrite Pos2Z.inj_xO.
    rewrite <- (Z.div_unique (2 * Z.pos p) 2 (Z.pos p) 0); lia.
  - repeat split.
Qed.

Lemma shr_iter_spec (m : Z) (k : nat) :
  0 <= m ->
  shr_m (Nat.iter k shr_1 {| shr_m := m; shr_r := false; shr_s := false |})
  = m / 2 ^ Z.of_nat k
  /\ (shr_r (Nat.iter k shr_1 {| shr_m := m; shr_r := false; shr_s := false |})
      || shr_s (Nat.iter k shr_1 {| shr_m := m; shr_r := false; shr_s := false |})
      = false
      <-> m mod 2 ^ Z.of_nat k = 0).
Proof.
  intros Hm. induction k as [|k IH].
  - cbn. rewrite Z.div_1_r, Z.mod_1_r. tauto.
  - rewrite Nat.iter_succ.
    set (prev := Nat.iter k shr_1 {| shr_m := m; shr_r := false; shr_s := false |}) in *.
    destruct IH as [IHm IHf].
    assert (Hp : 0 <= shr_m prev) by (rewrite IHm; apply Z.div_pos; lia).
    destruct (shr_1_spec prev Hp) as [Em [Er Es]].
    rewrite Em, Er, Es, IHm, Nat2Z.inj_succ, Z.pow_succ_r by lia.
    assert (H2k : 0 < 2 ^ Z.of_nat k) by (apply Z.pow_pos_nonneg; lia).
    split.
    + rewrite Z.div_div by lia. f_equal. lia.
    + pose proof (Z.div_mod m (2 ^ Z.of_nat k) ltac:(lia)) as Hdm.
      pose proof (Z.mod_pos_bound m (2 ^ Z.of_nat k) H2k) as Hb.
      pose proof (Z.div_mod m (2 * 2 ^ Z.of_nat k) ltac:(lia)) as Hdm2.
      pose proof (Z.mod_pos_bound m (2 * 2 ^ Z.of_nat k) ltac:(lia)) as Hb2.
      rewrite orb_false_iff, IHf.
      set (q := m / 2 ^ Z.of_nat k) in *.
      rewrite <- Z.negb_even, negb_false_iff.
      split.
      * intros [He Hr]. apply Z.even_spec in He. destruct He as [j Hj].
        symmetry. apply (Z.mod_unique_pos m (2 * 2 ^ Z.of_nat k) j 0); lia.
      * intros Hr. rewrite Hr in Hdm2.
        assert (Hm0 : m mod 2 ^ Z.of_nat k = 0).
        { symmetry.
          apply (Z.mod_unique_pos m (2 ^ Z.of_nat k) (2 * (m / (2 * 2 ^ Z.of_nat k))) 0); lia. }
        split; [|assumption].
        apply Z.even_spec. exists (m / (2 * 2 ^ Z.of_nat k)). nia.
Qed.

(** [shr_fexp] on a mantissa that is not negative: the quotient by the
    power of two, and whether anything was lost. *)
Lemma shr_fexp_spec (m e : Z) :
  0 <= m ->
  let k := Z.max (fexp prec emax (Zdigits2 m + e) - e) 0 in
  exists mrs,
    shr_fexp prec emax m e loc_Exact = (mrs, e + k)
    /\ shr_m mrs = m / 2 ^ k
    /\ (loc_of_shr_record mrs = loc_Exact <-> m mod 2 ^ k = 0).
Proof.
  intros Hm k. unfold shr_fexp, shr. cbn [shr_record_of_loc].
  subst k. destruct (fexp prec emax (Zdigits2 m + e) - e) as [|p|p] eqn:En.
  - eexists. split; [rewrite Z.add_0_r; reflexivity|].
    cbn. rewrite Z.div_1_r, Z.mod_1_r. tauto.
  - rewrite iter_pos_nat.
    destruct (shr_iter_spec m (Pos.to_nat p) Hm) as [Em Ef].
    rewrite positive_nat_Z in Em, Ef.
    eexists. split; [reflexivity|]. rewrite Z.max_l by lia.
    split; [exact Em|]. rewrite <- Ef.
    destruct (Nat.iter (Pos.to_nat p) shr_1 _) as [m' [|] [|]]; cbn;
      split; intros; congruence.
  - eexists. split; [rewrite Z.add_0_r; reflexivity|].
    cbn. rewrite Z.div_1_r, Z.mod_1_r. tauto.
Qed.

(** *** Rounding a positive value *)

Lemma fexp64_eq (x : Z) : fexp prec emax x = Z.max (x - 53) (-1074).
Proof. reflexivity. Qed.

Lemma round_nearest_even_spec (q : Z) (l : location) :
  q <= round_nearest_even q l <= q + 1
  /\ (l = loc_Exact -> round_nearest_even q l = q).
Proof.
  destruct l as [|[| |]]; cbn [round_nearest_even];
    try destruct (Z.even q); split; try lia; try discriminate; reflexivity.
Qed.

Lemma roundDown_lt (m : positive) (e : Z) :
  e <= roundExp m e -> 0 <= roundDown m e < 2 ^ 53.
Proof.
  intros Hn. unfold roundDown.
  pose proof (digits2_pos_bounds m) as [_ Hhi].
  set (d := Z.pos (digits2_pos m)) in *.
  assert (Hk : d - 53 <= roundExp m e - e).
  { unfold roundExp. fold d. rewrite fexp64_eq. lia. }
  set (k := roundExp m e - e) in *.
  assert (0 < 2 ^ k) by (apply Z.pow_pos_nonneg; lia).
  split; [apply Z.div_pos; lia|].
  apply Z.div_lt_upper_bound; [lia|].
  destruct (Z.le_gt_cases 53 d) as [Hd|Hd].
  - replace d with (53 + (d - 53)) in Hhi by lia. rewrite Z.pow_add_r in Hhi by lia.
    assert (2 ^ (d - 53) <= 2 ^ k) by (apply Z.pow_le_mono_r; lia). nia.
  - assert (2 ^ d <= 2 ^ 53) by (apply Z.pow_le_mono_r; lia). nia.
Qed.

Lemma roundDown_normal (m : positive) (e : Z) :
  e <= roundExp m e -> -1074 < roundExp m e -> 2 ^ 52 <= roundDown m e.
Proof.
  intros Hn Hnorm. unfold roundDown.
  pose proof (digits2_pos_bounds m) as [Hlo _].
  unfold roundExp in *. rewrite fexp64_eq in *.
  set (d := Z.pos (digits2_pos m)) in *.
  assert (Ek : Z.max (d + e - 53) (-1074) - e = d - 53) by lia.
  rewrite Ek. assert (0 <= d - 53) by lia.
  apply Z.div_le_lower_bound; [apply Z.pow_pos_nonneg; lia|].
  rewrite <- Z.pow_add_r by lia. replace (d - 53 + 52) with (d - 1) by lia. lia.
Qed.

(** [binary_round_aux] on [m * 2^e], when [e] is not above the exponent
    to round to: the mantissa rounded down or up at that exponent, down
    when nothing is lost; or an overflow, of a value of 2^1024 at
    least. *)
Lemma round_aux_spec (m : positive) (e : Z) :
  e <= roundExp m e ->
  exists q',
    roundDown m e <= q' <= roundDown m e + 1
    /\ (Z.pos m mod 2 ^ (roundExp m e - e) = 0 -> q' = roundDown m e)
    /\ ((binary_round_aux prec emax false (Z.pos m) e loc_Exact
         = S754_infinity false
         /\ (powerRZ 2 1024 <= F2R q' (roundExp m e))%R)
        \/ (nonnegFinite (binary_round_aux prec emax false (Z.pos m) e loc_Exact)
            = true
            /\ SF2R (binary_round_aux prec emax false (Z.pos m) e loc_Exact)
               = F2R q' (roundExp m e))).
Proof.
  intros Hn. unfold binary_round_aux.
  destruct (shr_fexp_spec (Z.pos m) e) as [mrs [E1 [Em El]]]; [lia|].
  cbn [Zdigits2] in *. fold (roundExp m e) in *.
  rewrite Z.max_l in * by lia. rewrite E1.
  replace (e + (roundExp m e - e)) with (roundExp m e) in * by lia.
  fold (roundDown m e) in Em.
  pose proof (roundDown_lt m e Hn) as Hq.
  set (t := roundExp m e) in *.
  assert (Ht : -1074 <= t) by (unfold t, roundExp; rewrite fexp64_eq; lia).
  destruct (round_nearest_even_spec (shr_m mrs) (loc_of_shr_record mrs)) as [Hr He].
  set (q' := round_nearest_even (shr_m mrs) (loc_of_shr_record mrs)) in *.
  rewrite Em in Hr, He.
  exists q'. split; [lia|]. split; [intros H0; apply He, El, H0|].
  destruct (shr_fexp_spec q' t) as [mrs2 [E2 [Em2 _]]]; [lia|].
  rewrite E2.
  destruct (Z.eq_dec q' 0) as [Hz|Hz].
  - (* the rounded mantissa is zero *)
    rewrite Hz in *. cbn [Zdigits2] in Em2.
    rewrite Z.div_0_l in Em2 by (apply Z.pow_nonzero; lia).
    rewrite Em2. right. split; [reflexivity|]. unfold F2R. cbn. lra.
  - assert (Hq' : 0 < q' <= 2 ^ 53) by lia.
    destruct q' as [|p|p] eqn:Eq'; try lia.
    cbn [Zdigits2] in *.
    pose proof (digits2_pos_bounds p) as [Dlo Dhi].
    set (d := Z.pos (digits2_pos p)) in *.
    assert (Hd : d <= 54).
    { destruct (Z.le_gt_cases d 54); [assumption|].
      assert (2 ^ 54 <= 2 ^ (d - 1)) by (apply Z.pow_le_mono_r; lia). lia. }
    rewrite fexp64_eq in *.
    destruct (Z.eq_dec d 54) as [H54|H54].
    + (* the mantissa became 2^53 *)
      assert (Hp : Z.pos p = 2 ^ 53).
      { rewrite H54 in Dlo. change (2 ^ (54 - 1)) with (2 ^ 53) in Dlo. lia. }
      replace (Z.max (Z.max (d + t - 53) (-1074) - t) 0) with 1 in * by lia.
      rewrite Hp in Em2. change (2 ^ 53 / 2 ^ 1) with (Z.pos (2 ^ 52)%positive) in Em2.
      rewrite Em2.
      assert (Ev : F2R (Z.pos p) t = F2R (2 ^ 52) (t + 1)).
      { rewrite Hp. change (2 ^ 53) with (2 ^ 52 * 2 ^ 1). now rewrite F2R_shift by lia. }
      destruct (t + 1 <=? emax - prec) eqn:Eo.
      * right. split; [reflexivity|]. cbn [SF2R]. rewrite Ev. reflexivity.
      * left. split; [reflexivity|]. apply Z.leb_gt in Eo.
        change (emax - prec) with 971 in Eo. rewrite Ev. unfold F2R.
        rewrite IZR_pow2, <- powerRZ_2_add by lia.
        apply powerRZ_2_le. lia.
    + replace (Z.max (Z.max (d + t - 53) (-1074) - t) 0) with 0 in * by lia.
      rewrite Z.add_0_r, Z.div_1_r in *. rewrite Em2.
      destruct (t <=? emax - prec) eqn:Eo.
      * right. split; reflexivity.
      * left. split; [reflexivity|]. apply Z.leb_gt in Eo.
        change (emax - prec) with 971 in Eo.
        assert (H52 : 2 ^ 52 <= roundDown m e)
          by (apply roundDown_normal; [assumption|fold t; lia]).
        unfold F2R.
        assert (Hp52 : (IZR (2 ^ 52) <= IZR (Z.pos p))%R) by (apply IZR_le; lia).
        rewrite IZR_pow2 in Hp52 by lia.
        pose proof (powerRZ_2_le 972 t ltac:(lia)) as Hpt.
        pose proof (powerRZ_2_pos 972). pose proof (powerRZ_2_pos 52).
        replace 1024 with (52 + 972) by lia. rewrite powerRZ_2_add. nra.
Qed.

(** *** The numbers of the format *)
Lemma bounded_spec (M : positive) (E : Z) :
  bounded prec emax M E = true ->
  -1074 <= E <= 971
  /\ Z.pos M < 2 ^ 53
  /\ (-1074 < E -> 2 ^ 52 <= Z.pos M).
Proof.
  unfold bounded, canonical_mantissa. rewrite andb_true_iff, Z.eqb_eq, Z.leb_le.
  rewrite fexp64_eq. change (emax - prec) with 971. intros [Hc He].
  pose proof (digits2_pos_bounds M) as [Dlo Dhi].
  set (d := Z.pos (digits2_pos M)) in *.
  assert (Hd : d <= 53) by lia.
  assert (2 ^ d <= 2 ^ 53) by (apply Z.pow_le_mono_r; lia).
  repeat split; try lia.
  intros Hn. assert (d = 53) by lia. subst d.
  replace (Z.pos (digits2_pos M)) with 53 in Dlo by lia. exact Dlo.
Qed.

Lemma valid_value_lt (F : spec_float) :
  valid_binary F = true -> nonnegFinite F = true ->
  (0 <= SF2R F < powerRZ 2 1024)%R.
Proof.
  destruct F as [s|s| |[|] M E]; cbn [valid_binary nonnegFinite SF2R negb];
    try discriminate; intros Hv _.
  - pose proof (powerRZ_2_pos 1024). lra.
  - destruct (bounded_spec M E Hv) as [[Elo Ehi] [HM _]].
    unfold F2R. pose proof (powerRZ_2_pos E).
    assert (H1 : (0 < IZR (Z.pos M))%R) by (apply IZR_lt; lia).
    assert (H2 : (IZR (Z.pos M) <= IZR (2 ^ 53))%R) by (apply IZR_le; lia).
    rewrite IZR_pow2 in H2 by lia.
    pose proof (powerRZ_2_le E 971 Ehi) as H3.
    pose proof (powerRZ_2_pos 53).
    replace 1024 with (53 + 971) by lia. rewrite powerRZ_2_add.
    split; [nra|]. 
    assert (H4 : (IZR (Z.pos M) < IZR (2 ^ 53))%R) by (apply IZR_lt; lia).
    rewrite IZR_pow2 in H4 by lia. nra.
Qed.

(** The value to round lies between two neighbours on the grid of the
    rounding exponent. *)
Lemma roundDown_value (m : positive) (e : Z) :
  e <= roundExp m e ->
  (F2R (roundDown m e) (roundExp m e) <= F2R (Z.pos m) e
   < F2R (roundDown m e + 1) (roundExp m e))%R
  /\ (F2R (roundDown m e) (roundExp m e) = F2R (Z.pos m) e ->
      Z.pos m mod 2 ^ (roundExp m e - e) = 0).
Proof.
  intros Hn. unfold roundDown.
  set (t := roundExp m e) in *. set (k := t - e).
  assert (H2k : 0 < 2 ^ k) by (apply Z.pow_pos_nonneg; lia).
  pose proof (Z.div_mod (Z.pos m) (2 ^ k) ltac:(lia)) as Hdm.
  pose proof (Z.mod_pos_bound (Z.pos m) (2 ^ k) H2k) as Hb.
  set (q := Z.pos m / 2 ^ k) in *. set (r := Z.pos m mod 2 ^ k) in *.
  replace t with (e + k) by lia.
  rewrite <- !F2R_shift by lia. unfold F2R.
  pose proof (powerRZ_2_pos e) as Hpe.
  assert (Hm : IZR (Z.pos m) = (IZR (q * 2 ^ k) + IZR r)%R).
  { rewrite <- plus_IZR. f_equal. lia. }
  assert (Hr0 : (0 <= IZR r)%R) by (apply IZR_le; lia).
  assert (Hr1 : (IZR r < IZR (2 ^ k))%R) by (apply IZR_lt; lia).
  assert (Hq1 : IZR ((q + 1) * 2 ^ k) = (IZR (q * 2 ^ k) + IZR (2 ^ k))%R).
  { rewrite <- plus_IZR. f_equal. lia. }
  rewrite Hm, Hq1. split; [split; nra|].
  intros H. assert (IZR r = 0%R) by nra. now apply eq_IZR.
Qed.

(** No number of the format lies strictly between these neighbours. *)
Lemma grid (m : positive) (e : Z) (F : spec_float) :
  e <= roundExp m e ->
  valid_binary F = true -> nonnegFinite F = true ->
  (SF2R F <= F2R (roundDown m e) (roundExp m e))%R
  \/ (F2R (roundDown m e + 1) (roundExp m e) <= SF2R F)%R.
Proof.
  intros Hn Hv Hf.
  pose proof (roundDown_lt m e Hn) as Hq.
  set (q := roundDown m e) in *. set (t := roundExp m e).
  assert (Ht : -1074 <= t) by (unfold t, roundExp; rewrite fexp64_eq; lia).
  pose proof (powerRZ_2_pos t) as Hpt.
  destruct F as [s|s| |[|] M E]; cbn [valid_binary nonnegFinite SF2R negb] in *;
    try discriminate.
  - left. unfold F2R. assert (0 <= IZR q)%R by (apply IZR_le; lia). nra.
  - destruct (bounded_spec M E Hv) as [[Elo Ehi] [HM HMn]].
    destruct (Z.le_gt_cases t E) as [HtE|HtE].
    + replace E with (t + (E - t)) by lia. rewrite <- F2R_shift by lia.
      unfold F2R.
      destruct (Z.le_gt_cases (Z.pos M * 2 ^ (E - t)) q) as [H|H].
      * left. apply IZR_le in H. nra.
      * right. assert (H' : q + 1 <= Z.pos M * 2 ^ (E - t)) by lia.
        apply IZR_le in H'. nra.
    + left. assert (H52 : 2 ^ 52 <= q).
      { apply roundDown_normal; [assumption|fold t; lia]. }
      unfold F2R.
      assert (H1 : (IZR (Z.pos M) <= IZR (2 ^ 53))%R) by (apply IZR_le; lia).
      assert (H2 : (IZR (2 ^ 52) <= IZR q)%R) by (apply IZR_le; lia).
      rewrite IZR_pow2 in H1, H2 by lia.
      pose proof (powerRZ_2_le (E + 1) t ltac:(lia)) as H3.
      rewrite powerRZ_2_add, powerRZ_2_1 in H3.
      pose proof (powerRZ_2_pos E). pose proof (powerRZ_2_pos 52).
      change 53 with (52 + 1) in H1. rewrite powerRZ_2_add, powerRZ_2_1 in H1.
      nra.
Qed.

(** Hence rounding does not cross a number of the format: one below the
    value stays below the result, one above stays above, and then the
    result is finite. *)
Lemma round_aux_between (m : positive) (e : Z) (F : spec_float) :
  e <= roundExp m e ->
  valid_binary F = true -> nonnegFinite F = true ->
  ((SF2R F <= F2R (Z.pos m) e)%R ->
   binary_round_aux prec emax false (Z.pos m) e loc_Exact = S754_infinity false
   \/ (nonnegFinite (binary_round_aux prec emax false (Z.pos m) e loc_Exact)
       = true
       /\ (SF2R F
           <= SF2R (binary_round_aux prec emax false (Z.pos m) e loc_Exact))%R))
  /\ ((F2R (Z.pos m) e <= SF2R F)%R ->
      nonnegFinite (binary_round_aux prec emax false (Z.pos m) e loc_Exact)
      = true
      /\ (SF2R (binary_round_aux prec emax false (Z.pos m) e loc_Exact)
          <= SF2R F)%R).
Proof.
  intros Hn Hv Hf.
  destruct (round_aux_spec m e Hn) as [q' [Hq' [Hex Hx]]].
  destruct (roundDown_value m e Hn) as [[Vlo Vhi] Veq].
  pose proof (grid m e F Hn Hv Hf) as Hg.
  pose proof (valid_value_lt F Hv Hf) as [_ HF].
  set (x := binary_round_aux prec emax false (Z.pos m) e loc_Exact) in *.
  set (q := roundDown m e) in *. set (t := roundExp m e) in *.
  pose proof (powerRZ_2_pos t) as Hpt.
  assert (Hq'lo : (F2R q t <= F2R q' t)%R).
  { unfold F2R. assert (IZR q <= IZR q')%R by (apply IZR_le; lia). nra. }
  assert (Hq'hi : (F2R q' t <= F2R (q + 1) t)%R).
  { unfold F2R. assert (IZR q' <= IZR (q + 1))%R by (apply IZR_le; lia). nra. }
  split.
  - intros Hle. destruct Hx as [[Hinf _]|[Hfin Hval]]; [left; exact Hinf|].
    right. split; [exact Hfin|]. rewrite Hval.
    destruct Hg as [Hg|Hg]; lra.
  - intros Hle.
    assert (Hbound : (F2R q' t <= SF2R F)%R).
    { destruct Hg as [Hg|Hg]; [|lra].
      assert (Heq : F2R q t = F2R (Z.pos m) e) by lra.
      rewrite (Hex (Veq Heq)). lra. }
    destruct Hx as [[_ Hbig]|[Hfin Hval]]; [lra|].
    split; [exact Hfin|]. now rewrite Hval.
Qed.

(** *** Aligning to a smaller exponent *)
Lemma iter_xO_spec (m d : positive) :
  Z.pos (Pos.iter xO m d) = Z.pos m * 2 ^ Z.pos d
  /\ Z.pos (digits2_pos (Pos.iter xO m d)) = Z.pos (digits2_pos m) + Z.pos d.
Proof.
  induction d as [|d IH] using Pos.peano_ind.
  - cbn [Pos.iter digits2_pos]. rewrite Pos2Z.inj_succ. split; lia.
  - rewrite Pos.iter_succ. cbn [digits2_pos]. destruct IH as [IH1 IH2].
    rewrite !Pos2Z.inj_succ, Pos2Z.inj_xO, IH1, IH2, Z.pow_succ_r by lia.
    split; lia.
Qed.

Lemma shl_align_spec (m : positive) (e e' : Z) :
  exists s, 0 <= s
    /\ s = Z.max (e - e') 0
    /\ Z.pos (fst (shl_align m e e')) = Z.pos m * 2 ^ s
    /\ snd (shl_align m e e') = e - s
    /\ Z.pos (digits2_pos (fst (shl_align m e e'))) = Z.pos (digits2_pos m) + s.
Proof.
  unfold shl_align. destruct (e' - e) as [|p|p] eqn:E; cbn [fst snd].
  - exists 0. repeat split; lia.
  - exists 0. repeat split; lia.
  - destruct (iter_xO_spec m p) as [H1 H2].
    exists (Z.pos p). repeat split; lia.
Qed.

Lemma shl_align_F2R (m : positive) (e e' : Z) :
  F2R (Z.pos (fst (shl_align m e e'))) (snd (shl_align m e e')) = F2R (Z.pos m) e.
Proof.
  destruct (shl_align_spec m e e') as [s [Hs [_ [Hm [He _]]]]].
  rewrite Hm, He, F2R_shift by lia. f_equal. lia.
Qed.

(** [binary_round] aligns first; it does not cross a number of the
    format either. *)
Lemma round_between (m : positive) (e : Z) (F : spec_float) :
  valid_binary F = true -> nonnegFinite F = true ->
  ((SF2R F <= F2R (Z.pos m) e)%R ->
   binary_round prec emax false m e = S754_infinity false
   \/ (nonnegFinite (binary_round prec emax false m e) = true
       /\ (SF2R F <= SF2R (binary_round prec emax false m e))%R))
  /\ ((F2R (Z.pos m) e <= SF2R F)%R ->
      nonnegFinite (binary_round prec emax false m e) = true
      /\ (SF2R (binary_round prec emax false m e) <= SF2R F)%R).
Proof.
  intros Hv Hf. unfold binary_round.
  pose proof (shl_align_F2R m e (fexp prec emax (Z.pos (digits2_pos m) + e))) as HF.
  destruct (shl_align_spec m e (fexp prec emax (Z.pos (digits2_pos m) + e)))
    as [s [Hs [Es [Hm [He Hd]]]]].
  destruct (shl_align m e (fexp prec emax (Z.pos (digits2_pos m) + e))) as [mz ez].
  cbn [fst snd] in *. rewrite <- HF.
  apply round_aux_between; try assumption.
  unfold roundExp. rewrite Hd, He.
  replace (Z.pos (digits2_pos m) + s + (e - s)) with (Z.pos (digits2_pos m) + e)
    by lia.
  lia.
Qed.

(** *** The error of a rounding

    A value below [2^K] moves by [2^(K-53)] at most, the distance of two
    neighbours on its grid, and the result is finite. *)
Lemma round_aux_error (m : positive) (e K : Z) :
  e <= roundExp m e ->
  (F2R (Z.pos m) e < powerRZ 2 K)%R ->
  -1021 <= K <= 1023 ->
  nonnegFinite (binary_round_aux prec emax false (Z.pos m) e loc_Exact) = true
  /\ (- powerRZ 2 (K - 53)
      <= SF2R (binary_round_aux prec emax false (Z.pos m) e loc_Exact)
         - F2R (Z.pos m) e
      <= powerRZ 2 (K - 53))%R.
Proof.
  intros Hn Hlt HK.
  destruct (round_aux_spec m e Hn) as [q' [Hq' [_ Hx]]].
  destruct (roundDown_value m e Hn) as [[Vlo Vhi] _].
  set (x := binary_round_aux prec emax false (Z.pos m) e loc_Exact) in *.
  set (q := roundDown m e) in *.
  assert (Ht : roundExp m e <= K - 53).
  { unfold roundExp. rewrite fexp64_eq.
    pose proof (digits2_pos_bounds m) as [Dlo _].
    set (d := Z.pos (digits2_pos m)) in *.
    assert (Hd : 0 <= d - 1) by (unfold d; lia).
    assert (d + e <= K); [|lia].
    destruct (Z.le_gt_cases (d + e) K) as [H|H]; [exact H|exfalso].
    pose proof (powerRZ_2_le K (d - 1 + e) ltac:(lia)) as H1.
    rewrite powerRZ_2_add in H1.
    assert (H2 : (IZR (2 ^ (d - 1)) <= IZR (Z.pos m))%R) by (apply IZR_le; lia).
    rewrite IZR_pow2 in H2 by lia.
    unfold F2R in Hlt. pose proof (powerRZ_2_pos e).
    pose proof (powerRZ_2_pos (d - 1)). nra. }
  set (t := roundExp m e) in *.
  pose proof (powerRZ_2_le t (K - 53) Ht) as Hpt.
  pose proof (powerRZ_2_pos t) as Hpos.
  assert (Hstep : F2R (q + 1) t = (F2R q t + powerRZ 2 t)%R)
    by (unfold F2R; rewrite plus_IZR; ring).
  assert (Hq'lo : (F2R q t <= F2R q' t)%R).
  { unfold F2R. assert (IZR q <= IZR q')%R by (apply IZR_le; lia). nra. }
  assert (Hq'hi : (F2R q' t <= F2R (q + 1) t)%R).
  { unfold F2R. assert (IZR q' <= IZR (q + 1))%R by (apply IZR_le; lia). nra. }
  destruct Hx as [[_ Hbig]|[Hfin Hval]].
  - exfalso.
    pose proof (powerRZ_2_le K 1023 ltac:(lia)) as H1.
    pose proof (powerRZ_2_le (K - 53) 1023 ltac:(lia)) as H2.
    replace 1024 with (1023 + 1) in Hbig by lia.
    rewrite powerRZ_2_add, powerRZ_2_1 in Hbig. lra.
  - split; [exact Hfin|]. rewrite Hval. lra.
Qed.

Lemma round_error (m : positive) (e K : Z) :
  (F2R (Z.pos m) e < powerRZ 2 K)%R ->
  -1021 <= K <= 1023 ->
  nonnegFinite (binary_round prec emax false m e) = true
  /\ (- powerRZ 2 (K - 53)
      <= SF2R (binary_round prec emax false m e) - F2R (Z.pos m) e
      <= powerRZ 2 (K - 53))%R.
Proof.
  intros Hlt HK. unfold binary_round.
  pose proof (shl_align_F2R m e (fexp prec emax (Z.pos (digits2_pos m) + e))) as HF.
  destruct (shl_align_spec m e (fexp prec emax (Z.pos (digits2_pos m) + e)))
    as [s [Hs [Es [Hm [He Hd]]]]].
  destruct (shl_align m e (fexp prec emax (Z.pos (digits2_pos m) + e))) as [mz ez].
  cbn [fst snd] in *. rewrite <- HF in *.
  apply round_aux_error; try assumption.
  unfold roundExp. rewrite Hd, He.
  replace (Z.pos (digits2_pos m) + s + (e - s)) with (Z.pos (digits2_pos m) + e)
    by lia.
  lia.
Qed.

(** The format holds every [k * 2^e] of at most 53 bits in its range. *)
Lemma representable (k : positive) (e : Z) :
  Z.pos k < 2 ^ 53 -> -1074 <= e -> Z.pos (digits2_pos k) + e <= 1024 ->
  exists F, valid_binary F = true /\ nonnegFinite F = true
            /\ SF2R F = F2R (Z.pos k) e.
Proof.
  intros Hk He Hmax.
  pose proof (shl_align_F2R k e (roundExp k e)) as HF.
  destruct (shl_align_spec k e (roundExp k e)) as [s [Hs [Es [Hm [Hez Hd]]]]].
  destruct (shl_align k e (roundExp k e)) as [mz ez]. cbn [fst snd] in *.
  exists (S754_finite false mz ez). split; [|split; [reflexivity|exact HF]].
  cbn [valid_binary]. unfold bounded, canonical_mantissa.
  pose proof (digits2_pos_bounds k) as [Dlo Dhi].
  assert (Hdk : Z.pos (digits2_pos k) <= 53).
  { destruct (Z.le_gt_cases (Z.pos (digits2_pos k)) 53); [assumption|].
    assert (2 ^ 53 <= 2 ^ (Z.pos (digits2_pos k) - 1))
      by (apply Z.pow_le_mono_r; lia). lia. }
  unfold roundExp in *. rewrite fexp64_eq in *.
  rewrite Hd, Hez. change (emax - prec) with 971.
  apply andb_true_iff. split; [apply Z.eqb_eq|apply Z.leb_le]; lia.
Qed.

(** *** The operations, on numbers that are not negative *)

Lemma good_value_nonneg (x : spec_float) : goodSF x -> (0 <= SF2R x)%R.
Proof. intros [Hv Hf]. apply (valid_value_lt x Hv Hf). Qed.

Lemma digits2_pos_ge (p : positive) (k : Z) :
  2 ^ k <= Z.pos p -> k + 1 <= Z.pos (digits2_pos p).
Proof.
  intros H. pose proof (digits2_pos_bounds p) as [_ Hhi].
  destruct (Z.le_gt_cases (k + 1) (Z.pos (digits2_pos p))); [assumption|].
  assert (2 ^ Z.pos (digits2_pos p) <= 2 ^ k) by (apply Z.pow_le_mono_r; lia).
  lia.
Qed.

Lemma mul_aligned (mx my : positive) (ex ey : Z) :
  bounded prec emax mx ex = true -> bounded prec emax my ey = true ->
  ex + ey <= roundExp (mx * my) (ex + ey).
Proof.
  intros Hx Hy.
  destruct (bounded_spec mx ex Hx) as [[Exlo _] [_ Hxn]].
  destruct (bounded_spec my ey Hy) as [[Eylo _] [_ Hyn]].
  unfold roundExp. rewrite fexp64_eq.
  destruct (Z.eq_dec ex (-1074)) as [Hex|Hex];
    destruct (Z.eq_dec ey (-1074)) as [Hey|Hey]; try lia.
  - assert (H : 2 ^ 52 <= Z.pos (mx * my)) by (rewrite Pos2Z.inj_mul; nia).
    apply digits2_pos_ge in H. lia.
  - assert (H : 2 ^ 52 <= Z.pos (mx * my)) by (rewrite Pos2Z.inj_mul; nia).
    apply digits2_pos_ge in H. lia.
  - assert (H : 2 ^ 104 <= Z.pos (mx * my)).
    { rewrite Pos2Z.inj_mul. change (2 ^ 104) with (2 ^ 52 * 2 ^ 52).
      apply Z.mul_le_mono_nonneg; lia. }
    apply digits2_pos_ge in H. lia.
Qed.

Lemma F2R_mul (m1 m2 e1 e2 : Z) :
  F2R (m1 * m2) (e1 + e2) = (F2R m1 e1 * F2R m2 e2)%R.
Proof. unfold F2R. rewrite mult_IZR, powerRZ_2_add. ring. Qed.

Lemma F2R_add (m1 m2 e : Z) :
  F2R (m1 + m2) e = (F2R m1 e + F2R m2 e)%R.
Proof. unfold F2R. rewrite plus_IZR. ring. Qed.

Lemma F2R_sub (m1 m2 e : Z) :
  F2R (m1 - m2) e = (F2R m1 e - F2R m2 e)%R.
Proof. unfold F2R. rewrite minus_IZR. ring. Qed.

Lemma SFmul_between (x y F : spec_float) :
  goodSF x -> goodSF y -> goodSF F ->
  ((SF2R F <= SF2R x * SF2R y)%R ->
   SFmul prec emax x y = S754_infinity false
   \/ (nonnegFinite (SFmul prec emax x y) = true
       /\ (SF2R F <= SF2R (SFmul prec emax x y))%R))
  /\ ((SF2R x * SF2R y <= SF2R F)%R ->
      nonnegFinite (SFmul prec emax x y) = true
      /\ (SF2R (SFmul prec emax x y) <= SF2R F)%R).
Proof.
  intros [Vx Fx] [Vy Fy] [VF FF].
  pose proof (good_value_nonneg F (conj VF FF)) as HF0.
  destruct x as [sx|sx| |[|] mx ex]; try discriminate;
    destruct y as [sy|sy| |[|] my ey]; try discriminate;
    cbn [SFmul SF2R nonnegFinite xorb];
    try (rewrite ?Rmult_0_l, ?Rmult_0_r; split; intros H;
         [right; split; [reflexivity|assumption]|split; [reflexivity|assumption]]).
  rewrite <- F2R_mul, <- Pos2Z.inj_mul.
  apply round_aux_between; try assumption.
  now apply mul_aligned.
Qed.

Lemma SFadd_between (x y F : spec_float) :
  goodSF x -> goodSF y -> goodSF F ->
  ((SF2R F <= SF2R x + SF2R y)%R ->
   SFadd prec emax x y = S754_infinity false
   \/ (nonnegFinite (SFadd prec emax x y) = true
       /\ (SF2R F <= SF2R (SFadd prec emax x y))%R))
  /\ ((SF2R x + SF2R y <= SF2R F)%R ->
      nonnegFinite (SFadd prec emax x y) = true
      /\ (SF2R (SFadd prec emax x y) <= SF2R F)%R).
Proof.
  intros [Vx Fx] [Vy Fy] [VF FF].
  pose proof (good_value_nonneg F (conj VF FF)) as HF0.
  destruct x as [sx|sx| |[|] mx ex]; try discriminate;
    destruct y as [sy|sy| |[|] my ey]; try discriminate;
    cbn [SFadd SF2R nonnegFinite].
  - destruct sx, sy; cbn [SF2R nonnegFinite]; rewrite Rplus_0_l;
      (split; intros H;
       [right; split; [reflexivity|assumption]|split; [reflexivity|assumption]]).
  - rewrite Rplus_0_l. split; intros H;
      [right; split; [reflexivity|assumption]|split; [reflexivity|assumption]].
  - rewrite Rplus_0_r. split; intros H;
      [right; split; [reflexivity|assumption]|split; [reflexivity|assumption]].
  - cbn [cond_Zopp]. rewrite <- Pos2Z.inj_add. cbn [binary_normalize].
    pose proof (shl_align_F2R mx ex (Z.min ex ey)) as Hx.
    pose proof (shl_align_F2R my ey (Z.min ex ey)) as Hy.
    destruct (shl_align_spec mx ex (Z.min ex ey)) as [s1 [_ [Es1 [_ [He1 _]]]]].
    destruct (shl_align_spec my ey (Z.min ex ey)) as [s2 [_ [Es2 [_ [He2 _]]]]].
    replace (snd (shl_align mx ex (Z.min ex ey))) with (Z.min ex ey) in Hx by lia.
    replace (snd (shl_align my ey (Z.min ex ey))) with (Z.min ex ey) in Hy by lia.
    rewrite <- Hx, <- Hy, <- F2R_add, <- Pos2Z.inj_add.
    now apply round_between.
Qed.

(** The error of a product and of a sum below [2^K]. *)
Lemma SFmul_error (x y : spec_float) (K : Z) :
  goodSF x -> goodSF y ->
  (SF2R x * SF2R y < powerRZ 2 K)%R ->
  -1021 <= K <= 1023 ->
  nonnegFinite (SFmul prec emax x y) = true
  /\ (- powerRZ 2 (K - 53)
      <= SF2R (SFmul prec emax x y) - SF2R x * SF2R y
      <= powerRZ 2 (K - 53))%R.
Proof.
  intros [Vx Fx] [Vy Fy] Hlt HK.
  pose proof (powerRZ_2_pos (K - 53)) as Hpos.
  destruct x as [sx|sx| |[|] mx ex]; try discriminate;
    destruct y as [sy|sy| |[|] my ey]; try discriminate;
    cbn [SFmul SF2R nonnegFinite xorb] in *;
    try (rewrite ?Rmult_0_l, ?Rmult_0_r; split; [reflexivity|lra]).
  rewrite <- F2R_mul, <- Pos2Z.inj_mul in *.
  apply round_aux_error; try assumption.
  now apply mul_aligned.
Qed.

Lemma SFadd_error (x y : spec_float) (K : Z) :
  goodSF x -> goodSF y ->
  (SF2R x + SF2R y < powerRZ 2 K)%R ->
  -1021 <= K <= 1023 ->
  nonnegFinite (SFadd prec emax x y) = true
  /\ (- powerRZ 2 (K - 53)
      <= SF2R (SFadd prec emax x y) - (SF2R x + SF2R y)
      <= powerRZ 2 (K - 53))%R.
Proof.
  intros [Vx Fx] [Vy Fy] Hlt HK.
  pose proof (powerRZ_2_pos (K - 53)) as Hpos.
  destruct x as [sx|sx| |[|] mx ex]; try discriminate;
    destruct y as [sy|sy| |[|] my ey]; try discriminate;
    cbn [SFadd SF2R nonnegFinite] in *.
  - destruct sx, sy; cbn [SF2R nonnegFinite]; split; try reflexivity; lra.
  - split; [reflexivity|]. lra.
  - split; [reflexivity|]. lra.
  - cbn [cond_Zopp]. rewrite <- Pos2Z.inj_add. cbn [binary_normalize].
    pose proof (shl_align_F2R mx ex (Z.min ex ey)) as Hx.
    pose proof (shl_align_F2R my ey (Z.min ex ey)) as Hy.
    destruct (shl_align_spec mx ex (Z.min ex ey)) as [s1 [_ [Es1 [_ [He1 _]]]]].
    destruct (shl_align_spec my ey (Z.min ex ey)) as [s2 [_ [Es2 [_ [He2 _]]]]].
    replace (snd (shl_align mx ex (Z.min ex ey))) with (Z.min ex ey) in Hx by lia.
    replace (snd (shl_align my ey (Z.min ex ey))) with (Z.min ex ey) in Hy by lia.
    rewrite <- Hx, <- Hy, <- F2R_add, <- Pos2Z.inj_add in *.
    now apply round_error.
Qed.

(** A difference that is not negative. *)
Lemma SFsub_between (x y F : spec_float) :
  goodSF x -> goodSF y -> goodSF F ->
  (SF2R y <= SF2R x)%R ->
  ((SF2R F <= SF2R x - SF2R y)%R ->
   SFsub prec emax x y = S754_infinity false
   \/ (nonnegFinite (SFsub prec emax x y) = true
       /\ (SF2R F <= SF2R (SFsub prec emax x y))%R))
  /\ ((SF2R x - SF2R y <= SF2R F)%R ->
      nonnegFinite (SFsub prec emax x y) = true
      /\ (SF2R (SFsub prec emax x y) <= SF2R F)%R).
Proof.
  intros [Vx Fx] [Vy Fy] [VF FF] Hle.
  pose proof (good_value_nonneg F (conj VF FF)) as HF0.
  destruct x as [sx|sx| |[|] mx ex]; try discriminate;
    destruct y as [sy|sy| |[|] my ey]; try discriminate;
    cbn [SFsub SF2R nonnegFinite] in *.
  - destruct sx, sy; cbn [SF2R nonnegFinite]; rewrite Rminus_0_r;
      (split; intros H;
       [right; split; [reflexivity|assumption]|split; [reflexivity|assumption]]).
  - exfalso. unfold F2R in Hle. pose proof (powerRZ_2_pos ey).
    assert (0 < IZR (Z.pos my))%R by (apply IZR_lt; lia). nra.
  - rewrite Rminus_0_r. split; intros H;
      [right; split; [reflexivity|assumption]|split; [reflexivity|assumption]].
  - cbn [cond_Zopp].
    pose proof (shl_align_F2R mx ex (Z.min ex ey)) as Hx.
    pose proof (shl_align_F2R my ey (Z.min ex ey)) as Hy.
    destruct (shl_align_spec mx ex (Z.min ex ey)) as [s1 [_ [Es1 [_ [He1 _]]]]].
    destruct (shl_align_spec my ey (Z.min ex ey)) as [s2 [_ [Es2 [_ [He2 _]]]]].
    replace (snd (shl_align mx ex (Z.min ex ey))) with (Z.min ex ey) in Hx by lia.
    replace (snd (shl_align my ey (Z.min ex ey))) with (Z.min ex ey) in Hy by lia.
    rewrite <- Hx, <- Hy, <- F2R_sub in *.
    set (a := fst (shl_align mx ex (Z.min ex ey))) in *.
    set (b := fst (shl_align my ey (Z.min ex ey))) in *.
    assert (Hab : Z.pos b <= Z.pos a).
    { unfold F2R in Hle. pose proof (powerRZ_2_pos (Z.min ex ey)).
      apply le_IZR. nra. }
    destruct (Z.pos a - Z.pos b) as [|p|p] eqn:E; try lia.
    + cbn [binary_normalize SF2R nonnegFinite]. unfold F2R.
      rewrite Rmult_0_l. split; intros H;
        [right; split; [reflexivity|assumption]|split; [reflexivity|assumption]].
    + cbn [binary_normalize]. now apply round_between.
Qed.

(** Comparison is that of the values. *)
Lemma SFcompare_spec (x y : spec_float) :
  goodSF x -> goodSF y ->
  match SFcompare x y with
  | Some Lt => (SF2R x < SF2R y)%R
  | Some Eq => SF2R x = SF2R y
  | Some Gt => (SF2R y < SF2R x)%R
  | None => False
  end.
Proof.
  intros [Vx Fx] [Vy Fy].
  destruct x as [sx|sx| |[|] mx ex]; try discriminate;
    destruct y as [sy|sy| |[|] my ey]; try discriminate;
    cbn [SFcompare SF2R].
  - reflexivity.
  - unfold F2R. pose proof (powerRZ_2_pos ey).
    assert (0 < IZR (Z.pos my))%R by (apply IZR_lt; lia). nra.
  - unfold F2R. pose proof (powerRZ_2_pos ex).
    assert (0 < IZR (Z.pos mx))%R by (apply IZR_lt; lia). nra.
  - cbn [valid_binary] in Vx, Vy.
    destruct (bounded_spec mx ex Vx) as [[Exlo _] [Hx53 Hxn]].
    destruct (bounded_spec my ey Vy) as [[Eylo _] [Hy53 Hyn]].
    assert (Hcross : forall (m1 m2 : positive) (e1 e2 : Z),
              Z.pos m1 < 2 ^ 53 -> 2 ^ 52 <= Z.pos m2 -> e1 < e2 ->
              (F2R (Z.pos m1) e1 < F2R (Z.pos m2) e2)%R).
    { intros m1 m2 e1 e2 H1 H2 He. unfold F2R.
      assert (A1 : (IZR (Z.pos m1) < IZR (2 ^ 53))%R) by (apply IZR_lt; lia).
      assert (A2 : (IZR (2 ^ 52) <= IZR (Z.pos m2))%R) by (apply IZR_le; lia).
      rewrite IZR_pow2 in A1, A2 by lia.
      change 53 with (52 + 1) in A1. rewrite powerRZ_2_add, powerRZ_2_1 in A1.
      pose proof (powerRZ_2_le (e1 + 1) e2 ltac:(lia)) as A3.
      rewrite powerRZ_2_add, powerRZ_2_1 in A3.
      pose proof (powerRZ_2_pos e1). pose proof (powerRZ_2_pos 52).
      assert (0 < IZR (Z.pos m1))%R by (apply IZR_lt; lia). nra. }
    destruct (Z.compare_spec ex ey) as [He|He|He].
    + subst ey. change (Pos.compare_cont Eq mx my) with (Pos.compare mx my).
      unfold F2R. pose proof (powerRZ_2_pos ex).
      destruct (Pos.compare_spec mx my) as [Hm|Hm|Hm].
      * subst. reflexivity.
      * assert (IZR (Z.pos mx) < IZR (Z.pos my))%R by (apply IZR_lt; lia). nra.
      * assert (IZR (Z.pos my) < IZR (Z.pos mx))%R by (apply IZR_lt; lia). nra.
    + exact (Hcross mx my ex ey Hx53 (Hyn ltac:(lia)) He).
    + exact (Hcross my mx ey ex Hy53 (Hxn ltac:(lia)) He).
Qed.

Lemma SFltb_spec (x y : spec_float) :
  goodSF x -> goodSF y ->
  (SFltb x y = true <-> (SF2R x < SF2R y)%R).
Proof.
  intros Hx Hy. pose proof (SFcompare_spec x y Hx Hy) as H. unfold SFltb.
  destruct (SFcompare x y) as [[| |]|];
    split; intros; try discriminate; try reflexivity; try lra; tauto.
Qed.

Lemma SFleb_spec (x y : spec_float) :
  goodSF x -> goodSF y ->
  (SFleb x y = true <-> (SF2R x <= SF2R y)%R).
Proof.
  intros Hx Hy. pose proof (SFcompare_spec x y Hx Hy) as H. unfold SFleb.
  destruct (SFcompare x y) as [[| |]|];
    split; intros; try discriminate; try reflexivity; try lra; tauto.
Qed.

(** From the two bounds: a result that the format holds is exact. *)
Lemma between_exact (x F : spec_float) (v : R) :
  ((SF2R F <= v)%R ->
   x = S754_infinity false
   \/ (nonnegFinite x = true /\ (SF2R F <= SF2R x)%R))
  /\ ((v <= SF2R F)%R -> nonnegFinite x = true /\ (SF2R x <= SF2R F)%R) ->
  SF2R F = v ->
  nonnegFinite x = true /\ SF2R x = v.
Proof.
  intros [Hlo Hhi] E. destruct (Hhi ltac:(lra)) as [Hf Hu].
  split; [exact Hf|].
  destruct (Hlo ltac:(lra)) as [Hinf|[_ Hl]]; [|lra].
  rewrite Hinf in Hf. discriminate.
Qed.

(** *** The kernel's numbers *)

Lemma goodF_good (x : float) : goodF x -> goodSF (Prim2SF x).
Proof. intros H. split; [apply Prim2SF_valid|exact H]. Qed.

Lemma value_nonneg (x : float) : goodF x -> (0 <= value x)%R.
Proof. intros H. apply good_value_nonneg, goodF_good, H. Qed.

Lemma mul_between (x y : float) (F : spec_float) :
  goodF x -> goodF y -> goodSF F ->
  ((SF2R F <= value x * value y)%R ->
   plusInfinity (x * y) \/ (goodF (x * y) /\ (SF2R F <= value (x * y))%R))
  /\ ((value x * value y <= SF2R F)%R ->
      goodF (x * y) /\ (value (x * y) <= SF2R F)%R).
Proof.
  intros Hx Hy HF. unfold plusInfinity, goodF, value. rewrite mul_spec.
  apply SFmul_between; auto using goodF_good.
Qed.

Lemma add_between (x y : float) (F : spec_float) :
  goodF x -> goodF y -> goodSF F ->
  ((SF2R F <= value x + value y)%R ->
   plusInfinity (x + y) \/ (goodF (x + y) /\ (SF2R F <= value (x + y))%R))
  /\ ((value x + value y <= SF2R F)%R ->
      goodF (x + y) /\ (value (x + y) <= SF2R F)%R).
Proof.
  intros Hx Hy HF. unfold plusInfinity, goodF, value. rewrite add_spec.
  apply SFadd_between; auto using goodF_good.
Qed.

Lemma sub_between (x y : float) (F : spec_float) :
  goodF x -> goodF y -> goodSF F ->
  (value y <= value x)%R ->
  ((SF2R F <= value x - value y)%R ->
   plusInfinity (x - y) \/ (goodF (x - y) /\ (SF2R F <= value (x - y))%R))
  /\ ((value x - value y <= SF2R F)%R ->
      goodF (x - y) /\ (value (x - y) <= SF2R F)%R).
Proof.
  intros Hx Hy HF Hle. unfold plusInfinity, goodF, value. rewrite sub_spec.
  apply SFsub_between; auto using goodF_good.
Qed.

Lemma ltb_value (x y : float) :
  goodF x -> goodF y -> ((x <? y)%float = true <-> (value x < value y)%R).
Proof.
  intros Hx Hy. rewrite ltb_spec. apply SFltb_spec; auto using goodF_good.
Qed.

Lemma ltb_infinity (x y : float) :
  goodF x -> plusInfinity y -> (x <? y)%float = true.
Proof.
  unfold goodF, plusInfinity. intros Hx Hy. rewrite ltb_spec, Hy.
  destruct (Prim2SF x) as [s|s| |[|] m e]; try discriminate; reflexivity.
Qed.

(** A random factor in [0,1]. *)
Lemma unit_interval (r : float) :
  (0 <=? r)%float = true -> (r <=? 1)%float = true ->
  goodF r /\ (value r <= 1)%R.
Proof.
  rewrite !leb_spec. intros H0 H1.
  assert (E1 : Prim2SF 1 = S754_finite false 4503599627370496 (-52))
    by (vm_compute; reflexivity).
  assert (E0 : Prim2SF 0 = S754_zero false) by (vm_compute; reflexivity).
  rewrite E0 in H0. rewrite E1 in H1.
  assert (Hg : goodF r).
  { unfold goodF.
    destruct (Prim2SF r) as [s|[|]| |[|] m e]; try discriminate; reflexivity. }
  split; [exact Hg|].
  assert (G1 : goodSF (S754_finite false 4503599627370496 (-52)))
    by (split; reflexivity).
  apply (SFleb_spec _ _ (goodF_good r Hg) G1) in H1.
  unfold value. cbn [SF2R] in H1. unfold F2R in H1.
  replace (IZR 4503599627370496 * powerRZ 2 (-52))%R with 1%R in H1; [exact H1|].
  change 4503599627370496 with (2 ^ 52). rewrite IZR_pow2 by lia.
  rewrite <- powerRZ_2_add. reflexivity.
Qed.

(** A random factor in [0,1). *)
Lemma unit_interval_open (r : float) :
  (0 <=? r)%float = true -> (r <? 1)%float = true ->
  goodF r /\ (value r < 1)%R.
Proof.
  rewrite leb_spec, ltb_spec. intros H0 H1.
  assert (E1 : Prim2SF 1 = S754_finite false 4503599627370496 (-52))
    by (vm_compute; reflexivity).
  assert (E0 : Prim2SF 0 = S754_zero false) by (vm_compute; reflexivity).
  rewrite E0 in H0. rewrite E1 in H1.
  assert (Hg : goodF r).
  { unfold goodF.
    destruct (Prim2SF r) as [s|[|]| |[|] m e]; try discriminate; reflexivity. }
  split; [exact Hg|].
  assert (G1 : goodSF (S754_finite false 4503599627370496 (-52)))
    by (split; reflexivity).
  apply (SFltb_spec _ _ (goodF_good r Hg) G1) in H1.
  unfold value. cbn [SF2R] in H1. unfold F2R in H1.
  replace (IZR 4503599627370496 * powerRZ 2 (-52))%R with 1%R in H1; [exact H1|].
  change 4503599627370496 with (2 ^ 52). rewrite IZR_pow2 by lia.
  rewrite <- powerRZ_2_add. reflexivity.
Qed.

Lemma mul_error (x y : float) (K : Z) :
  goodF x -> goodF y ->
  (value x * value y < powerRZ 2 K)%R ->
  -1021 <= K <= 1023 ->
  goodF (x * y)
  /\ (- powerRZ 2 (K - 53) <= value (x * y) - value x * value y
      <= powerRZ 2 (K - 53))%R.
Proof.
  intros Hx Hy. unfold goodF, value. rewrite mul_spec.
  apply SFmul_error; auto using goodF_good.
Qed.

Lemma add_error (x y : float) (K : Z) :
  goodF x -> goodF y ->
  (value x + value y < powerRZ 2 K)%R ->
  -1021 <= K <= 1023 ->
  goodF (x + y)
  /\ (- powerRZ 2 (K - 53) <= value (x + y) - (value x + value y)
      <= powerRZ 2 (K - 53))%R.
Proof.
  intros Hx Hy. unfold goodF, value. rewrite add_spec.
  apply SFadd_error; auto using goodF_good.
Qed.

(** ** The backoff *)

Lemma decr_no_overflow (z : Z) :
  GoInt.min_int < z <= GoInt.max_int -> GoInt.decr z = z - 1.
Proof.
  unfold GoInt.decr, GoInt.wrap, GoInt.min_int, GoInt.max_int. intros H.
  rewrite Z.mod_small; lia.
Qed.

Lemma representable_Z (k e : Z) :
  0 <= k < 2 ^ 53 -> -1074 <= e <= 0 ->
  exists F, goodSF F /\ SF2R F = F2R k e.
Proof.
  intros Hk He. destruct k as [|p|p]; try lia.
  - exists (S754_zero false). split; [split; reflexivity|].
    unfold F2R. cbn. lra.
  - destruct (representable p e) as [F [Hv [Hf HF]]]; try lia.
    + pose proof (digits2_pos_bounds p) as [Dlo _].
      destruct (Z.le_gt_cases (Z.pos (digits2_pos p)) 53); [lia|].
      assert (2 ^ 53 <= 2 ^ (Z.pos (digits2_pos p) - 1))
        by (apply Z.pow_le_mono_r; lia). lia.
    + exists F. split; [split|]; assumption.
Qed.

Lemma F2R_0 (k : Z) : F2R k 0 = IZR k.
Proof. unfold F2R. cbn. lra. Qed.

Lemma F2R_quarter (k : Z) : F2R k (-2) = (IZR k / 4)%R.
Proof. unfold F2R. simpl. field. Qed.

(** [float64(n)] is exact on 53 bits. *)
Lemma of_int_value (z : Z) :
  0 <= z < 2 ^ 53 ->
  goodF (Float64.of_int z) /\ value (Float64.of_int z) = IZR z.
Proof.
  intros Hz. unfold goodF, value, Float64.of_int.
  assert (Hv : valid_binary (binary_normalize prec emax z 0 false) = true).
  { pose proof (of_uint63_spec (Uint63.of_Z z)) as H.
    rewrite Uint63.of_Z_spec, Z.mod_small in H.
    - rewrite <- H. apply Prim2SF_valid.
    - change Uint63.wB with (2 ^ 63). assert (2 ^ 53 <= 2 ^ 63) by (apply Z.pow_le_mono_r; lia). lia. }
  rewrite Prim2SF_SF2Prim by exact Hv.
  destruct z as [|p|p]; try lia.
  - cbn. split; [reflexivity|lra].
  - cbn [binary_normalize].
    destruct (representable_Z (Z.pos p) 0 Hz ltac:(lia)) as [F [[HFv HFf] HF]].
    rewrite <- F2R_0.
    apply (between_exact _ F); [|exact HF].
    now apply round_between.
Qed.

Lemma Prim2SF_one : Prim2SF one = S754_finite false 4503599627370496 (-52).
Proof. vm_compute. reflexivity. Qed.

Lemma pow2_round (n : Z) :
  Prim2SF (Float64.pow2 n) = binary_round prec emax false 4503599627370496 (-52 + n).
Proof.
  unfold Float64.pow2. rewrite Z_ldexp_spec, Prim2SF_one. reflexivity.
Qed.

Lemma F2R_pow2 (n : Z) : F2R (Z.pos 4503599627370496) (-52 + n) = powerRZ 2 n.
Proof.
  unfold F2R. change (Z.pos 4503599627370496) with (2 ^ 52).
  rewrite IZR_pow2, <- powerRZ_2_add by lia. f_equal. lia.
Qed.

(** [math.Pow(2, n)] is exact in the range. *)
Lemma pow2_value (n : Z) :
  0 <= n <= 1023 ->
  goodF (Float64.pow2 n) /\ value (Float64.pow2 n) = powerRZ 2 n.
Proof.
  intros Hn. unfold goodF, value. rewrite pow2_round, <- F2R_pow2.
  assert (Hd : Z.pos (digits2_pos 4503599627370496) = 53) by reflexivity.
  destruct (representable 4503599627370496 (-52 + n)) as [F [HFv [HFf HF]]];
    [reflexivity|lia|rewrite Hd; lia|].
  apply (between_exact _ F); [|exact HF].
  now apply round_between.
Qed.

(** From 2^1000 on it is that large at least, or infinite. *)
Lemma pow2_large (n : Z) :
  1000 <= n ->
  plusInfinity (Float64.pow2 n)
  \/ (goodF (Float64.pow2 n) /\ (powerRZ 2 1000 <= value (Float64.pow2 n))%R).
Proof.
  intros Hn. unfold plusInfinity, goodF, value. rewrite pow2_round.
  destruct (representable 1 1000) as [F [HFv [HFf HF]]];
    [reflexivity|lia|cbn; lia|].
  assert (HF' : SF2R F = powerRZ 2 1000) by (rewrite HF; unfold F2R; lra).
  rewrite <- HF'.
  apply (round_between 4503599627370496 (-52 + n) F HFv HFf).
  rewrite HF', F2R_pow2. now apply powerRZ_2_le.
Qed.

Lemma value_quarter : goodF 0.25 /\ value 0.25 = (/ 4)%R.
Proof.
  assert (E : Prim2SF 0.25 = S754_finite false 4503599627370496 (-54))
    by (vm_compute; reflexivity).
  unfold goodF, value. rewrite E. split; [reflexivity|].
  cbn [SF2R]. replace (-54) with (-52 + -2) by lia. rewrite F2R_pow2.
  simpl. field.
Qed.

Lemma value_two : goodF 2 /\ value 2 = 2%R.
Proof.
  assert (E : Prim2SF 2 = S754_finite false 4503599627370496 (-51))
    by (vm_compute; reflexivity).
  unfold goodF, value. rewrite E. split; [reflexivity|].
  cbn [SF2R]. replace (-51) with (-52 + 1) by lia. rewrite F2R_pow2.
  apply powerRZ_2_1.
Qed.

(** The integer part of a number that is not negative. *)
Lemma truncate_value (x : float) :
  goodF x ->
  exists d, Float64.truncate x = Some d
            /\ (IZR d <= value x < IZR d + 1)%R.
Proof.
  unfold goodF, value, Float64.truncate.
  destruct (Prim2SF x) as [s|s| |[|] m e]; try discriminate; intros _.
  - exists 0. split; [reflexivity|]. cbn. lra.
  - cbn [SF2R]. destruct (0 <=? e) eqn:He.
    + apply Z.leb_le in He. exists (Z.pos m * 2 ^ e). split; [reflexivity|].
      assert (E : F2R (Z.pos m) e = IZR (Z.pos m * 2 ^ e)).
      { rewrite <- F2R_0, F2R_shift by lia. f_equal. }
      rewrite E. generalize (IZR (Z.pos m * 2 ^ e)). intros v. lra.
    + apply Z.leb_gt in He. exists (Z.pos m / 2 ^ (- e)).
      split; [reflexivity|].
      assert (H2 : 0 < 2 ^ (- e)) by (apply Z.pow_pos_nonneg; lia).
      pose proof (Z.div_mod (Z.pos m) (2 ^ (- e)) ltac:(lia)) as Hdm.
      pose proof (Z.mod_pos_bound (Z.pos m) (2 ^ (- e)) H2) as Hb.
      set (q := Z.pos m / 2 ^ (- e)) in *.
      set (rm := Z.pos m mod 2 ^ (- e)) in *.
      unfold F2R. pose proof (powerRZ_2_pos e) as Hpe.
      assert (Hone : (IZR (2 ^ (- e)) * powerRZ 2 e = 1)%R).
      { rewrite IZR_pow2, <- powerRZ_2_add by lia.
        replace (- e + e) with 0 by lia. reflexivity. }
      assert (Hm : IZR (Z.pos m) = (IZR (2 ^ (- e)) * IZR q + IZR rm)%R).
      { rewrite <- mult_IZR, <- plus_IZR. f_equal. lia. }
      assert (Hr0 : (0 <= IZR rm)%R) by (apply IZR_le; lia).
      assert (Hr1 : (IZR rm < IZR (2 ^ (- e)))%R) by (apply IZR_lt; lia).
      rewrite Hm. set (k := IZR (2 ^ (- e))) in *.
      assert (H4 : (IZR rm * powerRZ 2 e < k * powerRZ 2 e)%R)
        by (apply Rmult_lt_compat_r; assumption).
      assert (H3 : (0 <= IZR rm * powerRZ 2 e)%R)
        by (apply Rmult_le_pos; lra).
      replace ((k * IZR q + IZR rm) * powerRZ 2 e)%R
        with (IZR q * (k * powerRZ 2 e) + IZR rm * powerRZ 2 e)%R by ring.
      rewrite Hone. lra.
Qed.

Lemma mul_infinity (x p : float) :
  goodF x -> (0 < value x)%R -> plusInfinity p -> plusInfinity (x * p).
Proof.
  unfold goodF, value, plusInfinity. intros Hx Hpos Hp.
  rewrite FloatAxioms.mul_spec, Hp.
  destruct (Prim2SF x) as [s|s| |[|] m e]; try discriminate.
  - cbn in Hpos. lra.
  - reflexivity.
Qed.

Lemma good_not_infinity (x : float) : goodF x -> plusInfinity x -> False.
Proof. unfold goodF, plusInfinity. intros H E. rewrite E in H. discriminate. Qed.

(** The capped backoff is the base, exactly. *)
Lemma capped_backoff_value (c : Client) (i : Z) :
  0 <= RetryWaitMin c <= 2 ^ 50 ->
  0 <= RetryWaitMax c <= 2 ^ 50 ->
  1 <= i ->
  0 < RetryWaitMin c \/ i <= 1024 ->
  goodF (if (Float64.of_int (RetryWaitMax c)
             <? Float64.of_int (RetryWaitMin c) * Float64.pow2 (i - 1))%float
         then Float64.of_int (RetryWaitMax c)
         else (Float64.of_int (RetryWaitMin c) * Float64.pow2 (i - 1))%float)
  /\ value (if (Float64.of_int (RetryWaitMax c)
                <? Float64.of_int (RetryWaitMin c) * Float64.pow2 (i - 1))%float
            then Float64.of_int (RetryWaitMax c)
            else (Float64.of_int (RetryWaitMin c) * Float64.pow2 (i - 1))%float)
     = IZR (backoffBase c i).
Proof.
  intros HA HM Hi Hnan. unfold backoffBase.
  set (A := RetryWaitMin c) in *. set (M := RetryWaitMax c) in *.
  set (n := i - 1). assert (Hn : 0 <= n) by (unfold n; lia).
  assert (H53 : 2 ^ 50 < 2 ^ 53) by reflexivity.
  destruct (of_int_value A ltac:(lia)) as [Gfa Vfa].
  destruct (of_int_value M ltac:(lia)) as [Gfm Vfm].
  set (fa := Float64.of_int A) in *. set (fm := Float64.of_int M) in *.
  set (p := Float64.pow2 n).
  assert (H2n : 0 < 2 ^ n) by (apply Z.pow_pos_nonneg; lia).
  destruct (Z.le_gt_cases (A * 2 ^ n) M) as [Hle|Hgt].
  - (* the backoff is below the cap: the product is exact *)
    assert (Hn1023 : n <= 1023).
    { destruct (Z.eq_dec A 0) as [HA0|HA0]; [unfold n; lia|].
      destruct (Z.le_gt_cases n 50); [lia|].
      assert (2 ^ 51 <= 2 ^ n) by (apply Z.pow_le_mono_r; lia).
      assert (2 ^ 50 < 2 ^ 51) by reflexivity. nia. }
    destruct (pow2_value n ltac:(lia)) as [Gp Vp]. fold p in Gp, Vp.
    assert (HV : 0 <= A * 2 ^ n < 2 ^ 53) by nia.
    destruct (representable_Z (A * 2 ^ n) 0 HV ltac:(lia)) as [F [GF VF]].
    rewrite F2R_0 in VF.
    assert (Hprod : (value fa * value p)%R = IZR (A * 2 ^ n)).
    { rewrite Vfa, Vp, mult_IZR, IZR_pow2 by lia. reflexivity. }
    destruct (between_exact (Prim2SF (fa * p)) F (IZR (A * 2 ^ n))) as [Gb Vb].
    { rewrite <- Hprod. apply (mul_between fa p F Gfa Gp GF). }
    { exact VF. }
    fold (goodF (fa * p)) in Gb. fold (value (fa * p)) in Vb.
    destruct (fm <? fa * p)%float eqn:Elt.
    + apply (ltb_value fm (fa * p) Gfm Gb) in Elt. rewrite Vfm, Vb in Elt.
      apply lt_IZR in Elt. lia.
    + rewrite Z.min_l by lia. split; assumption.
  - (* the backoff is above the cap *)
    assert (HA0 : 0 < A) by nia.
    assert (Hp : plusInfinity p
                 \/ (goodF p /\ (IZR (M + 1) <= IZR A * value p)%R)).
    { destruct (Z.le_gt_cases n 1023) as [Hs|Hl].
      - destruct (pow2_value n ltac:(lia)) as [Gp Vp]. fold p in Gp, Vp.
        right. split; [exact Gp|]. rewrite Vp, <- IZR_pow2, <- mult_IZR by lia.
        apply IZR_le. lia.
      - destruct (pow2_large n ltac:(lia)) as [Hinf|[Gp Vp]]; [left; exact Hinf|].
        fold p in Gp, Vp. right. split; [exact Gp|].
        assert (H1 : (IZR (M + 1) <= IZR (2 ^ 1000))%R).
        { apply IZR_le.
          assert (2 ^ 50 < 2 ^ 1000) by (apply Z.pow_lt_mono_r; lia). lia. }
        rewrite IZR_pow2 in H1 by lia.
        assert (H2 : (1 <= IZR A)%R) by (apply IZR_le; lia).
        pose proof (powerRZ_2_pos 1000). nra. }
    assert (Hlt : (fm <? fa * p)%float = true).
    { destruct Hp as [Hinf|[Gp Vp]].
      - apply ltb_infinity; [exact Gfm|].
        apply mul_infinity; [exact Gfa| |exact Hinf].
        rewrite Vfa. apply IZR_lt. lia.
      - destruct (representable_Z (M + 1) 0 ltac:(lia) ltac:(lia))
          as [F [GF VF]].
        rewrite F2R_0 in VF.
        destruct (mul_between fa p F Gfa Gp GF) as [Hlo _].
        destruct Hlo as [Hinf|[Gb Vb]].
        + rewrite VF, Vfa. exact Vp.
        + apply ltb_infinity; assumption.
        + apply (ltb_value fm (fa * p) Gfm Gb). rewrite Vfm.
          rewrite VF in Vb. rewrite plus_IZR in Vb. lra. }
    rewrite Hlt, Z.min_r by lia. split; assumption.
Qed.

(** C5, as the code has it: for a retry [i >= 1] and a random factor [r]
    in [0,1), [calculateBackoff] evaluates
    [base - 0.25 base + r * 0.25 base * 2] in float64 and converts it to
    whole nanoseconds, [base] being
    [min(RetryWaitMin * 2^(i-1), RetryWaitMax)].  With [RetryWaitMin] and
    [RetryWaitMax] between 0 and 2^50 ns (some 13 days), and
    [RetryWaitMin > 0] or [i <= 1024] (or the product is a NaN), the wait
    [d] is [base * (0.75 + 0.5 r)] up to the roundings of float64, which
    move it by [base / 2^50] at most, and the truncation to whole
    nanoseconds, which takes less than one off; hence it is between the
    integer parts of [0.75 base] and of [1.25 base], and within
    [0.75 base, 1.25 base] when the base is a multiple of four
    nanoseconds. *)
Theorem backoff_within_truncated_jitter (c : Client) (i : Z) (r : float) :
  0 <= RetryWaitMin c <= 2 ^ 50 ->
  0 <= RetryWaitMax c <= 2 ^ 50 ->
  1 <= i <= GoInt.max_int ->
  0 < RetryWaitMin c \/ i <= 1024 ->
  (0 <=? r)%float = true -> (r <? 1)%float = true ->
  exists d,
    calculateBackoff c i r = Some d
    /\ (jitteredBase c i r - roundingError c i - 1 < IZR d
        <= jitteredBase c i r + roundingError c i)%R
    /\ 3 * backoffBase c i / 4 <= d <= 5 * backoffBase c i / 4
    /\ (backoffBase c i mod 4 = 0 -> withinJitter c i d).
Proof.
  intros HA HM Hi Hnan Hr0 Hr1.
  destruct (unit_interval_open r Hr0 Hr1) as [Gr Vr1].
  assert (Vr : (value r <= 1)%R) by lra.
  pose proof (value_nonneg r Gr) as Vr0.
  unfold calculateBackoff, jitteredBase, roundingError.
  rewrite decr_no_overflow by (unfold GoInt.min_int; lia).
  cbv zeta.
  destruct (capped_backoff_value c i HA HM ltac:(lia) Hnan) as [Gb Vb].
  set (b := if (Float64.of_int (RetryWaitMax c)
                <? Float64.of_int (RetryWaitMin c) * Float64.pow2 (i - 1))%float
            then Float64.of_int (RetryWaitMax c)
            else (Float64.of_int (RetryWaitMin c) * Float64.pow2 (i - 1))%float)
    in *.
  assert (HB : 0 <= backoffBase c i <= 2 ^ 50).
  { unfold backoffBase.
    assert (0 < 2 ^ (i - 1)) by (apply Z.pow_pos_nonneg; lia). nia. }
  set (B := backoffBase c i) in *.
  assert (H53 : 2 ^ 50 * 5 < 2 ^ 53) by reflexivity.
  destruct value_quarter as [Gq Vq]. destruct value_two as [G2 V2].
  (* jitter := backoff * 0.25 *)
  destruct (representable_Z B (-2) ltac:(lia) ltac:(lia)) as [Fj [GFj VFj]].
  rewrite F2R_quarter in VFj.
  destruct (between_exact (Prim2SF (b * 0.25)) Fj (IZR B / 4)) as [Gj Vj].
  { replace (IZR B / 4)%R with (value b * value 0.25)%R by (rewrite Vb, Vq; lra).
    apply (mul_between b 0.25 Fj Gb Gq GFj). }
  { exact VFj. }
  fold (goodF (b * 0.25)) in Gj. fold (value (b * 0.25)) in Vj.
  set (jitter := (b * 0.25)%float) in *.
  assert (HB0 : (0 <= IZR B)%R) by (apply IZR_le; lia).
  (* backoff - jitter *)
  destruct (representable_Z (3 * B) (-2) ltac:(lia) ltac:(lia)) as [F1 [GF1 VF1]].
  rewrite F2R_quarter, mult_IZR in VF1.
  destruct (between_exact (Prim2SF (b - jitter)) F1 (3 * IZR B / 4)) as [G1 V1].
  { replace (3 * IZR B / 4)%R with (value b - value jitter)%R
      by (rewrite Vb, Vj; lra).
    apply (sub_between b jitter F1 Gb Gj GF1). rewrite Vb, Vj. lra. }
  { rewrite VF1. lra. }
  fold (goodF (b - jitter)) in G1. fold (value (b - jitter)) in V1.
  (* randomFactor * jitter *)
  destruct (mul_between r jitter (Prim2SF jitter) Gr Gj (goodF_good _ Gj))
    as [_ H2].
  destruct H2 as [Gt2 Vt2]. { fold (value jitter). rewrite Vj. nra. }
  fold (value jitter) in Vt2. rewrite Vj in Vt2.
  pose proof (value_nonneg _ Gt2) as Vt20.
  (* ... * 2 *)
  destruct (representable_Z (2 * B) (-2) ltac:(lia) ltac:(lia)) as [F3 [GF3 VF3]].
  rewrite F2R_quarter, mult_IZR in VF3.
  destruct (mul_between (r * jitter) 2 F3 Gt2 G2 GF3) as [_ H3].
  destruct H3 as [Gt3 Vt3]. { rewrite V2, VF3. lra. }
  rewrite VF3 in Vt3.
  pose proof (value_nonneg _ Gt3) as Vt30.
  (* the sum *)
  destruct (representable_Z (5 * B) (-2) ltac:(lia) ltac:(lia)) as [F4 [GF4 VF4]].
  rewrite F2R_quarter, mult_IZR in VF4.
  destruct (add_between (b - jitter) (r * jitter * 2) F4 G1 Gt3 GF4) as [_ H4].
  destruct H4 as [G4 V4]. { rewrite V1, VF4. lra. }
  rewrite VF4 in V4.
  destruct (add_between (b - jitter) (r * jitter * 2) (Prim2SF (b - jitter))
              G1 Gt3 (goodF_good _ G1)) as [H4lo _].
  destruct H4lo as [Hinf|[_ V4lo]].
  { fold (value (b - jitter)). lra. }
  { exfalso. exact (good_not_infinity _ G4 Hinf). }
  fold (value (b - jitter)) in V4lo. rewrite V1 in V4lo.
  (* the roundings *)
  assert (Herr : (- (IZR B / IZR (2 ^ 50))
                  <= value (b - jitter + r * jitter * 2)
                     - IZR B * (3 / 4 + value r / 2)
                  <= IZR B / IZR (2 ^ 50))%R).
  { change (2 ^ 50) with 1125899906842624.
    destruct (Z.eq_dec B 0) as [HBz|HBz].
    { rewrite HBz in *. lra. }
    destruct (Z.log2_spec B ltac:(lia)) as [Llo Lhi].
    assert (HL : 0 <= Z.log2 B <= 50).
    { split; [apply Z.log2_nonneg|].
      change 50 with (Z.log2 (2 ^ 50)). apply Z.log2_le_mono. lia. }
    set (K := Z.succ (Z.log2 B)) in *.
    assert (HK : 1 <= K <= 51) by (unfold K; lia).
    assert (KB : (IZR B < powerRZ 2 K)%R).
    { rewrite <- IZR_pow2 by lia. apply IZR_lt. exact Lhi. }
    assert (BK : (powerRZ 2 K <= 2 * IZR B)%R).
    { unfold K. rewrite <- Z.add_1_r, powerRZ_2_add, powerRZ_2_1.
      rewrite <- IZR_pow2 by lia. apply IZR_le in Llo. lra. }
    set (P := powerRZ 2 (K - 55)) in *.
    assert (P1 : powerRZ 2 (K - 2 - 53) = P) by (unfold P; f_equal; lia).
    assert (P2 : powerRZ 2 (K - 1 - 53) = (2 * P)%R).
    { unfold P. replace (K - 1 - 53) with (K - 55 + 1) by lia.
      rewrite powerRZ_2_add, powerRZ_2_1. ring. }
    assert (P3 : powerRZ 2 (K + 1 - 53) = (8 * P)%R).
    { unfold P. replace (K + 1 - 53) with (K - 55 + 3) by lia.
      rewrite powerRZ_2_add. simpl. ring. }
    assert (PK : powerRZ 2 K = (36028797018963968 * P)%R).
    { unfold P. replace K with (K - 55 + 55) at 1 by lia.
      rewrite powerRZ_2_add, <- (IZR_pow2 55) by lia.
      change (2 ^ 55) with 36028797018963968. ring. }
    assert (Q1 : powerRZ 2 (K - 2) = (powerRZ 2 K / 4)%R).
    { replace K with (K - 2 + 2) at 2 by lia. rewrite powerRZ_2_add.
      simpl. field. }
    assert (Q2 : powerRZ 2 (K - 1) = (powerRZ 2 K / 2)%R).
    { replace K with (K - 1 + 1) at 2 by lia.
      rewrite powerRZ_2_add, powerRZ_2_1. field. }
    assert (Q3 : powerRZ 2 (K + 1) = (powerRZ 2 K * 2)%R)
      by (rewrite powerRZ_2_add, powerRZ_2_1; reflexivity).
    destruct (mul_error r jitter (K - 2) Gr Gj) as [_ E2]; [|lia|].
    { rewrite Vj, Q1. nra. }
    rewrite Vj, P1 in E2.
    destruct (mul_error (r * jitter) 2 (K - 1) Gt2 G2) as [_ E3]; [|lia|].
    { rewrite V2, Q2. lra. }
    rewrite V2, P2 in E3.
    destruct (add_error (b - jitter) (r * jitter * 2) (K + 1) G1 Gt3)
      as [_ E4]; [|lia|].
    { rewrite V1, Q3. lra. }
    rewrite V1, P3 in E4.
    lra. }
  (* the conversion *)
  destruct (truncate_value _ G4) as [d [Ed [Dlo Dhi]]].
  exists d.
  assert (Hd : 3 * B < 4 * d + 4 /\ 4 * d <= 5 * B).
  { split.
    - apply lt_IZR. rewrite plus_IZR, !mult_IZR. lra.
    - apply le_IZR. rewrite !mult_IZR. lra. }
  split.
  - unfold Float64.to_int64. rewrite Ed.
    unfold GoInt.in_range, GoInt.min_int, GoInt.max_int.
    assert (2 ^ 50 * 5 < 2 ^ 63 - 1) by reflexivity.
    replace (- 2 ^ 63 <=? d) with true by (symmetry; apply Z.leb_le; lia).
    replace (d <=? 2 ^ 63 - 1) with true by (symmetry; apply Z.leb_le; lia).
    reflexivity.
  - split; [lra|]. split; [split|].
    + apply Z.lt_succ_r. apply Z.div_lt_upper_bound; lia.
    + apply Z.div_le_lower_bound; lia.
    + intros H4. unfold withinJitter. fold B.
      pose proof (Z.div_mod B 4 ltac:(lia)) as HB4. fold B in H4. lia.
Qed.

(** ** The random factor *)

(** *** Conversions of integers *)

(** What the rounding gives is a number of the format. *)
Lemma round_aux_valid (m : positive) (e : Z) :
  e <= roundExp m e ->
  valid_binary (binary_round_aux prec emax false (Z.pos m) e loc_Exact) = true.
Proof.
  intros Hn. unfold binary_round_aux.
  destruct (shr_fexp_spec (Z.pos m) e) as [mrs [E1 [Em El]]]; [lia|].
  cbn [Zdigits2] in *. fold (roundExp m e) in *.
  rewrite Z.max_l in * by lia. rewrite E1.
  replace (e + (roundExp m e - e)) with (roundExp m e) in * by lia.
  fold (roundDown m e) in Em.
  pose proof (roundDown_lt m e Hn) as Hq.
  pose proof (roundDown_normal m e Hn) as Hnorm.
  set (t := roundExp m e) in *.
  assert (Ht : -1074 <= t) by (unfold t, roundExp; rewrite fexp64_eq; lia).
  destruct (round_nearest_even_spec (shr_m mrs) (loc_of_shr_record mrs)) as [Hr He].
  set (q' := round_nearest_even (shr_m mrs) (loc_of_shr_record mrs)) in *.
  rewrite Em in Hr, He.
  destruct (shr_fexp_spec q' t) as [mrs2 [E2 [Em2 _]]]; [lia|].
  rewrite E2.
  destruct (Z.eq_dec q' 0) as [Hz|Hz].
  - rewrite Hz in *. cbn [Zdigits2] in Em2.
    rewrite Z.div_0_l in Em2 by (apply Z.pow_nonzero; lia).
    rewrite Em2. reflexivity.
  - assert (Hq' : 0 < q' <= 2 ^ 53) by lia.
    destruct q' as [|p|p] eqn:Eq'; try lia.
    cbn [Zdigits2] in *.
    pose proof (digits2_pos_bounds p) as [Dlo Dhi].
    set (d := Z.pos (digits2_pos p)) in *.
    assert (Hd : d <= 54).
    { destruct (Z.le_gt_cases d 54); [assumption|].
      assert (2 ^ 54 <= 2 ^ (d - 1)) by (apply Z.pow_le_mono_r; lia). lia. }
    rewrite fexp64_eq in *.
    destruct (Z.eq_dec d 54) as [H54|H54].
    + assert (Hp : Z.pos p = 2 ^ 53).
      { rewrite H54 in Dlo. change (2 ^ (54 - 1)) with (2 ^ 53) in Dlo. lia. }
      replace (Z.max (Z.max (d + t - 53) (-1074) - t) 0) with 1 in * by lia.
      rewrite Hp in Em2. change (2 ^ 53 / 2 ^ 1) with (Z.pos (2 ^ 52)%positive) in Em2.
      rewrite Em2.
      destruct (t + 1 <=? emax - prec) eqn:Eo; [|reflexivity].
      cbn [valid_binary]. unfold bounded, canonical_mantissa. rewrite Eo.
      change (Z.pos (digits2_pos (2 ^ 52))) with 53. rewrite fexp64_eq.
      rewrite andb_true_r. apply Z.eqb_eq. lia.
    + replace (Z.max (Z.max (d + t - 53) (-1074) - t) 0) with 0 in * by lia.
      rewrite Z.add_0_r, Z.div_1_r in *. rewrite Em2.
      destruct (t <=? emax - prec) eqn:Eo; [|reflexivity].
      cbn [valid_binary]. unfold bounded, canonical_mantissa. rewrite Eo.
      fold d. rewrite fexp64_eq, andb_true_r. apply Z.eqb_eq.
      destruct (Z.eq_dec t (-1074)) as [Et|Et]; [lia|].
      assert (H52 : 2 ^ 52 <= Z.pos p) by (specialize (Hnorm ltac:(lia)); lia).
      pose proof (digits2_pos_ge p 52 H52). fold d in H. lia.
Qed.

Lemma round_valid (m : positive) (e : Z) :
  valid_binary (binary_round prec emax false m e) = true.
Proof.
  unfold binary_round.
  destruct (shl_align_spec m e (fexp prec emax (Z.pos (digits2_pos m) + e)))
    as [s [Hs [Es [Hm [He Hd]]]]].
  destruct (shl_align m e (fexp prec emax (Z.pos (digits2_pos m) + e))) as [mz ez].
  cbn [fst snd] in *.
  apply round_aux_valid.
  unfold roundExp. rewrite Hd, He.
  replace (Z.pos (digits2_pos m) + s + (e - s)) with (Z.pos (digits2_pos m) + e)
    by lia.
  lia.
Qed.

(** [float64(n)] of an integer that is not negative. *)
Lemma of_int_spec (z : Z) :
  0 <= z -> Prim2SF (Float64.of_int z) = binary_normalize prec emax z 0 false.
Proof.
  intros Hz. unfold Float64.of_int. apply Prim2SF_SF2Prim.
  destruct z as [|p|p]; try lia; [reflexivity|]. apply round_valid.
Qed.

Lemma representable_scaled (j k : Z) :
  0 <= j < 2 ^ 53 -> 0 <= k <= 900 ->
  exists F, valid_binary F = true /\ nonnegFinite F = true
            /\ SF2R F = IZR (j * 2 ^ k).
Proof.
  intros Hj Hk. destruct j as [|j|j]; try lia.
  - exists (S754_zero false). repeat split.
  - destruct (representable j k) as [F HF]; try lia.
    + pose proof (digits2_pos_bounds j) as [Dlo _].
      destruct (Z.le_gt_cases (Z.pos (digits2_pos j)) 53); [lia|].
      assert (2 ^ 53 <= 2 ^ (Z.pos (digits2_pos j) - 1))
        by (apply Z.pow_le_mono_r; lia). lia.
    + exists F. destruct HF as [H1 [H2 H3]]. repeat split; try assumption.
      rewrite H3, <- F2R_0, F2R_shift by lia. reflexivity.
Qed.

(** [float64] is monotone: an integer that is at most (at least) a
    binary64 number is converted to at most (at least) that number. *)
Lemma of_int_le (z hi k : Z) :
  0 <= hi < 2 ^ 53 -> 0 <= k <= 900 -> 0 <= z <= hi * 2 ^ k ->
  goodF (Float64.of_int z)
  /\ (value (Float64.of_int z) <= IZR (hi * 2 ^ k))%R.
Proof.
  intros Hhi Hk Hz. unfold goodF, value. rewrite of_int_spec by lia.
  destruct z as [|p|p]; try lia.
  - cbn. split; [reflexivity|]. apply IZR_le. lia.
  - cbn [binary_normalize].
    destruct (representable_scaled hi k Hhi Hk) as [Fh [Vh [Nh Eh]]].
    destruct (round_between p 0 Fh Vh Nh) as [_ Hup].
    rewrite <- Eh. apply Hup. rewrite Eh, F2R_0. apply IZR_le. lia.
Qed.

Lemma of_int_ge (z lo k : Z) :
  0 <= lo < 2 ^ 53 -> 0 <= k <= 900 -> lo * 2 ^ k <= z ->
  goodF (Float64.of_int z) ->
  (IZR (lo * 2 ^ k) <= value (Float64.of_int z))%R.
Proof.
  intros Hlo Hk Hz. assert (0 < 2 ^ k) by (apply Z.pow_pos_nonneg; lia).
  unfold goodF, value. rewrite of_int_spec by nia.
  destruct z as [|p|p]; try nia.
  - cbn. intros _. apply IZR_le. lia.
  - cbn [binary_normalize]. intros Hf.
    destruct (representable_scaled lo k Hlo Hk) as [Fl [Vl [Nl El]]].
    destruct (round_between p 0 Fl Vl Nl) as [Hdn _].
    destruct Hdn as [Hinf|[_ Hge]].
    + rewrite El, F2R_0. apply IZR_le. lia.
    + rewrite Hinf in Hf. discriminate.
    + rewrite <- El. exact Hge.
Qed.

(** *** Division by 2^64 *)

Lemma digits2_pos_53 (M : positive) :
  2 ^ 52 <= Z.pos M < 2 ^ 53 -> Z.pos (digits2_pos M) = 53.
Proof.
  intros [Hlo Hhi]. pose proof (digits2_pos_ge M 52 Hlo).
  pose proof (digits2_pos_bounds M) as [Dlo _].
  destruct (Z.le_gt_cases (Z.pos (digits2_pos M)) 53); [lia|].
  assert (2 ^ 53 <= 2 ^ (Z.pos (digits2_pos M) - 1))
    by (apply Z.pow_le_mono_r; lia). lia.
Qed.

(** Dividing a normal number by 2^64 only lowers its exponent. *)
Lemma SFdiv_pow2_64 (M : positive) (E : Z) :
  2 ^ 52 <= Z.pos M < 2 ^ 53 -> -1009 <= E <= 971 ->
  nonnegFinite (SFdiv prec emax (S754_finite false M E)
                  (S754_finite false 4503599627370496 12)) = true
  /\ SF2R (SFdiv prec emax (S754_finite false M E)
             (S754_finite false 4503599627370496 12))
     = F2R (Z.pos M) (E - 64).
Proof.
  intros HM HE. cbn [SFdiv]. unfold SFdiv_core_binary.
  cbn [Zdigits2]. rewrite (digits2_pos_53 M HM).
  change (Z.pos (digits2_pos 4503599627370496)) with 53.
  rewrite fexp64_eq.
  replace (Z.min (Z.max (53 + E - (53 + 12) - 53) (-1074)) (E - 12))
    with (E - 65) by lia.
  replace (E - 12 - (E - 65)) with 53 by lia.
  assert (Hdiv : Z.div_eucl (Z.shiftl (Z.pos M) 53) (Z.pos 4503599627370496)
                 = (Z.pos M~0, 0)).
  { rewrite Z.shiftl_mul_pow2 by lia.
    pose proof (Z.div_eucl_eq (Z.pos M * 2 ^ 53) (Z.pos 4503599627370496)
                  ltac:(lia)) as Heq.
    pose proof (Z.mod_pos_bound (Z.pos M * 2 ^ 53) (Z.pos 4503599627370496)
                  ltac:(lia)) as Hb.
    unfold Z.modulo in Hb.
    destruct (Z.div_eucl (Z.pos M * 2 ^ 53) (Z.pos 4503599627370496))
      as [q r].
    change (2 ^ 53) with (Z.pos 4503599627370496 * 2) in Heq.
    assert (q = Z.pos M * 2) by nia. f_equal; lia. }
  change IntDef.Z.div_eucl with Z.div_eucl.
  change IntDef.Z.shiftl with Z.shiftl.
  rewrite Hdiv. cbn [xorb].
  change (new_location 4503599627370496 0) with loc_Exact.
  destruct (representable M (E - 64)) as [F [HFv [HFf HF]]];
    [lia|lia|rewrite (digits2_pos_53 M HM); lia|].
  assert (EF : F2R (Z.pos M~0) (E - 65) = F2R (Z.pos M) (E - 64)).
  { change (Z.pos M~0) with (2 * Z.pos M).
    replace (2 * Z.pos M) with (Z.pos M * 2 ^ 1) by lia.
    rewrite F2R_shift by lia. f_equal. lia. }
  rewrite <- EF.
  apply (between_exact _ F); [|rewrite HF, EF; reflexivity].
  apply round_aux_between; try assumption.
  unfold roundExp. cbn [digits2_pos]. rewrite Pos2Z.inj_succ.
  rewrite (digits2_pos_53 M HM), fexp64_eq. lia.
Qed.

Lemma Prim2SF_pow2_64 :
  Prim2SF (Float64.pow2 64) = S754_finite false 4503599627370496 12.
Proof. vm_compute. reflexivity. Qed.

(** [x / float64(1<<64)] for a finite [x >= 1]. *)
Lemma div_pow2_64_value (x : float) :
  goodF x -> (1 <= value x)%R ->
  goodF (x / Float64.pow2 64)
  /\ value (x / Float64.pow2 64) = (value x / powerRZ 2 64)%R.
Proof.
  intros Hg Hv. unfold goodF, value in *.
  rewrite div_spec, Prim2SF_pow2_64.
  pose proof (Prim2SF_valid x) as Hval.
  destruct (Prim2SF x) as [s|s| |[|] M E]; try discriminate.
  - cbn in Hv. lra.
  - cbn [valid_binary] in Hval. cbn [SF2R] in Hv.
    destruct (bounded_spec M E Hval) as [[Elo Ehi] [H53 Hnorm]].
    assert (HE : -53 < E).
    { destruct (Z.le_gt_cases E (-53)) as [HE|HE]; [|lia]. exfalso.
      unfold F2R in Hv.
      assert (A1 : (IZR (Z.pos M) < IZR (2 ^ 53))%R) by (apply IZR_lt; lia).
      rewrite IZR_pow2 in A1 by lia.
      pose proof (powerRZ_2_le E (-53) HE) as A2.
      pose proof (powerRZ_2_pos E) as A3.
      assert (A4 : (powerRZ 2 53 * powerRZ 2 (-53) = 1)%R).
      { rewrite <- powerRZ_2_add. reflexivity. }
      pose proof (powerRZ_2_pos 53). nra. }
    destruct (SFdiv_pow2_64 M E) as [Hf Hr]; [lia|lia|].
    unfold SF64div. split; [exact Hf|]. rewrite Hr. cbn [SF2R]. unfold F2R.
    replace (E - 64) with (E + - 64) by lia. rewrite powerRZ_2_add.
    assert (A : (powerRZ 2 (-64) * powerRZ 2 64 = 1)%R).
    { rewrite <- powerRZ_2_add. reflexivity. }
    pose proof (powerRZ_2_pos 64). field_simplify_eq; [|lra].
    rewrite Rmult_assoc, A. ring.
Qed.

(** *** The factor *)

(** Eight bytes spell a number below 2^64. *)
Lemma bigEndianUint64_bound (b : bytes) :
  0 <= bigEndianUint64 b < 256 ^ Z.of_nat (List.length b).
Proof.
  unfold bigEndianUint64.
  assert (H : forall (l : bytes) (acc k : Z), 0 <= k -> 0 <= acc < 256 ^ k ->
            0 <= fold_left (fun acc x => acc * 256 + Z.of_N (Byte.to_N x)) l acc
              < 256 ^ (k + Z.of_nat (List.length l))).
  { induction l as [|x l IH]; intros acc k Hk Hacc; cbn [fold_left List.length].
    - rewrite Z.add_0_r. exact Hacc.
    - rewrite Nat2Z.inj_succ.
      replace (k + Z.succ (Z.of_nat (List.length l)))
        with (k + 1 + Z.of_nat (List.length l)) by lia.
      apply IH; [lia|].
      pose proof (Byte.to_N_bounded x) as Hx.
      rewrite Z.pow_add_r, Z.pow_1_r by lia. lia. }
  apply (H b 0 0); lia.
Qed.

(** A test that holds for 0, 1, ..., n-1. *)
Lemma forallb_range (P : Z -> bool) (n : nat) :
  forallb P (map Z.of_nat (seq 0 n)) = true ->
  forall k, 0 <= k < Z.of_nat n -> P k = true.
Proof.
  intros H k Hk. rewrite forallb_forall in H. apply H.
  apply in_map_iff. exists (Z.to_nat k). split; [lia|].
  apply in_seq. lia.
Qed.

(** The factor drawn from [n >= 1] is [float64(n)], scaled. *)
Lemma factor_value (n : Z) :
  1 <= n < 2 ^ 64 ->
  goodF (factorOfUint64 n)
  /\ value (factorOfUint64 n)
     = (value (Float64.of_int n) / powerRZ 2 64)%R
  /\ goodF (Float64.of_int n)
  /\ (1 <= value (Float64.of_int n) <= powerRZ 2 64)%R.
Proof.
  intros Hn.
  destruct (of_int_le n (2 ^ 52) 12) as [Hg Hhi]; [lia|lia|lia|].
  pose proof (of_int_ge n 1 0 ltac:(lia) ltac:(lia) ltac:(lia) Hg) as Hlo.
  change (1 * 2 ^ 0) with 1 in Hlo.
  change (2 ^ 52 * 2 ^ 12) with (2 ^ 64) in Hhi.
  rewrite IZR_pow2 in Hhi by lia.
  destruct (div_pow2_64_value _ Hg Hlo) as [Hgf Hvf].
  unfold factorOfUint64. repeat split; assumption.
Qed.

(** The factor is in [0,1]. *)
Lemma factor_unit (n : Z) :
  0 <= n < 2 ^ 64 ->
  goodF (factorOfUint64 n) /\ (0 <= value (factorOfUint64 n) <= 1)%R.
Proof.
  intros Hn. destruct (Z.eq_dec n 0) as [->|Hz].
  - split; [reflexivity|]. unfold value.
    replace (Prim2SF (factorOfUint64 0)) with (S754_zero false)
      by (vm_compute; reflexivity).
    cbn. lra.
  - destruct (factor_value n ltac:(lia)) as [Hg [Hv [_ Hb]]].
    split; [exact Hg|]. rewrite Hv. pose proof (powerRZ_2_pos 64) as Hp.
    split.
    + apply Rmult_le_pos; [lra|]. apply Rlt_le, Rinv_0_lt_compat, Hp.
    + apply (Rmult_le_reg_r (powerRZ 2 64)); [exact Hp|].
      unfold Rdiv. rewrite Rmult_assoc, Rinv_l by lra. lra.
Qed.

(** It is below 1 for an [n] of at most [2^64 - 2048], the largest
    binary64 number below [2^64]. *)
Lemma factor_below_one (n : Z) :
  0 <= n <= 2 ^ 64 - 2048 -> (value (factorOfUint64 n) < 1)%R.
Proof.
  intros Hn. destruct (Z.eq_dec n 0) as [->|Hz].
  - unfold value.
    replace (Prim2SF (factorOfUint64 0)) with (S754_zero false)
      by (vm_compute; reflexivity).
    cbn. lra.
  - destruct (factor_value n ltac:(lia)) as [Hg [Hv [_ Hb]]].
    destruct (of_int_le n (2 ^ 53 - 1) 11) as [_ Hhi];
      [lia|lia|change ((2 ^ 53 - 1) * 2 ^ 11) with (2 ^ 64 - 2048); lia|].
    change ((2 ^ 53 - 1) * 2 ^ 11) with (2 ^ 64 - 2048) in Hhi.
    rewrite minus_IZR, IZR_pow2 in Hhi by lia.
    rewrite Hv. pose proof (powerRZ_2_pos 64) as Hp.
    apply (Rmult_lt_reg_r (powerRZ 2 64)); [exact Hp|].
    unfold Rdiv. rewrite Rmult_assoc, Rinv_l by lra. lra.
Qed.

Lemma leb_value (x y : float) :
  goodF x -> goodF y -> ((x <=? y)%float = true <-> (value x <= value y)%R).
Proof.
  intros Hx Hy. rewrite leb_spec. apply SFleb_spec; auto using goodF_good.
Qed.

Lemma value_one : goodF 1 /\ value 1 = 1%R.
Proof.
  unfold goodF, value. change 1%float with one. rewrite Prim2SF_one.
  split; [reflexivity|]. cbn [SF2R]. replace (-52) with (-52 + 0) by lia.
  rewrite F2R_pow2. reflexivity.
Qed.

(** The 2048 numbers above [2^64 - 2048], and the thousand values of
    the fallback, by evaluation. *)
Lemma factor_top :
  forall k, 0 <= k < 2048 ->
  (factorOfUint64 (2 ^ 64 - 2048 + k) <? 1)%float = (k <? 1024).
Proof.
  intros k Hk.
  apply Bool.eqb_prop.
  apply (forallb_range
           (fun k => Bool.eqb (factorOfUint64 (2 ^ 64 - 2048 + k) <? 1)%float
                              (k <? 1024)) 2048); [|exact Hk].
  vm_compute. reflexivity.
Qed.

Lemma fallback_unit :
  forall k, 0 <= k < 1000 ->
  ((0 <=? Float64.of_int k / 1000)%float
   && (Float64.of_int k / 1000 <? 1)%float) = true.
Proof.
  apply (forallb_range
           (fun k => (0 <=? Float64.of_int k / 1000)%float
                     && (Float64.of_int k / 1000 <? 1)%float) 1000).
  vm_compute. reflexivity.
Qed.

(** *** The wait *)

(** The wait that [calculateBackoff] computes from a random factor in
    [0,1]: less than a nanosecond below three quarters of the base, and
    at most five quarters of it. *)
Lemma calculateBackoff_bounds (c : Client) (i : Z) (r : float) :
  0 <= RetryWaitMin c <= 2 ^ 50 ->
  0 <= RetryWaitMax c <= 2 ^ 50 ->
  1 <= i <= GoInt.max_int ->
  0 < RetryWaitMin c \/ i <= 1024 ->
  goodF r -> (value r <= 1)%R ->
  exists d,
    calculateBackoff c i r = Some d
    /\ 3 * backoffBase c i < 4 * d + 4 /\ 4 * d <= 5 * backoffBase c i.
Proof.
  intros HA HM Hi Hnan Gr Vr.
  pose proof (value_nonneg r Gr) as Vr0.
  unfold calculateBackoff.
  rewrite decr_no_overflow by (unfold GoInt.min_int; lia).
  cbv zeta.
  destruct (capped_backoff_value c i HA HM ltac:(lia) Hnan) as [Gb Vb].
  set (b := if (Float64.of_int (RetryWaitMax c)
                <? Float64.of_int (RetryWaitMin c) * Float64.pow2 (i - 1))%float
            then Float64.of_int (RetryWaitMax c)
            else (Float64.of_int (RetryWaitMin c) * Float64.pow2 (i - 1))%float)
    in *.
  assert (HB : 0 <= backoffBase c i <= 2 ^ 50).
  { unfold backoffBase.
    assert (0 < 2 ^ (i - 1)) by (apply Z.pow_pos_nonneg; lia). nia. }
  set (B := backoffBase c i) in *.
  assert (H53 : 2 ^ 50 * 5 < 2 ^ 53) by reflexivity.
  destruct value_quarter as [Gq Vq]. destruct value_two as [G2 V2].
  (* jitter := backoff * 0.25 *)
  destruct (representable_Z B (-2) ltac:(lia) ltac:(lia)) as [Fj [GFj VFj]].
  rewrite F2R_quarter in VFj.
  destruct (between_exact (Prim2SF (b * 0.25)) Fj (IZR B / 4)) as [Gj Vj].
  { replace (IZR B / 4)%R with (value b * value 0.25)%R by (rewrite Vb, Vq; lra).
    apply (mul_between b 0.25 Fj Gb Gq GFj). }
  { exact VFj. }
  fold (goodF (b * 0.25)) in Gj. fold (value (b * 0.25)) in Vj.
  set (jitter := (b * 0.25)%float) in *.
  assert (HB0 : (0 <= IZR B)%R) by (apply IZR_le; lia).
  (* backoff - jitter *)
  destruct (representable_Z (3 * B) (-2) ltac:(lia) ltac:(lia)) as [F1 [GF1 VF1]].
  rewrite F2R_quarter, mult_IZR in VF1.
  destruct (between_exact (Prim2SF (b - jitter)) F1 (3 * IZR B / 4)) as [G1 V1].
  { replace (3 * IZR B / 4)%R with (value b - value jitter)%R
      by (rewrite Vb, Vj; lra).
    apply (sub_between b jitter F1 Gb Gj GF1). rewrite Vb, Vj. lra. }
  { rewrite VF1. lra. }
  fold (goodF (b - jitter)) in G1. fold (value (b - jitter)) in V1.
  (* randomFactor * jitter *)
  destruct (mul_between r jitter (Prim2SF jitter) Gr Gj (goodF_good _ Gj))
    as [_ H2].
  destruct H2 as [Gt2 Vt2]. { fold (value jitter). rewrite Vj. nra. }
  fold (value jitter) in Vt2. rewrite Vj in Vt2.
  pose proof (value_nonneg _ Gt2) as Vt20.
  (* ... * 2 *)
  destruct (representable_Z (2 * B) (-2) ltac:(lia) ltac:(lia)) as [F3 [GF3 VF3]].
  rewrite F2R_quarter, mult_IZR in VF3.
  destruct (mul_between (r * jitter) 2 F3 Gt2 G2 GF3) as [_ H3].
  destruct H3 as [Gt3 Vt3]. { rewrite V2, VF3. lra. }
  rewrite VF3 in Vt3.
  pose proof (value_nonneg _ Gt3) as Vt30.
  (* the sum *)
  destruct (representable_Z (5 * B) (-2) ltac:(lia) ltac:(lia)) as [F4 [GF4 VF4]].
  rewrite F2R_quarter, mult_IZR in VF4.
  destruct (add_between (b - jitter) (r * jitter * 2) F4 G1 Gt3 GF4) as [_ H4].
  destruct H4 as [G4 V4]. { rewrite V1, VF4. lra. }
  rewrite VF4 in V4.
  destruct (add_between (b - jitter) (r * jitter * 2) (Prim2SF (b - jitter))
              G1 Gt3 (goodF_good _ G1)) as [H4lo _].
  destruct H4lo as [Hinf|[_ V4lo]].
  { fold (value (b - jitter)). lra. }
  { exfalso. exact (good_not_infinity _ G4 Hinf). }
  fold (value (b - jitter)) in V4lo. rewrite V1 in V4lo.
  (* the conversion *)
  destruct (truncate_value _ G4) as [d [Ed [Dlo Dhi]]].
  exists d.
  assert (Hd : 3 * B < 4 * d + 4 /\ 4 * d <= 5 * B).
  { split.
    - apply lt_IZR. rewrite plus_IZR, !mult_IZR. lra.
    - apply le_IZR. rewrite !mult_IZR. lra. }
  split; [|exact Hd].
  unfold Float64.to_int64. rewrite Ed.
  unfold GoInt.in_range, GoInt.min_int, GoInt.max_int.
  assert (2 ^ 50 * 5 < 2 ^ 63 - 1) by reflexivity.
  replace (- 2 ^ 63 <=? d) with true by (symmetry; apply Z.leb_le; lia).
  replace (d <=? 2 ^ 63 - 1) with true by (symmetry; apply Z.leb_le; lia).
  reflexivity.
Qed.

(** *** What [secureRandomFloat] returns *)

Lemma ltb_leb (x y : float) :
  (x <? y)%float = true -> (x <=? y)%float = true.
Proof.
  rewrite ltb_spec, leb_spec. unfold SFltb, SFleb.
  destruct (SFcompare (Prim2SF x) (Prim2SF y)) as [[| |]|];
    try discriminate; reflexivity.
Qed.

Lemma nonneg_leb (x : float) : goodF x -> (0 <=? x)%float = true.
Proof.
  unfold goodF. rewrite leb_spec.
  replace (Prim2SF 0) with (S754_zero false) by (vm_compute; reflexivity).
  destruct (Prim2SF x) as [s|s| |[|] m e]; try discriminate; reflexivity.
Qed.

Lemma uint64_of_bytes (b : bytes) :
  List.length b = 8%nat -> 0 <= bigEndianUint64 b < 2 ^ 64.
Proof.
  intros H. pose proof (bigEndianUint64_bound b) as Hb. rewrite H in Hb.
  exact Hb.
Qed.

Lemma secureRandomFloat_good (src : randomness) :
  wellFormed src = true ->
  goodF (secureRandomFloat src) /\ (value (secureRandomFloat src) <= 1)%R.
Proof.
  destruct src as [b|t]; cbn [wellFormed secureRandomFloat]; intros H.
  - apply Nat.eqb_eq in H.
    destruct (factor_unit (bigEndianUint64 b) (uint64_of_bytes b H))
      as [Hg [_ Hv]].
    split; assumption.
  - apply Z.leb_le in H.
    assert (Hk : 0 <= Z.rem t 1000 < 1000).
    { pose proof (Z.rem_bound_pos t 1000 H ltac:(lia)). lia. }
    pose proof (fallback_unit _ Hk) as Hu.
    apply andb_prop in Hu. destruct Hu as [H0 H1].
    apply unit_interval; [exact H0|apply ltb_leb, H1].
Qed.

(** X1.  [secureRandomFloat] returns a number between 0 and 1, both
    included. *)
Theorem random_factor_in_unit_interval (src : randomness) :
  wellFormed src = true ->
  (0 <=? secureRandomFloat src)%float = true
  /\ (secureRandomFloat src <=? 1)%float = true.
Proof.
  intros H. destruct (secureRandomFloat_good src H) as [Hg Hv].
  split; [apply nonneg_leb, Hg|].
  destruct value_one as [G1 V1].
  apply (leb_value _ _ Hg G1). rewrite V1. exact Hv.
Qed.

(** X2.  The factor drawn from eight random bytes is below 1 unless the
    64-bit number they spell is one of the 1024 largest, which
    [float64] rounds to 2^64. *)
Theorem random_factor_below_one (b : bytes) :
  List.length b = 8%nat ->
  (secureRandomFloat (RandBytes b) <? 1)%float
  = (bigEndianUint64 b <? 2 ^ 64 - 1024).
Proof.
  intros H. pose proof (uint64_of_bytes b H) as Hn.
  cbn [secureRandomFloat]. fold (factorOfUint64 (bigEndianUint64 b)).
  set (n := bigEndianUint64 b) in *.
  destruct (Z.le_gt_cases n (2 ^ 64 - 2048)) as [Hle|Hgt].
  - replace (n <? 2 ^ 64 - 1024) with true by (symmetry; apply Z.ltb_lt; lia).
    destruct (factor_unit n Hn) as [Hg _]. destruct value_one as [G1 V1].
    apply (ltb_value _ _ Hg G1). rewrite V1.
    apply factor_below_one. lia.
  - replace n with (2 ^ 64 - 2048 + (n - (2 ^ 64 - 2048))) by lia.
    rewrite factor_top by lia.
    destruct (n - (2 ^ 64 - 2048) <? 1024) eqn:E;
      [apply Z.ltb_lt in E|apply Z.ltb_ge in E]; symmetry;
      [apply Z.ltb_lt|apply Z.ltb_ge]; lia.
Qed.

(** X3.  The backoff grows: while the base of the next retry is not above
    [RetryWaitMax], the next wait is at least as long as this one,
    whatever the two random factors are; and no wait is longer than five
    quarters of [RetryWaitMax]. *)
Theorem backoff_grows_until_capped (c : Client) (i : Z) (r1 r2 : float) :
  0 <= RetryWaitMin c <= 2 ^ 50 ->
  0 <= RetryWaitMax c <= 2 ^ 50 ->
  1 <= i < GoInt.max_int ->
  0 < RetryWaitMin c \/ i < 1024 ->
  RetryWaitMin c * 2 ^ i <= RetryWaitMax c ->
  (0 <=? r1)%float = true -> (r1 <=? 1)%float = true ->
  (0 <=? r2)%float = true -> (r2 <=? 1)%float = true ->
  exists d1 d2,
    calculateBackoff c i r1 = Some d1
    /\ calculateBackoff c (i + 1) r2 = Some d2
    /\ d1 <= d2 <= 5 * RetryWaitMax c / 4.
Proof.
  intros Hmin Hmax Hi Hnan Hcap H1 H1' H2 H2'.
  destruct (unit_interval r1 H1 H1') as [G1 V1].
  destruct (unit_interval r2 H2 H2') as [G2 V2].
  destruct (calculateBackoff_bounds c i r1 Hmin Hmax ltac:(lia) ltac:(lia)
              G1 V1) as [d1 [E1 [L1 U1]]].
  destruct (calculateBackoff_bounds c (i + 1) r2 Hmin Hmax ltac:(lia)
              ltac:(lia) G2 V2) as [d2 [E2 [L2 U2]]].
  exists d1, d2. split; [exact E1|]. split; [exact E2|].
  unfold backoffBase in *.
  replace (i + 1 - 1) with (i - 1 + 1) in * by lia.
  rewrite Z.pow_add_r, Z.pow_1_r in * by lia.
  assert (Hp : 0 < 2 ^ (i - 1)) by (apply Z.pow_pos_nonneg; lia).
  assert (Hi2 : 2 ^ i = 2 ^ (i - 1) * 2).
  { replace i with (i - 1 + 1) at 1 by lia.
    rewrite Z.pow_add_r, Z.pow_1_r by lia. reflexivity. }
  rewrite Hi2 in Hcap.
  rewrite (Z.min_l (RetryWaitMin c * 2 ^ (i - 1))) in * by nia.
  rewrite (Z.min_l (RetryWaitMin c * (2 ^ (i - 1) * 2))) in * by nia.
  split; [nia|].
  apply Z.div_le_lower_bound; nia.
Qed.

(** ** Records *)

Section RecordFacts.

Variable unmarshalRecord : bytes -> recordFields + string.
Variable unmarshalMap : string -> option jsonMap + string.
Variable Body : Type.
Variable json_Marshal : Body -> bytes + string.

Local Abbreviation decode := (decodeRecord unmarshalRecord unmarshalMap).

(** The record that comes out of the two passes. *)
Lemma decodeRecord_spec (respBody : bytes) (r : DNSRecord) :
  decode respBody = inl r ->
  unmarshalRecord respBody = inl (fields r) /\ secondPass unmarshalMap r.
Proof.
  unfold decodeRecord, secondPass, DataRaw, ConditionalDataRaw.
  destruct (unmarshalRecord respBody) as [f|e]; [|discriminate].
  cbn [fields Data ConditionalData].
  destruct (String.eqb_spec (f_data f) "") as [Hd|Hd]; cbn [negb].
  - cbn [fields Data].
    destruct (String.eqb_spec (f_conditional_data f) "") as [Hc|Hc];
      cbn [negb andb].
    + intros H. inversion H. subst r. cbn. tauto.
    + destruct (String.eqb_spec (f_conditional_data f) emptyJSON) as [Hs|Hs];
        cbn [negb].
      * intros H. inversion H. subst r. cbn. tauto.
      * destruct (unmarshalMap (f_conditional_data f)) as [m|e] eqn:Em;
          [|discriminate].
        intros H. inversion H. subst r. cbn. rewrite Em. tauto.
  - destruct (unmarshalMap (f_data f)) as [md|e] eqn:Ed; [|discriminate].
    cbn [fields Data].
    destruct (String.eqb_spec (f_conditional_data f) "") as [Hc|Hc];
      cbn [negb andb].
    + intros H. inversion H. subst r. cbn. rewrite Ed. tauto.
    + destruct (String.eqb_spec (f_conditional_data f) emptyJSON) as [Hs|Hs];
        cbn [negb].
      * intros H. inversion H. subst r. cbn. rewrite Ed. tauto.
      * destruct (unmarshalMap (f_conditional_data f)) as [m|e] eqn:Em;
          [|discriminate].
        intros H. inversion H. subst r. cbn. rewrite Ed, Em. tauto.
Qed.

Lemma decodeResponse_spec (run : option (result * list event))
  (r : DNSRecord) (evs : list event) :
  decodeResponse unmarshalRecord unmarshalMap run = Some (inl r, evs) ->
  exists respBody, run = Some (Ok respBody, evs) /\ decode respBody = inl r.
Proof.
  destruct run as [[[respBody|e] evs0]|]; cbn [decodeResponse]; intros H;
    inversion H; subst; eauto.
Qed.

(** C8, as the code has it: a record that [CreateRecord], [GetRecord] or
    [UpdateRecord] returns comes from a response body whose outer decode
    succeeded, and its nested fields are decoded in a second pass.
    [conditional_data] is not decoded when it is the empty string or the
    sentinel "{}", and its parsed field is then nil; otherwise the parsed
    field is what [json.Unmarshal] makes of the text.  [data] is not
    decoded when it is the empty string, and its parsed field is then
    nil; otherwise, the sentinel "{}" included, the parsed field is what
    [json.Unmarshal] makes of the text. *)
Theorem nested_fields_second_pass (c : Client) (env : nat -> iteration)
  (fuel : nat) (zoneID recordID : string) (req : Body) (r : DNSRecord)
  (evs : list event) :
  CreateRecord unmarshalRecord unmarshalMap Body json_Marshal c env fuel
    zoneID req = Some (inl r, evs)
  \/ GetRecord unmarshalRecord unmarshalMap Body json_Marshal c env fuel
       zoneID recordID = Some (inl r, evs)
  \/ UpdateRecord unmarshalRecord unmarshalMap Body json_Marshal c env fuel
       zoneID recordID req = Some (inl r, evs) ->
  (exists respBody, unmarshalRecord respBody = inl (fields r))
  /\ secondPass unmarshalMap r.
Proof.
  unfold CreateRecord, GetRecord, UpdateRecord.
  intros [H|[H|H]];
    apply decodeResponse_spec in H; destruct H as [respBody [_ H]];
    apply decodeRecord_spec in H; destruct H as [Hf Hs]; eauto.
Qed.

End RecordFacts.

(** ** Every call

    What holds of a call that returns, whatever the network, the context
    and the random source do. *)

Section EveryLoop.

Variable c : Client.
Variable env : nat -> iteration.
Variables method path : string.
Variable jsonData : option bytes.

Local Abbreviation once := (attemptOnce c method path jsonData).
Local Abbreviation loop := (retryLoop c env method path jsonData).

(** What holds of the loop wherever it leaves: at its condition, at a
    [return] of its body, or later, after an iteration that went on. *)
Lemma loop_induction
  (P : nat -> Z -> option error -> result -> list event -> Prop) :
  (forall k attempt lastErr,
     MaxRetries c < attempt ->
     P k attempt lastErr (Err (RetriesError (MaxRetries c) lastErr)) []) ->
  (forall k attempt lastErr r evs,
     attempt <= MaxRetries c ->
     once attempt (env k) = (Return r, evs) ->
     P k attempt lastErr r evs) ->
  (forall k attempt lastErr e evs r evs',
     attempt <= MaxRetries c ->
     once attempt (env k) = (Continue e, evs) ->
     P (S k) (GoInt.incr attempt) (Some e) r evs' ->
     P k attempt lastErr r (evs ++ evs')) ->
  forall fuel k attempt lastErr r evs,
    loop fuel k attempt lastErr = Some (r, evs) ->
    P k attempt lastErr r evs.
Proof.
  intros Hexit Hret Hcont.
  induction fuel as [|fuel IH]; intros k attempt lastErr r evs Hrun;
    [discriminate|].
  cbn [retryLoop] in Hrun.
  destruct (attempt <=? MaxRetries c) eqn:Hle.
  - apply Z.leb_le in Hle.
    destruct (once attempt (env k)) as [[r0|e0] evs0] eqn:E0.
    + inversion Hrun; subst. now apply Hret.
    + destruct (loop fuel (S k) (GoInt.incr attempt) (Some e0))
        as [[r1 evs1]|] eqn:E1; [|discriminate].
      inversion Hrun; subst. eapply Hcont; eauto.
  - apply Z.leb_gt in Hle. inversion Hrun; subst. now apply Hexit.
Qed.

Ltac iteration_outcomes it attempt :=
  unfold attemptOnce;
  destruct it as [rnd [wd|] [cause|cause|status partial cause|status body]
                    [ce|]];
  cbn [random wait_done outcome ctx_err executeRequest err statusCode
       respBody sent];
  destruct (0 <? attempt) eqn:Hattempt;
  repeat match goal with
    | |- context [(?a <=? ?b) && (?b <? ?d)] =>
        destruct (a <=? b) eqn:?; destruct (b <? d) eqn:?; cbn [andb]
    end.

(** An iteration after which the loop goes on, and one that returns. *)
Lemma attemptOnce_continues (attempt : Z) (it : iteration) (e : error)
  (evs : list event) :
  once attempt it = (Continue e, evs) ->
  retried e = true
  /\ e = recordedError (outcome it)
  /\ evs = (if 0 <? attempt
            then [EvWait (calculateBackoff c attempt
                            (secureRandomFloat (random it)))]
            else [])
           ++ [EvAttempt jsonData
                 (sent (executeRequest c method path jsonData (outcome it)))].
Proof.
  iteration_outcomes it attempt; intros H; inversion H; subst; clear H;
    cbn [retried recordedError]; repeat split;
    repeat match goal with H : _ = _ |- _ => rewrite H end; reflexivity.
Qed.

Lemma attemptOnce_returns (attempt : Z) (it : iteration) (r : result)
  (evs : list event) :
  once attempt it = (Return r, evs) ->
  let w := calculateBackoff c attempt (secureRandomFloat (random it)) in
  let waited := if 0 <? attempt then [EvWait w] else [] in
  let sends :=
    [EvAttempt jsonData
       (sent (executeRequest c method path jsonData (outcome it)))] in
  (exists e, 0 < attempt /\ wait_done it = Some e
             /\ r = Err (CtxError e) /\ evs = waited)
  \/ (exists e, ctx_err it = Some e /\ failsAtTransport (outcome it) = true
                /\ r = Err (CtxError e) /\ evs = waited ++ sends)
  \/ (exists status body,
        outcome it = Responds status body /\ evs = waited ++ sends
        /\ ((200 <= status < 300 /\ r = Ok body)
            \/ (400 <= status < 500
                /\ r = Err (StatusError status (string_of_bytes body))))).
Proof.
  iteration_outcomes it attempt; intros H; inversion H; subst; clear H; cbn zeta;
    try (left; eexists; split; [apply Z.ltb_lt; assumption|];
         repeat split; reflexivity);
    try (right; left; eexists; repeat split; reflexivity);
    right; right; do 2 eexists; (split; [reflexivity|]);
    (split; [reflexivity|]);
    repeat match goal with
      | H : (_ <=? _) = true |- _ => apply Z.leb_le in H
      | H : (_ <? _) = true |- _ => apply Z.ltb_lt in H
      end;
    try (left; split; [lia|reflexivity]);
    right; split; try lia; reflexivity.
Qed.

Lemma waitDurations_app (t1 t2 : list event) :
  waitDurations (t1 ++ t2) = waitDurations t1 ++ waitDurations t2.
Proof. apply flat_map_app. Qed.

Lemma requestsSent_app (t1 t2 : list event) :
  requestsSent (t1 ++ t2) = requestsSent t1 ++ requestsSent t2.
Proof. apply flat_map_app. Qed.

Lemma waits_waitDurations (t : list event) :
  waits t = List.length (waitDurations t).
Proof.
  unfold waits, waitDurations. induction t as [|[|w|d q] t IH]; cbn;
    auto using f_equal.
Qed.

(** The errors of the loop. *)
Lemma loop_errors (fuel k : nat) (attempt : Z) (lastErr : option error)
  (r : result) (evs : list event) :
  loop fuel k attempt lastErr = Some (r, evs) ->
  match lastErr with Some e => retried e = true | None => True end ->
  match r with Ok _ => True | Err e => callError c e = true end.
Proof.
  revert fuel k attempt lastErr r evs.
  apply (loop_induction
           (fun k attempt lastErr r evs =>
              match lastErr with Some e => retried e = true | None => True end ->
              match r with Ok _ => True | Err e => callError c e = true end)).
  - intros k attempt lastErr _ Hlast. cbn [callError].
    rewrite Z.eqb_refl. destruct lastErr; [exact Hlast|reflexivity].
  - intros k attempt lastErr r evs _ E _.
    destruct (attemptOnce_returns _ _ _ _ E)
      as [[e [_ [_ [-> _]]]]|[[e [_ [_ [-> _]]]]
          |[status [body [_ [_ [[_ ->]|[Hs ->]]]]]]]];
      try reflexivity; try exact I.
    cbn [callError]. apply andb_true_intro.
    split; [apply Z.leb_le|apply Z.ltb_lt]; lia.
  - intros k attempt lastErr e evs r evs' _ E IH _.
    apply IH. apply (attemptOnce_continues _ _ _ _ E).
Qed.

(** The loop wraps no error only when it leaves at once, having made no
    attempt. *)
Lemma loop_no_cause (fuel k : nat) (attempt : Z) (lastErr : option error)
  (r : result) (evs : list event) (n : Z) :
  loop fuel k attempt lastErr = Some (r, evs) ->
  r = Err (RetriesError n None) ->
  lastErr = None /\ evs = [] /\ MaxRetries c < attempt.
Proof.
  revert fuel k attempt lastErr r evs.
  apply (loop_induction
           (fun k attempt lastErr r evs =>
              r = Err (RetriesError n None) ->
              lastErr = None /\ evs = [] /\ MaxRetries c < attempt)).
  - intros k attempt lastErr Hlt H. inversion H. repeat split. exact Hlt.
  - intros k attempt lastErr r evs _ E H. subst r.
    destruct (attemptOnce_returns _ _ _ _ E)
      as [[e [_ [_ [H _]]]]|[[e [_ [_ [H _]]]]
          |[status [body [_ [_ [[_ H]|[_ H]]]]]]]]; discriminate.
  - intros k attempt lastErr e evs r evs' _ E IH H.
    destruct (IH H) as [H0 _]. discriminate.
Qed.

(** The events of the retries. *)
Lemma loop_retries_shape (fuel k : nat) (attempt : Z)
  (lastErr : option error) (r : result) (evs : list event) :
  MaxRetries c + 1 <= GoInt.max_int ->
  loop fuel k attempt lastErr = Some (r, evs) ->
  0 < attempt -> retriesShape evs = true.
Proof.
  intros Hint. revert fuel k attempt lastErr r evs.
  apply (loop_induction
           (fun k attempt lastErr r evs =>
              0 < attempt -> retriesShape evs = true)).
  - reflexivity.
  - intros k attempt lastErr r evs _ E Hpos.
    apply Z.ltb_lt in Hpos.
    destruct (attemptOnce_returns _ _ _ _ E)
      as [[e [_ [_ [_ ->]]]]|[[e [_ [_ [_ ->]]]]
          |[status [body [_ [-> _]]]]]]; rewrite Hpos; reflexivity.
  - intros k attempt lastErr e evs r evs' Hle E IH Hpos.
    destruct (attemptOnce_continues _ _ _ _ E) as [_ [_ ->]].
    rewrite incr_no_overflow in IH by (unfold GoInt.min_int; lia).
    apply Z.ltb_lt in Hpos. rewrite Hpos. cbn. apply IH. lia.
Qed.

Lemma loop_shape (fuel k : nat) (lastErr : option error) (r : result)
  (evs : list event) :
  MaxRetries c + 1 <= GoInt.max_int ->
  loop fuel k 0 lastErr = Some (r, evs) -> loopShape evs = true.
Proof.
  intros Hint Hrun. destruct fuel as [|fuel]; [discriminate|].
  cbn [retryLoop] in Hrun.
  destruct (0 <=? MaxRetries c); [|inversion Hrun; reflexivity].
  destruct (once 0 (env k)) as [[r0|e0] evs0] eqn:E0.
  - inversion Hrun; subst.
    destruct (attemptOnce_returns _ _ _ _ E0)
      as [[e [H _]]|[[e [_ [_ [_ ->]]]]|[status [body [_ [-> _]]]]]];
      [lia|reflexivity|reflexivity].
  - destruct (loop fuel (S k) (GoInt.incr 0) (Some e0))
      as [[r1 evs1]|] eqn:E1; [|discriminate].
    inversion Hrun; subst.
    destruct (attemptOnce_continues _ _ _ _ E0) as [_ [_ ->]].
    cbn. apply (loop_retries_shape _ _ _ _ _ _ Hint E1). reflexivity.
Qed.

(** The attempts and the waits that are left to the loop. *)
Lemma loop_budget (fuel k : nat) (attempt : Z) (lastErr : option error)
  (r : result) (evs : list event) :
  MaxRetries c + 1 <= GoInt.max_int ->
  loop fuel k attempt lastErr = Some (r, evs) ->
  0 <= attempt ->
  Z.of_nat (attempts evs) <= Z.max 0 (MaxRetries c + 1 - attempt)
  /\ Z.of_nat (waits evs)
     <= Z.max 0 (MaxRetries c + 1 - Z.max 1 attempt).
Proof.
  intros Hint. revert fuel k attempt lastErr r evs.
  apply (loop_induction
           (fun k attempt lastErr r evs =>
              0 <= attempt ->
              Z.of_nat (attempts evs) <= Z.max 0 (MaxRetries c + 1 - attempt)
              /\ Z.of_nat (waits evs)
                 <= Z.max 0 (MaxRetries c + 1 - Z.max 1 attempt))).
  - intros. cbn. lia.
  - intros k attempt lastErr r evs Hle E Hpos.
    pose proof (attemptOnce_attempts_le c method path jsonData attempt (env k))
      as Ha.
    pose proof (attemptOnce_waits c method path jsonData attempt (env k))
      as Hw.
    rewrite E in Ha, Hw. cbn [snd] in Ha, Hw. rewrite Hw.
    destruct (0 <? attempt) eqn:H0;
      [apply Z.ltb_lt in H0|apply Z.ltb_ge in H0]; lia.
  - intros k attempt lastErr e evs r evs' Hle E IH Hpos.
    rewrite incr_no_overflow in IH by (unfold GoInt.min_int; lia).
    specialize (IH ltac:(lia)).
    pose proof (attemptOnce_attempts_le c method path jsonData attempt (env k))
      as Ha.
    pose proof (attemptOnce_waits c method path jsonData attempt (env k))
      as Hw.
    rewrite E in Ha, Hw. cbn [snd] in Ha, Hw.
    rewrite attempts_app, waits_app, Hw.
    destruct (0 <? attempt) eqn:H0;
      [apply Z.ltb_lt in H0|apply Z.ltb_ge in H0]; lia.
Qed.

(** A body is returned from an answer with a 2xx status, the last
    event of the loop, and this answer is to the last attempt. *)
Lemma loop_success (fuel k : nat) (attempt : Z) (lastErr : option error)
  (r : result) (evs : list event) (b : bytes) :
  loop fuel k attempt lastErr = Some (r, evs) ->
  r = Ok b ->
  exists n status evs0,
    attempts evs = S n
    /\ outcome (env (k + n)%nat) = Responds status b
    /\ 200 <= status < 300
    /\ evs = evs0 ++ [EvAttempt jsonData
                        (Some (buildRequest c method path jsonData))].
Proof.
  revert fuel k attempt lastErr r evs.
  apply (loop_induction
           (fun k attempt lastErr r evs =>
              r = Ok b ->
              exists n status evs0,
                attempts evs = S n
                /\ outcome (env (k + n)%nat) = Responds status b
                /\ 200 <= status < 300
                /\ evs = evs0 ++ [EvAttempt jsonData
                                    (Some (buildRequest c method path jsonData))])).
  - discriminate.
  - intros k attempt lastErr r evs _ E ->.
    destruct (attemptOnce_returns _ _ _ _ E)
      as [[e [_ [_ [H _]]]]|[[e [_ [_ [H _]]]]
          |[status [body [Hout [-> [[Hs H]|[_ H]]]]]]]]; try discriminate.
    inversion H; subst body. exists 0%nat, status.
    eexists. rewrite Nat.add_0_r, Hout. cbn [executeRequest sent].
    repeat split; try lia.
    rewrite attempts_app. destruct (0 <? attempt); reflexivity.
  - intros k attempt lastErr e evs r evs' _ E IH Hr.
    destruct (IH Hr) as [n [status [evs0 [Hn [Hout [Hs ->]]]]]].
    destruct (attemptOnce_continue _ _ _ _ _ _ _ _ E) as [_ Ha].
    exists (S n), status, (evs ++ evs0).
    rewrite attempts_app, Ha, Hn.
    replace (k + S n)%nat with (S k + n)%nat by lia.
    repeat split; try assumption; try lia. now rewrite app_assoc.
Qed.

(** Every request of the loop is the one [executeRequest] builds from
    the arguments of the call. *)
Lemma loop_requests (fuel k : nat) (attempt : Z) (lastErr : option error)
  (r : result) (evs : list event) :
  loop fuel k attempt lastErr = Some (r, evs) ->
  Forall (fun q => q = buildRequest c method path jsonData)
    (requestsSent evs).
Proof.
  assert (Hone : forall a it,
            Forall (fun q => q = buildRequest c method path jsonData)
              (requestsSent (snd (once a it)))).
  { intros a it. iteration_outcomes it a; cbn; repeat constructor. }
  revert fuel k attempt lastErr r evs.
  apply (loop_induction
           (fun k attempt lastErr r evs =>
              Forall (fun q => q = buildRequest c method path jsonData)
                (requestsSent evs))).
  - constructor.
  - intros k attempt lastErr r evs _ E.
    specialize (Hone attempt (env k)). now rewrite E in Hone.
  - intros k attempt lastErr e evs r evs' _ E IH.
    specialize (Hone attempt (env k)). rewrite E in Hone.
    rewrite requestsSent_app. apply Forall_app. split; assumption.
Qed.

(** While the context is not done the loop ends with an attempt, or at
    its condition. *)
Lemma loop_not_cancelled (fuel k : nat) (attempt : Z)
  (lastErr : option error) (r : result) (evs : list event) :
  MaxRetries c + 1 <= GoInt.max_int ->
  (forall j, wait_done (env j) = None /\ ctx_err (env j) = None) ->
  loop fuel k attempt lastErr = Some (r, evs) ->
  (forall e, r <> Err (CtxError e))
  /\ (0 <= attempt ->
      waits evs = (attempts evs - (if (0 <? attempt)%Z then 0 else 1))%nat).
Proof.
  intros Hint Henv. revert fuel k attempt lastErr r evs.
  apply (loop_induction
           (fun k attempt lastErr r evs =>
              (forall e, r <> Err (CtxError e))
              /\ (0 <= attempt ->
                  waits evs
                  = (attempts evs - (if (0 <? attempt)%Z then 0 else 1))%nat))).
  - intros. split; [discriminate|]. intros _. destruct (0 <? attempt); reflexivity.
  - intros k attempt lastErr r evs _ E.
    destruct (Henv k) as [Hw Hc].
    destruct (attemptOnce_returns _ _ _ _ E)
      as [[e [_ [H _]]]|[[e [H _]]
          |[status [body [_ [-> [[_ ->]|[_ ->]]]]]]]]; try congruence;
      (split; [discriminate|]); intros _;
      rewrite waits_app, attempts_app; destruct (0 <? attempt); reflexivity.
  - intros k attempt lastErr e evs r evs' Hle E [IH1 IH2].
    split; [exact IH1|]. intros Hpos.
    destruct (attemptOnce_continues _ _ _ _ E) as [_ [_ ->]].
    rewrite incr_no_overflow in IH2 by (unfold GoInt.min_int; lia).
    specialize (IH2 ltac:(lia)).
    replace (0 <? attempt + 1) with true in IH2
      by (symmetry; apply Z.ltb_lt; lia).
    rewrite !waits_app, !attempts_app, IH2.
    destruct (0 <? attempt); cbn; lia.
Qed.

(** A 4xx status error that the loop returns is the answer to its last
    attempt. *)
Lemma loop_client_error (fuel k : nat) (attempt : Z)
  (lastErr : option error) (r : result) (evs : list event) (status : Z)
  (message : string) :
  loop fuel k attempt lastErr = Some (r, evs) ->
  r = Err (StatusError status message) ->
  exists n body,
    attempts evs = S n
    /\ outcome (env (k + n)%nat) = Responds status body
    /\ message = string_of_bytes body
    /\ 400 <= status < 500.
Proof.
  revert fuel k attempt lastErr r evs.
  apply (loop_induction
           (fun k attempt lastErr r evs =>
              r = Err (StatusError status message) ->
              exists n body,
                attempts evs = S n
                /\ outcome (env (k + n)%nat) = Responds status body
                /\ message = string_of_bytes body
                /\ 400 <= status < 500)).
  - discriminate.
  - intros k attempt lastErr r evs _ E ->.
    destruct (attemptOnce_returns _ _ _ _ E)
      as [[e [_ [_ [H _]]]]|[[e [_ [_ [H _]]]]
          |[status0 [body [Hout [-> [[_ H]|[Hs H]]]]]]]]; try discriminate.
    inversion H; subst. exists 0%nat, body.
    rewrite Nat.add_0_r, attempts_app.
    repeat split; try assumption; try lia.
    destruct (0 <? attempt); reflexivity.
  - intros k attempt lastErr e evs r evs' _ E IH Hr.
    destruct (IH Hr) as [n [body [Hn [Hout [Hm Hs]]]]].
    destruct (attemptOnce_continue _ _ _ _ _ _ _ _ E) as [_ Ha].
    exists (S n), body. rewrite attempts_app, Ha, Hn.
    replace (k + S n)%nat with (S k + n)%nat by lia.
    repeat split; try assumption; lia.
Qed.

(** The context's error is returned from an iteration at which the
    context is done: from its wait, before any attempt of it, or after
    its attempt failed. *)
Lemma loop_cancelled (fuel k : nat) (attempt : Z)
  (lastErr : option error) (r : result) (evs : list event) (e : ctxError) :
  loop fuel k attempt lastErr = Some (r, evs) ->
  r = Err (CtxError e) ->
  exists n,
    (wait_done (env (k + n)%nat) = Some e /\ attempts evs = n
     /\ (0 < attempt \/ (0 < n)%nat))
    \/ (ctx_err (env (k + n)%nat) = Some e
        /\ failsAtTransport (outcome (env (k + n)%nat)) = true
        /\ attempts evs = S n).
Proof.
  revert fuel k attempt lastErr r evs.
  apply (loop_induction
           (fun k attempt lastErr r evs =>
              r = Err (CtxError e) ->
              exists n,
                (wait_done (env (k + n)%nat) = Some e /\ attempts evs = n
                 /\ (0 < attempt \/ (0 < n)%nat))
                \/ (ctx_err (env (k + n)%nat) = Some e
                    /\ failsAtTransport (outcome (env (k + n)%nat)) = true
                    /\ attempts evs = S n))).
  - discriminate.
  - intros k attempt lastErr r evs _ E ->. exists 0%nat.
    rewrite Nat.add_0_r.
    destruct (attemptOnce_returns _ _ _ _ E)
      as [[e0 [Hpos [Hw [H ->]]]]|[[e0 [Hc [Hf [H ->]]]]
          |[status [body [_ [_ [[_ H]|[_ H]]]]]]]]; try discriminate;
      inversion H; subst.
    + left. split; [exact Hw|]. split; [|left; exact Hpos].
      destruct (0 <? attempt); reflexivity.
    + right. repeat split; try assumption.
      rewrite attempts_app. destruct (0 <? attempt); reflexivity.
  - intros k attempt lastErr e0 evs r evs' _ E IH Hr.
    destruct (attemptOnce_continue _ _ _ _ _ _ _ _ E) as [_ Ha].
    destruct (IH Hr) as [n [[Hw [Hn _]]|[Hc [Hf Hn]]]]; exists (S n);
      replace (k + S n)%nat with (S k + n)%nat by lia;
      rewrite attempts_app, Ha, Hn; [left|right]; repeat split;
      try assumption; right; lia.
Qed.

(** A wait is the last event of the loop only when the context cut it
    short: the loop then returns the context's error, and the attempt
    that the wait was for is not made. *)
Lemma loop_trailing_wait (fuel k : nat) (attempt : Z)
  (lastErr : option error) (r : result) (evs : list event)
  (w : option Duration) :
  loop fuel k attempt lastErr = Some (r, evs) ->
  forall t0, evs = t0 ++ [EvWait w] ->
  exists e, r = Err (CtxError e)
            /\ wait_done (env (k + attempts evs)%nat) = Some e.
Proof.
  revert fuel k attempt lastErr r evs.
  apply (loop_induction
           (fun k attempt lastErr r evs =>
              forall t0, evs = t0 ++ [EvWait w] ->
              exists e, r = Err (CtxError e)
                        /\ wait_done (env (k + attempts evs)%nat) = Some e)).
  - intros k attempt lastErr _ t0 H. destruct t0; discriminate.
  - intros k attempt lastErr r evs _ E t0 Ht.
    destruct (attemptOnce_returns _ _ _ _ E)
      as [[e [_ [Hw [-> Hev]]]]|[[e [_ [_ [_ Hev]]]]
          |[status [body [_ [Hev _]]]]]].
    + exists e. split; [reflexivity|]. rewrite Hev.
      destruct (0 <? attempt); cbn; rewrite Nat.add_0_r; exact Hw.
    + rewrite Hev in Ht. apply app_inj_tail in Ht. destruct Ht; discriminate.
    + rewrite Hev in Ht. apply app_inj_tail in Ht. destruct Ht; discriminate.
  - intros k attempt lastErr e evs r evs' _ E IH t0 Ht.
    destruct (attemptOnce_continues _ _ _ _ E) as [_ [_ Hev]].
    destruct (attemptOnce_continue _ _ _ _ _ _ _ _ E) as [_ Ha].
    destruct (exists_last (l := evs')) as [l [a Hl]].
    { intros ->. rewrite app_nil_r, Hev in Ht.
      apply app_inj_tail in Ht. destruct Ht; discriminate. }
    rewrite Hl, app_assoc in Ht. apply app_inj_tail in Ht.
    destruct Ht as [_ ->].
    destruct (IH l Hl) as [e0 [Hr Hw]]. exists e0. split; [exact Hr|].
    rewrite attempts_app, Ha.
    replace (k + (1 + attempts evs'))%nat with (S k + attempts evs')%nat by lia.
    exact Hw.
Qed.

(** The waits of the loop, each the backoff of the retry it precedes,
    computed with the random factor drawn at that iteration. *)
Lemma loop_waits_backoff (fuel k : nat) (attempt : Z)
  (lastErr : option error) (r : result) (evs : list event) :
  MaxRetries c + 1 <= GoInt.max_int ->
  loop fuel k attempt lastErr = Some (r, evs) ->
  0 <= attempt ->
  forall j w, nth_error (waitDurations evs) j = Some w ->
    w = calculateBackoff c (Z.max 1 attempt + Z.of_nat j)
          (secureRandomFloat
             (random (env (k + j + (if (0 <? attempt)%Z then 0 else 1))%nat))).
Proof.
  intros Hint. revert fuel k attempt lastErr r evs.
  apply (loop_induction
           (fun k attempt lastErr r evs =>
              0 <= attempt ->
              forall j w, nth_error (waitDurations evs) j = Some w ->
                w = calculateBackoff c (Z.max 1 attempt + Z.of_nat j)
                      (secureRandomFloat
                         (random (env (k + j + (if (0 <? attempt)%Z
                                                then 0 else 1))%nat))))).
  - intros k attempt lastErr _ _ [|j] w H; discriminate.
  - intros k attempt lastErr r evs Hle E Hpos j w Hj.
    assert (Hev : exists tl, waitDurations tl = []
              /\ evs = (if 0 <? attempt
                        then [EvWait (calculateBackoff c attempt
                                        (secureRandomFloat (random (env k))))]
                        else []) ++ tl).
    { destruct (attemptOnce_returns _ _ _ _ E)
        as [[e [_ [_ [_ ->]]]]|[[e [_ [_ [_ ->]]]]
            |[status [body [_ [-> _]]]]]];
        [exists []; rewrite app_nil_r; split; reflexivity|..];
        (eexists; split; [|reflexivity]; reflexivity). }
    destruct Hev as [tl [Htl ->]].
    rewrite waitDurations_app, Htl, app_nil_r in Hj.
    destruct (0 <? attempt) eqn:H0; [|destruct j; discriminate].
    apply Z.ltb_lt in H0. destruct j as [|[|j]]; try discriminate.
    cbn in Hj. inversion Hj; subst w.
    replace (Z.max 1 attempt + Z.of_nat 0) with attempt by lia.
    now rewrite !Nat.add_0_r.
  - intros k attempt lastErr e evs r evs' Hle E IH Hpos j w Hj.
    rewrite incr_no_overflow in IH by (unfold GoInt.min_int; lia).
    specialize (IH ltac:(lia)).
    replace (0 <? attempt + 1) with true in IH
      by (symmetry; apply Z.ltb_lt; lia).
    destruct (attemptOnce_continues _ _ _ _ E) as [_ [_ ->]].
    rewrite !waitDurations_app in Hj.
    destruct (0 <? attempt) eqn:H0;
      [apply Z.ltb_lt in H0|apply Z.ltb_ge in H0]; cbn in Hj.
    + destruct j as [|j]; cbn in Hj.
      * inversion Hj; subst w.
        replace (Z.max 1 attempt + Z.of_nat 0) with attempt by lia.
        now rewrite !Nat.add_0_r.
      * rewrite (IH j w Hj). f_equal; [lia|]. do 3 f_equal. lia.
    + rewrite (IH j w Hj). f_equal; [lia|]. do 3 f_equal. lia.
Qed.

(** A 2xx answer to the last attempt ends the loop with its body. *)
Lemma loop_answered (fuel k : nat) (attempt : Z) (lastErr : option error)
  (r : result) (evs : list event) (status : Z) (b : bytes) :
  loop fuel k attempt lastErr = Some (r, evs) ->
  forall n, attempts evs = S n ->
            outcome (env (k + n)%nat) = Responds status b ->
            200 <= status < 300 -> r = Ok b.
Proof.
  revert fuel k attempt lastErr r evs.
  apply (loop_induction
           (fun k attempt lastErr r evs =>
              forall n, attempts evs = S n ->
                        outcome (env (k + n)%nat) = Responds status b ->
                        200 <= status < 300 -> r = Ok b)).
  - intros k attempt lastErr _ n H. discriminate.
  - intros k attempt lastErr r evs _ E n Hn Hout Hs.
    destruct (attemptOnce_returns _ _ _ _ E)
      as [[e [_ [_ [_ Hev]]]]|[[e [_ [Hf [_ Hev]]]]
          |[status0 [body [Hout0 [Hev Hr]]]]]];
      rewrite Hev in Hn; try rewrite attempts_app in Hn.
    + destruct (0 <? attempt); discriminate.
    + assert (n = 0%nat) by (destruct (0 <? attempt); cbn in Hn; lia).
      subst n. rewrite Nat.add_0_r in Hout. rewrite Hout in Hf. discriminate.
    + assert (n = 0%nat) by (destruct (0 <? attempt); cbn in Hn; lia).
      subst n. rewrite Nat.add_0_r, Hout0 in Hout. inversion Hout; subst.
      destruct Hr as [[_ ->]|[H4 _]]; [reflexivity|lia].
  - intros k attempt lastErr e evs r evs' _ E IH n Hn Hout Hs.
    destruct (attemptOnce_continues _ _ _ _ E) as [Hret [He _]].
    destruct (attemptOnce_continue _ _ _ _ _ _ _ _ E) as [_ Ha].
    rewrite attempts_app, Ha in Hn.
    destruct n as [|n].
    + rewrite Nat.add_0_r in Hout. rewrite He, Hout in Hret.
      cbn [recordedError retried] in Hret.
      replace (200 <=? status) with true in Hret
        by (symmetry; apply Z.leb_le; lia).
      replace (status <? 300) with true in Hret
        by (symmetry; apply Z.ltb_lt; lia).
      discriminate.
    + apply (IH n); [lia| |exact Hs].
      replace (S k + n)%nat with (k + S n)%nat by lia. exact Hout.
Qed.

End EveryLoop.

Section JitteredLoop.

Variable c : Client.
Variable env : nat -> iteration.
Variables method path : string.
Variable jsonData : option bytes.

Local Abbreviation once := (attemptOnce c method path jsonData).
Local Abbreviation loop := (retryLoop c env method path jsonData).

Hypothesis wait_min : 0 <= RetryWaitMin c <= 2 ^ 50.
Hypothesis wait_max : 0 <= RetryWaitMax c <= 2 ^ 50.
Hypothesis no_nan : 0 < RetryWaitMin c \/ MaxRetries c <= 1024.
Hypothesis no_overflow : MaxRetries c + 1 <= GoInt.max_int.
Hypothesis random_ok : forall k, wellFormed (random (env k)) = true.

Lemma backoff_jittered (k : nat) (attempt : Z) :
  1 <= attempt <= MaxRetries c ->
  jittered c attempt
    (calculateBackoff c attempt (secureRandomFloat (random (env k)))).
Proof.
  intros Ha.
  destruct (secureRandomFloat_good _ (random_ok k)) as [Hg Hv].
  destruct (calculateBackoff_bounds c attempt _ wait_min wait_max
              ltac:(lia) ltac:(lia) Hg Hv) as [d [Ed [Hlo Hhi]]].
  exists d. split; [exact Ed|]. split.
  - apply Z.lt_succ_r. apply Z.div_lt_upper_bound; lia.
  - apply Z.div_le_lower_bound; lia.
Qed.

(** The waits of the loop, counted from the retry it is at. *)
Lemma loop_waits_jittered (fuel k : nat) (attempt : Z)
  (lastErr : option error) (r : result) (evs : list event) :
  loop fuel k attempt lastErr = Some (r, evs) ->
  0 <= attempt ->
  forall j w, nth_error (waitDurations evs) j = Some w ->
              jittered c (Z.max 1 attempt + Z.of_nat j) w.
Proof.
  revert fuel k attempt lastErr r evs.
  apply (loop_induction c env method path jsonData
           (fun k attempt lastErr r evs =>
              0 <= attempt ->
              forall j w, nth_error (waitDurations evs) j = Some w ->
                          jittered c (Z.max 1 attempt + Z.of_nat j) w)).
  - intros k attempt lastErr _ _ [|j] w H; discriminate.
  - intros k attempt lastErr r evs Hle E Hpos j w Hj.
    assert (Hev : exists tl, waitDurations tl = []
              /\ evs = (if 0 <? attempt
                        then [EvWait (calculateBackoff c attempt
                                        (secureRandomFloat (random (env k))))]
                        else []) ++ tl).
    { destruct (attemptOnce_returns _ _ _ _ _ _ _ _ E)
        as [[e [_ [_ [_ ->]]]]|[[e [_ [_ [_ ->]]]]
            |[status [body [_ [-> _]]]]]];
        [exists []; rewrite app_nil_r; split; reflexivity|..];
        (eexists; split; [|reflexivity]; reflexivity). }
    destruct Hev as [tl [Htl ->]].
    rewrite waitDurations_app, Htl, app_nil_r in Hj.
    destruct (0 <? attempt) eqn:H0; [|destruct j; discriminate].
    apply Z.ltb_lt in H0. destruct j as [|[|j]]; try discriminate.
    cbn in Hj. inversion Hj; subst w.
    replace (Z.max 1 attempt + Z.of_nat 0) with attempt by lia.
    apply backoff_jittered. lia.
  - intros k attempt lastErr e evs r evs' Hle E IH Hpos j w Hj.
    rewrite incr_no_overflow in IH by (unfold GoInt.min_int; lia).
    specialize (IH ltac:(lia)).
    destruct (attemptOnce_continues _ _ _ _ _ _ _ _ E) as [_ [_ ->]].
    rewrite !waitDurations_app in Hj.
    destruct (0 <? attempt) eqn:H0;
      [apply Z.ltb_lt in H0|apply Z.ltb_ge in H0]; cbn in Hj.
    + destruct j as [|j]; cbn in Hj.
      * inversion Hj; subst w.
        replace (Z.max 1 attempt + Z.of_nat 0) with attempt by lia.
        apply backoff_jittered. lia.
      * replace (Z.max 1 attempt + Z.of_nat (S j))
          with (Z.max 1 (attempt + 1) + Z.of_nat j) by lia.
        apply IH, Hj.
    + replace (Z.max 1 attempt + Z.of_nat j)
        with (Z.max 1 (attempt + 1) + Z.of_nat j) by lia.
      apply IH, Hj.
Qed.

End JitteredLoop.

Section Exhaustion.

Variable c : Client.
Variable env : nat -> iteration.
Variables method path : string.
Variable jsonData : option bytes.

Local Abbreviation once := (attemptOnce c method path jsonData).
Local Abbreviation loop := (retryLoop c env method path jsonData).

(** A loop that leaves at its condition has made every attempt that was
    left, each of them a failure that is retried. *)
Lemma loop_exhausted (fuel k : nat) (attempt : Z) (lastErr : option error)
  (r : result) (evs : list event) (n : Z) (cause : option error) :
  MaxRetries c + 1 <= GoInt.max_int ->
  loop fuel k attempt lastErr = Some (r, evs) ->
  r = Err (RetriesError n cause) ->
  0 <= attempt <= MaxRetries c + 1 ->
  attempts evs = Z.to_nat (MaxRetries c + 1 - attempt)
  /\ waits evs = Z.to_nat (MaxRetries c + 1 - Z.max 1 attempt)
  /\ cause = lastErrAfter env (attempts evs) k lastErr
  /\ (forall i, (i < attempts evs)%nat ->
                retried (recordedError (outcome (env (k + i)%nat))) = true).
Proof.
  intros Hint. revert fuel k attempt lastErr r evs.
  apply (loop_induction c env method path jsonData
           (fun k attempt lastErr r evs =>
              r = Err (RetriesError n cause) ->
              0 <= attempt <= MaxRetries c + 1 ->
              attempts evs = Z.to_nat (MaxRetries c + 1 - attempt)
              /\ waits evs = Z.to_nat (MaxRetries c + 1 - Z.max 1 attempt)
              /\ cause = lastErrAfter env (attempts evs) k lastErr
              /\ (forall i, (i < attempts evs)%nat ->
                    retried (recordedError (outcome (env (k + i)%nat)))
                    = true))).
  - intros k attempt lastErr Hlt H Ha. inversion H; subst.
    replace (Z.to_nat (MaxRetries c + 1 - attempt)) with 0%nat by lia.
    replace (Z.to_nat (MaxRetries c + 1 - Z.max 1 attempt)) with 0%nat by lia.
    cbn. repeat split. intros i Hi. lia.
  - intros k attempt lastErr r evs _ E H. subst r.
    destruct (attemptOnce_returns _ _ _ _ _ _ _ _ E)
      as [[e [_ [_ [H _]]]]|[[e [_ [_ [H _]]]]
          |[status [body [_ [_ [[_ H]|[_ H]]]]]]]]; discriminate.
  - intros k attempt lastErr e evs r evs' Hle E IH Hr Ha.
    rewrite incr_no_overflow in IH by (unfold GoInt.min_int; lia).
    destruct (IH Hr ltac:(lia)) as [Hn [Hw [Hc Hall]]].
    destruct (attemptOnce_continues _ _ _ _ _ _ _ _ E) as [Hret [He Hev]].
    destruct (attemptOnce_continue _ _ _ _ _ _ _ _ E) as [_ H1].
    pose proof (attemptOnce_waits c method path jsonData attempt (env k))
      as Hw1.
    rewrite E in Hw1. cbn [snd] in Hw1.
    rewrite attempts_app, waits_app, H1, Hn, Hw, Hw1.
    split; [lia|]. split.
    { destruct (0 <? attempt) eqn:H0;
        [apply Z.ltb_lt in H0|apply Z.ltb_ge in H0]; lia. }
    split.
    + rewrite Hc, Hn.
      destruct (Z.to_nat (MaxRetries c + 1 - (attempt + 1))) as [|m] eqn:Em;
        cbn [Nat.add lastErrAfter].
      * rewrite He, Nat.add_0_r. reflexivity.
      * do 4 f_equal. lia.
    + intros [|i] Hi.
      * rewrite Nat.add_0_r, <- He. exact Hret.
      * replace (k + S i)%nat with (S k + i)%nat by lia.
        apply Hall. rewrite Hn. lia.
Qed.

End Exhaustion.

Section EveryCall.

Variable Body : Type.
Variable json_Marshal : Body -> bytes + string.

Local Abbreviation call := (doRequestWithContext Body json_Marshal).

(** A call that returns: the serialization failed, or the loop
    returned. *)
Lemma call_cases (c : Client) (env : nat -> iteration) (fuel : nat)
  (method path : string) (body : option Body) (r : result)
  (t : list event) :
  call c env fuel method path body = Some (r, t) ->
  (exists cause, marshalled json_Marshal body = None
                 /\ r = Err (MarshalError cause) /\ t = marshalEvents body
                 /\ body <> None)
  \/ (exists jsonData evs,
        marshalled json_Marshal body = Some jsonData
        /\ retryLoop c env method path jsonData fuel 0 0 None = Some (r, evs)
        /\ t = marshalEvents body ++ evs).
Proof.
  unfold doRequestWithContext, marshalled, marshalEvents.
  destruct body as [b|].
  - destruct (json_Marshal b) as [d|cause].
    + destruct (retryLoop c env method path (Some d) fuel 0 0 None)
        as [[r0 evs]|] eqn:E; [|discriminate].
      intros H; inversion H; subst. right. eauto.
    + intros H; inversion H; subst. left. exists cause.
      repeat split. discriminate.
  - intros H. right. eauto.
Qed.

(** X4.  Whatever the network and the context do, a call returns, after at
    most [MaxRetries + 1] attempts and [MaxRetries] waits. *)
Theorem call_stays_within_budget (c : Client) (env : nat -> iteration)
  (fuel : nat) (method path : string) (body : option Body) :
  0 <= MaxRetries c ->
  MaxRetries c + 1 <= GoInt.max_int ->
  (Z.to_nat (MaxRetries c) + 2 <= fuel)%nat ->
  exists r t,
    call c env fuel method path body = Some (r, t)
    /\ Z.of_nat (attempts t) <= MaxRetries c + 1
    /\ Z.of_nat (waits t) <= MaxRetries c.
Proof.
  intros H0 Hint Hfuel.
  destruct (call_returns Body json_Marshal c env fuel method path body Hint)
    as [r [t E]]; [lia|].
  exists r, t. split; [exact E|].
  destruct (call_cases _ _ _ _ _ _ _ _ E)
    as [[cause [_ [_ [-> _]]]]|[jsonData [evs [_ [Hrun ->]]]]].
  - destruct body; cbn; lia.
  - rewrite attempts_app, waits_app, marshalEvents_attempts,
      marshalEvents_waits.
    destruct (loop_budget c env method path jsonData _ _ _ _ _ _ Hint Hrun ltac:(lia)).
    cbn [Nat.add]. lia.
Qed.

(** X5.  The events of a call follow each other as the code has them: the
    serialization of a body, a first attempt without a wait, then a wait
    before every further attempt.  A wait is the last event only when the
    context cut it short: the call then returns the context's error. *)
Theorem call_events_alternate (c : Client) (env : nat -> iteration)
  (fuel : nat) (method path : string) (body : option Body) (r : result)
  (t : list event) :
  MaxRetries c + 1 <= GoInt.max_int ->
  call c env fuel method path body = Some (r, t) ->
  exists evs,
    t = marshalEvents body ++ evs
    /\ loopShape evs = true
    /\ (forall t0 w, t = t0 ++ [EvWait w] ->
          exists e, r = Err (CtxError e)
                    /\ wait_done (env (attempts t)) = Some e).
Proof.
  intros Hint E.
  destruct (call_cases _ _ _ _ _ _ _ _ E)
    as [[cause [_ [_ [-> Hb]]]]|[jsonData [evs [_ [Hrun ->]]]]].
  - exists []. rewrite app_nil_r. split; [reflexivity|].
    split; [reflexivity|]. intros t0 w Ht.
    destruct body as [b|]; [|contradiction]. cbn in Ht.
    apply (app_inj_tail [] t0) in Ht. destruct Ht; discriminate.
  - exists evs. split; [reflexivity|]. split.
    { apply (loop_shape c env method path jsonData _ _ _ _ _ Hint Hrun). }
    intros t0 w Ht.
    destruct (exists_last (l := evs)) as [l [a Hl]].
    { intros ->. rewrite app_nil_r in Ht. destruct body as [b|]; cbn in Ht.
      - apply (app_inj_tail [] t0) in Ht. destruct Ht; discriminate.
      - destruct t0; discriminate. }
    assert (Ha : a = EvWait w).
    { rewrite Hl, app_assoc in Ht. apply app_inj_tail in Ht. apply Ht. }
    subst a.
    destruct (loop_trailing_wait c env method path jsonData _ _ _ _ _ _ _
                Hrun l Hl) as [e [Hr Hw]].
    exists e. split; [exact Hr|].
    rewrite attempts_app, marshalEvents_attempts. exact Hw.
Qed.

(** X6.  The errors of a call: the context's, the serialization's, a 4xx
    status, or the exhaustion of the retries, which wraps the failure of
    the last attempt.  No failure of a single attempt is returned as it
    is, and the exhaustion wraps nothing only when [MaxRetries] is
    negative. *)
Theorem call_errors (c : Client) (env : nat -> iteration) (fuel : nat)
  (method path : string) (body : option Body) (e : error)
  (t : list event) :
  call c env fuel method path body = Some (Err e, t) ->
  callError c e = true
  /\ (forall n, e = RetriesError n None ->
                MaxRetries c < 0 /\ attempts t = 0%nat).
Proof.
  intros E.
  destruct (call_cases _ _ _ _ _ _ _ _ E)
    as [[cause [_ [H [-> _]]]]|[jsonData [evs [_ [Hrun ->]]]]].
  - inversion H; subst. split; [reflexivity|discriminate].
  - split.
    + apply (loop_errors c env method path jsonData _ _ _ _ _ _ Hrun). exact I.
    + intros n ->.
      destruct (loop_no_cause c env method path jsonData _ _ _ _ _ _ _ Hrun eq_refl)
        as [_ [-> Hlt]].
      split; [exact Hlt|]. rewrite app_nil_r. apply marshalEvents_attempts.
Qed.

(** X7.  A body is returned only from an answer with a 2xx status: it is the
    body of the answer to the last attempt, which is the last event of
    the call. *)
Theorem success_is_the_last_answer (c : Client) (env : nat -> iteration)
  (fuel : nat) (method path : string) (body : option Body)
  (respBody : bytes) (t : list event) :
  call c env fuel method path body = Some (Ok respBody, t) ->
  exists n status t0 jsonData,
    attempts t = S n
    /\ outcome (env n) = Responds status respBody
    /\ 200 <= status < 300
    /\ t = t0 ++ [EvAttempt jsonData
                    (Some (buildRequest c method path jsonData))].
Proof.
  intros E.
  destruct (call_cases _ _ _ _ _ _ _ _ E)
    as [[cause [_ [H _]]]|[jsonData [evs [_ [Hrun ->]]]]]; [discriminate|].
  destruct (loop_success c env method path jsonData _ _ _ _ _ _ _ Hrun eq_refl)
    as [n [status [evs0 [Hn [Hout [Hs ->]]]]]].
  exists n, status, (marshalEvents body ++ evs0), jsonData.
  rewrite attempts_app, marshalEvents_attempts, app_assoc.
  repeat split; try assumption; lia.
Qed.

(** X8.  A 4xx status error is the answer to the last attempt: its status
    and its body, as a string, are those of the response. *)
Theorem client_error_is_the_last_answer (c : Client)
  (env : nat -> iteration) (fuel : nat) (method path : string)
  (body : option Body) (status : Z) (message : string) (t : list event) :
  call c env fuel method path body
  = Some (Err (StatusError status message), t) ->
  exists n answer,
    attempts t = S n
    /\ outcome (env n) = Responds status answer
    /\ message = string_of_bytes answer
    /\ 400 <= status < 500.
Proof.
  intros E.
  destruct (call_cases _ _ _ _ _ _ _ _ E)
    as [[cause [_ [H _]]]|[jsonData [evs [_ [Hrun ->]]]]]; [discriminate|].
  destruct (loop_client_error c env method path jsonData _ _ _ _ _ _ _ _
              Hrun eq_refl) as [n [answer [Hn H]]].
  exists n, answer. rewrite attempts_app, marshalEvents_attempts.
  split; [exact Hn|exact H].
Qed.

(** X9.  The context's error is returned only when the context is done:
    the wait before a retry was cut short and no attempt followed, or an
    attempt failed and found the context done. *)
Theorem cancellation_means_the_context_is_done (c : Client)
  (env : nat -> iteration) (fuel : nat) (method path : string)
  (body : option Body) (e : ctxError) (t : list event) :
  call c env fuel method path body = Some (Err (CtxError e), t) ->
  exists n,
    ((0 < n)%nat /\ wait_done (env n) = Some e /\ attempts t = n)
    \/ (ctx_err (env n) = Some e
        /\ failsAtTransport (outcome (env n)) = true
        /\ attempts t = S n).
Proof.
  intros E.
  destruct (call_cases _ _ _ _ _ _ _ _ E)
    as [[cause [_ [H _]]]|[jsonData [evs [_ [Hrun ->]]]]]; [discriminate|].
  destruct (loop_cancelled c env method path jsonData _ _ _ _ _ _ _
              Hrun eq_refl) as [n [[Hw [Hn Hpos]]|H]];
    exists n; rewrite attempts_app, marshalEvents_attempts; [left|right].
  - repeat split; try assumption. destruct Hpos as [Hpos|Hpos]; [lia|exact Hpos].
  - exact H.
Qed.

(** The requests of a call are those that [executeRequest] builds from
    its arguments and the serialized body. *)
Lemma call_requests_built (c : Client) (env : nat -> iteration)
  (fuel : nat) (method path : string) (body : option Body) (r : result)
  (t : list event) (q : request) :
  call c env fuel method path body = Some (r, t) ->
  In q (requestsSent t) ->
  exists jsonData,
    marshalled json_Marshal body = Some jsonData
    /\ q = buildRequest c method path jsonData.
Proof.
  intros E Hq.
  destruct (call_cases _ _ _ _ _ _ _ _ E)
    as [[cause [_ [_ [-> _]]]]|[jsonData [evs [Hm [Hrun ->]]]]].
  - destruct body; cbn in Hq; contradiction.
  - rewrite requestsSent_app in Hq. apply in_app_or in Hq.
    destruct Hq as [Hq|Hq]; [destruct body; cbn in Hq; contradiction|].
    pose proof (loop_requests c env method path jsonData _ _ _ _ _ _ Hrun)
      as Hall.
    rewrite Forall_forall in Hall. exists jsonData. split; [exact Hm|].
    exact (Hall q Hq).
Qed.

(** X10.  The requests that a call hands to [HTTPClient.Do], at most one
    for each attempt, are all the same: the method and the path of the
    call on [BaseURL], the API key in [X-SnitchDNS-Auth], the user agent
    unless it is empty, and the serialized body with its content type
    when there is a body.  (What the HTTP client makes of a request, a
    redirect for one, is outside [executeRequest].) *)
Theorem requests_of_a_call (c : Client) (env : nat -> iteration)
  (fuel : nat) (method path : string) (body : option Body) (r : result)
  (t : list event) (q : request) :
  call c env fuel method path body = Some (r, t) ->
  In q (requestsSent t) ->
  req_method q = method
  /\ req_url q = (BaseURL c ++ path)%string
  /\ marshalled json_Marshal body = Some (req_body q)
  /\ headerValue "X-SnitchDNS-Auth" (req_header q) = Some (APIKey c)
  /\ headerValue "User-Agent" (req_header q)
     = (if String.eqb (UserAgent c) "" then None else Some (UserAgent c))
  /\ headerValue "Content-Type" (req_header q)
     = match body with
       | Some _ => Some "application/json"%string
       | None => None
       end.
Proof.
  intros E Hq.
  destruct (call_requests_built _ _ _ _ _ _ _ _ _ E Hq) as [jsonData [Hm ->]].
  cbn [buildRequest req_method req_url req_body req_header].
  repeat split; try assumption;
    unfold marshalled in Hm;
    destruct body as [b|];
    try (destruct (json_Marshal b); [|discriminate]);
    inversion Hm; subst;
    destruct (String.eqb (UserAgent c) ""); reflexivity.
Qed.

(** X11.  Under [context.Background()] no call is cancelled: [doRequest]
    never returns the context's error, and its trace ends with an
    attempt. *)
Theorem doRequest_is_never_cancelled (c : Client) (env : nat -> iteration)
  (fuel : nat) (method path : string) (body : option Body) (r : result)
  (t : list event) :
  MaxRetries c + 1 <= GoInt.max_int ->
  doRequest Body json_Marshal c env fuel method path body = Some (r, t) ->
  (forall e, r <> Err (CtxError e))
  /\ (attempts t = 0%nat \/ attempts t = S (waits t)).
Proof.
  unfold doRequest. intros Hint E.
  destruct (call_cases _ _ _ _ _ _ _ _ E)
    as [[cause [_ [-> [-> _]]]]|[jsonData [evs [_ [Hrun ->]]]]].
  - split; [discriminate|]. left. apply marshalEvents_attempts.
  - destruct (loop_not_cancelled c (background env) method path jsonData _ _ _ _ _ _ Hint
                (fun j => conj eq_refl eq_refl) Hrun) as [Hr Hw].
    split; [exact Hr|]. specialize (Hw ltac:(lia)). cbn in Hw.
    rewrite attempts_app, waits_app, marshalEvents_attempts,
      marshalEvents_waits. cbn [Nat.add]. lia.
Qed.

(** X12.  The [i]-th wait of a call is [calculateBackoff(i)], computed with
    the random factor that [secureRandomFloat] draws at that iteration
    (iteration [i] of the loop, the first being iteration 0); it is
    within a quarter of its base once the nanoseconds are whole. *)
Theorem waits_are_jittered (c : Client) (env : nat -> iteration)
  (fuel : nat) (method path : string) (body : option Body) (r : result)
  (t : list event) (j : nat) (w : option Duration) :
  0 <= RetryWaitMin c <= 2 ^ 50 ->
  0 <= RetryWaitMax c <= 2 ^ 50 ->
  0 < RetryWaitMin c \/ MaxRetries c <= 1024 ->
  MaxRetries c + 1 <= GoInt.max_int ->
  (forall k, wellFormed (random (env k)) = true) ->
  call c env fuel method path body = Some (r, t) ->
  nth_error (waitDurations t) j = Some w ->
  w = calculateBackoff c (Z.of_nat j + 1)
        (secureRandomFloat (random (env (S j))))
  /\ jittered c (Z.of_nat j + 1) w.
Proof.
  intros Hmin Hmax Hnan Hint Hrand E Hj.
  destruct (call_cases _ _ _ _ _ _ _ _ E)
    as [[cause [_ [_ [-> _]]]]|[jsonData [evs [_ [Hrun ->]]]]].
  - destruct body; destruct j; discriminate.
  - rewrite waitDurations_app in Hj.
    replace (waitDurations (marshalEvents body)) with (@nil (option Duration))
      in Hj by (destruct body; reflexivity).
    cbn [app] in Hj.
    replace (Z.of_nat j + 1) with (Z.max 1 0 + Z.of_nat j) by lia.
    split.
    + rewrite (loop_waits_backoff c env method path jsonData _ _ _ _ _ _
                 Hint Hrun ltac:(lia) j w Hj).
      change (0 <? 0) with false. cbn iota.
      replace (0 + j + 1)%nat with (S j) by lia. reflexivity.
    + apply (loop_waits_jittered c env method path jsonData Hmin Hmax Hnan
               Hint Hrand _ _ _ _ _ _ Hrun); [lia|exact Hj].
Qed.

(** X13.  A call that gives up has made its [MaxRetries + 1] attempts and
    waited [MaxRetries] times; each attempt failed in a way that is
    retried, and the error wraps the failure of the last one. *)
Theorem exhaustion_means_every_attempt_failed (c : Client)
  (env : nat -> iteration) (fuel : nat) (method path : string)
  (body : option Body) (n : Z) (cause : option error) (t : list event) :
  0 <= MaxRetries c ->
  MaxRetries c + 1 <= GoInt.max_int ->
  call c env fuel method path body
  = Some (Err (RetriesError n cause), t) ->
  Z.of_nat (attempts t) = MaxRetries c + 1
  /\ Z.of_nat (waits t) = MaxRetries c
  /\ cause
     = Some (recordedError (outcome (env (Z.to_nat (MaxRetries c)))))
  /\ (forall k, (k < attempts t)%nat ->
                retried (recordedError (outcome (env k))) = true).
Proof.
  intros H0 Hint E.
  destruct (call_cases _ _ _ _ _ _ _ _ E)
    as [[e [_ [H _]]]|[jsonData [evs [_ [Hrun ->]]]]]; [discriminate|].
  destruct (loop_exhausted c env method path jsonData _ _ _ _ _ _ _ _
              Hint Hrun eq_refl ltac:(lia)) as [Hn [Hw [Hc Hall]]].
  rewrite attempts_app, waits_app, marshalEvents_attempts,
    marshalEvents_waits. cbn [Nat.add].
  split; [lia|]. split; [lia|]. split; [|exact Hall].
  rewrite Hc, Hn.
  replace (Z.to_nat (MaxRetries c + 1 - 0)) with (S (Z.to_nat (MaxRetries c)))
    by lia.
  reflexivity.
Qed.

End EveryCall.

Section Overflow.

Variable Body : Type.
Variable json_Marshal : Body -> bytes + string.

(** X14.  With [MaxRetries] the largest [int] the counter of the loop wraps
    around and its condition never fails: while the attempts fail and
    nothing cancels the waits, the call does not return. *)
Theorem call_runs_on_at_max_int (c : Client) (env : nat -> iteration)
  (fuel : nat) (method path : string) (body : option Body)
  (jsonData : option bytes) :
  MaxRetries c = GoInt.max_int ->
  marshalled json_Marshal body = Some jsonData ->
  (forall k, transient (env k) = true /\ uninterrupted (env k) = true) ->
  doRequestWithContext Body json_Marshal c env fuel method path body = None.
Proof.
  intros Hmax Hm Henv.
  rewrite (call_loop Body json_Marshal c env fuel method path body jsonData Hm).
  rewrite (loop_runs_on_at_max_int c env method path jsonData fuel 0 0 None
             Hmax Henv); [reflexivity|].
  unfold GoInt.min_int, GoInt.max_int. lia.
Qed.

End Overflow.

Section Defaults.

Variable Body : Type.
Variable json_Marshal : Body -> bytes + string.

Local Abbreviation call := (doRequestWithContext Body json_Marshal).

(** X15.  With the settings of [NewClient] a call makes at most four attempts
    and spends at most 8.75 seconds waiting between them; when it gives
    up it has waited 5.25 seconds or more. *)
Theorem default_client_budget (baseURL apiKey : string)
  (env : nat -> iteration) (fuel : nat) (method path : string)
  (body : option Body) :
  (5 <= fuel)%nat ->
  (forall k, wellFormed (random (env k)) = true) ->
  exists r t,
    call (NewClient baseURL apiKey) env fuel method path body = Some (r, t)
    /\ (attempts t <= 4)%nat
    /\ 0 <= totalWait t <= 8750 * Millisecond
    /\ (forall n cause, r = Err (RetriesError n cause) ->
                        5250 * Millisecond <= totalWait t).
Proof.
  intros Hfuel Hrand.
  set (c := NewClient baseURL apiKey).
  assert (Hint : MaxRetries c + 1 <= GoInt.max_int) by (cbn; unfold GoInt.max_int; lia).
  destruct (call_returns Body json_Marshal c env fuel method path body Hint)
    as [r [t E]]; [cbn; lia|].
  exists r, t. split; [exact E|].
  assert (Hj : forall j w, nth_error (waitDurations t) j = Some w ->
                           jittered c (Z.of_nat j + 1) w).
  { intros j w Hjw.
    destruct (call_cases _ _ _ _ _ _ _ _ _ _ E)
      as [[cause [_ [_ [Ht _]]]]|[jsonData [evs [_ [Hrun Ht]]]]];
      rewrite Ht in Hjw.
    - destruct body; destruct j; discriminate.
    - rewrite waitDurations_app in Hjw.
      replace (waitDurations (marshalEvents body))
        with (@nil (option Duration)) in Hjw by (destruct body; reflexivity).
      replace (Z.of_nat j + 1) with (Z.max 1 0 + Z.of_nat j) by lia.
      apply (loop_waits_jittered c env method path jsonData
               ltac:(cbn; lia) ltac:(cbn; lia) ltac:(cbn; lia) Hint Hrand
               _ _ _ _ _ _ Hrun); [lia|exact Hjw]. }
  assert (Hbud : (attempts t <= 4)%nat /\ (waits t <= 3)%nat).
  { destruct (call_cases _ _ _ _ _ _ _ _ _ _ E)
      as [[cause [_ [_ [-> _]]]]|[jsonData [evs [_ [Hrun ->]]]]].
    - destruct body; cbn; lia.
    - rewrite attempts_app, waits_app, marshalEvents_attempts,
        marshalEvents_waits.
      destruct (loop_budget c env method path jsonData _ _ _ _ _ _ Hint Hrun
                  ltac:(lia)) as [Ha Hw].
      cbn in Ha, Hw. cbn [Nat.add]. lia. }
  destruct Hbud as [Hatt Hwaits]. split; [exact Hatt|].
  assert (Hex : forall n cause, r = Err (RetriesError n cause) ->
                                waits t = 3%nat).
  { intros n cause ->.
    destruct (call_cases _ _ _ _ _ _ _ _ _ _ E)
      as [[e [_ [H _]]]|[jsonData [evs [_ [Hrun ->]]]]]; [discriminate|].
    destruct (loop_exhausted c env method path jsonData _ _ _ _ _ _ _ _
                Hint Hrun eq_refl ltac:(cbn; lia)) as [_ [Hw _]].
    rewrite waits_app, marshalEvents_waits, Hw. reflexivity. }
  rewrite waits_waitDurations in Hwaits, Hex. unfold totalWait.
  assert (B1 : backoffBase c (Z.of_nat 0 + 1) = 1000 * Millisecond) by reflexivity.
  assert (B2 : backoffBase c (Z.of_nat 1 + 1) = 2000 * Millisecond) by reflexivity.
  assert (B3 : backoffBase c (Z.of_nat 2 + 1) = 4000 * Millisecond) by reflexivity.
  unfold Millisecond in *.
  destruct (waitDurations t) as [|w1 [|w2 [|w3 [|w4 ws]]]];
    cbn [List.length] in Hwaits, Hex; try lia.
  - cbn. split; [lia|]. intros n cause Hr. specialize (Hex n cause Hr). lia.
  - destruct (Hj 0%nat w1 eq_refl) as [d1 [-> H1]]. rewrite B1 in H1.
    cbn [fold_right]. change (3 * (1000 * 1000000) / 4) with 750000000 in H1.
    change (5 * (1000 * 1000000) / 4) with 1250000000 in H1.
    split; [lia|]. intros n cause Hr. specialize (Hex n cause Hr). lia.
  - destruct (Hj 0%nat w1 eq_refl) as [d1 [-> H1]]. rewrite B1 in H1.
    destruct (Hj 1%nat w2 eq_refl) as [d2 [-> H2]]. rewrite B2 in H2.
    cbn [fold_right]. change (3 * (1000 * 1000000) / 4) with 750000000 in H1.
    change (5 * (1000 * 1000000) / 4) with 1250000000 in H1.
    change (3 * (2000 * 1000000) / 4) with 1500000000 in H2.
    change (5 * (2000 * 1000000) / 4) with 2500000000 in H2.
    split; [lia|]. intros n cause Hr. specialize (Hex n cause Hr). lia.
  - destruct (Hj 0%nat w1 eq_refl) as [d1 [-> H1]]. rewrite B1 in H1.
    destruct (Hj 1%nat w2 eq_refl) as [d2 [-> H2]]. rewrite B2 in H2.
    destruct (Hj 2%nat w3 eq_refl) as [d3 [-> H3]]. rewrite B3 in H3.
    cbn [fold_right]. change (3 * (1000 * 1000000) / 4) with 750000000 in H1.
    change (5 * (1000 * 1000000) / 4) with 1250000000 in H1.
    change (3 * (2000 * 1000000) / 4) with 1500000000 in H2.
    change (5 * (2000 * 1000000) / 4) with 2500000000 in H2.
    change (3 * (4000 * 1000000) / 4) with 3000000000 in H3.
    change (5 * (4000 * 1000000) / 4) with 5000000000 in H3.
    split; [lia|]. intros n cause Hr. lia.
Qed.

End Defaults.

(** ** The functions of the API *)

Section ApiFacts.

Variable unmarshalZone : bytes -> Zone + string.
Variable unmarshalRecord : bytes -> recordFields + string.
Variable unmarshalMap : string -> option jsonMap + string.
Variable Body : Type.
Variable json_Marshal : Body -> bytes + string.

Local Abbreviation call := (doRequestWithContext Body json_Marshal).

Lemma call_last_answer (c : Client) (env : nat -> iteration) (fuel : nat)
  (method path : string) (body : option Body) (respBody : bytes)
  (t : list event) :
  call c env fuel method path body = Some (Ok respBody, t) ->
  lastAnswer env t respBody.
Proof.
  intros E.
  destruct (call_cases _ _ _ _ _ _ _ _ _ _ E)
    as [[cause [_ [H _]]]|[jsonData [evs [_ [Hrun ->]]]]]; [discriminate|].
  destruct (loop_success c env method path jsonData _ _ _ _ _ _ _ Hrun eq_refl)
    as [n [status [evs0 [Hn [Hout [Hs _]]]]]].
  exists n, status.
  rewrite attempts_app, marshalEvents_attempts. repeat split; try assumption; lia.
Qed.

Lemma call_error (c : Client) (env : nat -> iteration) (fuel : nat)
  (method path : string) (body : option Body) (e : error)
  (t : list event) :
  call c env fuel method path body = Some (Err e, t) ->
  callError c e = true.
Proof.
  intros E.
  destruct (call_cases _ _ _ _ _ _ _ _ _ _ E)
    as [[cause [_ [H [-> _]]]]|[jsonData [evs [_ [Hrun ->]]]]].
  - inversion H; subst. reflexivity.
  - apply (loop_errors c env method path jsonData _ _ _ _ _ _ Hrun). exact I.
Qed.

Lemma background_last_answer (env : nat -> iteration) (t : list event)
  (respBody : bytes) :
  lastAnswer (background env) t respBody <-> lastAnswer env t respBody.
Proof. split; intros [n [status H]]; exists n, status; exact H. Qed.

(** A call whose last attempt is answered with a 2xx status returns the
    body of that answer. *)
Lemma call_answered (c : Client) (env : nat -> iteration) (fuel : nat)
  (method path : string) (body : option Body) (r : result)
  (t : list event) (respBody : bytes) :
  call c env fuel method path body = Some (r, t) ->
  lastAnswer env t respBody -> r = Ok respBody.
Proof.
  intros E [n [status [Hn [Hout Hs]]]].
  destruct (call_cases _ _ _ _ _ _ _ _ _ _ E)
    as [[cause [_ [_ [-> _]]]]|[jsonData [evs [_ [Hrun ->]]]]].
  - rewrite marshalEvents_attempts in Hn. discriminate.
  - rewrite attempts_app, marshalEvents_attempts in Hn.
    apply (loop_answered c env method path jsonData _ _ _ _ _ _ _ _
             Hrun n Hn Hout Hs).
Qed.

(** What [decodeZone] makes of a call. *)
Lemma decodeZone_spec (c : Client) (env : nat -> iteration) (fuel : nat)
  (method path : string) (body : option Body) (res : Zone + error)
  (t : list event) :
  decodeZone unmarshalZone (call c env fuel method path body)
  = Some (res, t) ->
  match res with
  | inl zone =>
      exists respBody,
        call c env fuel method path body = Some (Ok respBody, t)
        /\ lastAnswer env t respBody
        /\ unmarshalZone respBody = inl zone
  | inr (ParseResponseError cause) =>
      exists respBody,
        call c env fuel method path body = Some (Ok respBody, t)
        /\ lastAnswer env t respBody
        /\ unmarshalZone respBody = inr cause
  | inr e =>
      call c env fuel method path body = Some (Err e, t)
      /\ callError c e = true
  end.
Proof.
  unfold decodeZone.
  destruct (call c env fuel method path body) as [[[respBody|e] evs]|] eqn:E;
    [| |discriminate].
  - pose proof (call_last_answer _ _ _ _ _ _ _ _ E) as Hl.
    destruct (unmarshalZone respBody) as [zone|cause] eqn:Ez;
      intros H; inversion H; subst; eauto.
  - pose proof (call_error _ _ _ _ _ _ _ _ E) as He.
    intros H; inversion H; subst.
    destruct e; try discriminate; split; (reflexivity || assumption).
Qed.

(** X16.  [CreateZone], [GetZone], [GetZoneWithContext] and [UpdateZone]
    make one call, [run].  The zone they return is decoded from the body
    that this call returned, the body of a 2xx answer to its last
    attempt.  When that body does not decode the function fails with the
    parse error, and no further attempt is made; every other error is
    the error that the call returned, passed on as it is. *)
Theorem zone_is_decoded_from_the_last_answer (c : Client)
  (env : nat -> iteration) (fuel : nat) (id : string) (req : Body)
  (res : Zone + error) (t : list event)
  (run : option (result * list event)) :
  (CreateZone unmarshalZone Body json_Marshal c env fuel req = Some (res, t)
   /\ run = doRequest Body json_Marshal c env fuel "POST" "/zones" (Some req))
  \/ (GetZone unmarshalZone Body json_Marshal c env fuel id = Some (res, t)
      /\ run = call c (background env) fuel "GET" ("/zones/" ++ id)%string
                 None)
  \/ (GetZoneWithContext unmarshalZone Body json_Marshal c env fuel id
      = Some (res, t)
      /\ run = call c env fuel "GET" ("/zones/" ++ id)%string None)
  \/ (UpdateZone unmarshalZone Body json_Marshal c env fuel id req
      = Some (res, t)
      /\ run = doRequest Body json_Marshal c env fuel "POST"
                 ("/zones/" ++ id)%string (Some req)) ->
  match res with
  | inl zone =>
      exists respBody,
        run = Some (Ok respBody, t)
        /\ lastAnswer env t respBody
        /\ unmarshalZone respBody = inl zone
  | inr (ParseResponseError cause) =>
      exists respBody,
        run = Some (Ok respBody, t)
        /\ lastAnswer env t respBody
        /\ unmarshalZone respBody = inr cause
  | inr e => run = Some (Err e, t) /\ callError c e = true
  end.
Proof.
  unfold CreateZone, GetZone, GetZoneWithContext, UpdateZone, doRequest.
  intros [[H ->]|[[H ->]|[[H ->]|[H ->]]]]; apply decodeZone_spec in H;
    destruct res as [zone|[]]; try exact H;
    destruct H as [respBody [Hr [Hl Hz]]]; exists respBody;
    (split; [exact Hr|]); (split; [|exact Hz]); try exact Hl;
    apply background_last_answer, Hl.
Qed.

(** X17.  [DeleteZone] and [DeleteRecord] make one call, [run], and return
    its error: nil exactly when the last attempt of the call was answered
    with a 2xx status, whatever the body of the answer is, and otherwise
    the error that the call returned, as it is.  The requests they hand
    to [HTTPClient.Do] are [DELETE]s without a body and without a content
    type. *)
Theorem delete_succeeds_on_any_2xx_answer (c : Client)
  (env : nat -> iteration) (fuel : nat) (zoneID recordID : string)
  (res : option error) (t : list event)
  (run : option (result * list event)) :
  (DeleteZone Body json_Marshal c env fuel zoneID = Some (res, t)
   /\ run = doRequest Body json_Marshal c env fuel "DELETE"
              ("/zones/" ++ zoneID)%string None)
  \/ (DeleteRecord Body json_Marshal c env fuel zoneID recordID
      = Some (res, t)
      /\ run = doRequest Body json_Marshal c env fuel "DELETE"
                 ("/zones/" ++ zoneID ++ "/records/" ++ recordID)%string
                 None) ->
  match res with
  | None => exists respBody, run = Some (Ok respBody, t)
                             /\ lastAnswer env t respBody
  | Some e => run = Some (Err e, t) /\ callError c e = true
  end
  /\ (forall respBody, lastAnswer env t respBody -> res = None)
  /\ (forall q, In q (requestsSent t) ->
                req_method q = "DELETE"%string /\ req_body q = None
                /\ headerValue "Content-Type" (req_header q) = None).
Proof.
  unfold DeleteZone, DeleteRecord, doRequest, errorOf.
  intros [[H ->]|[H ->]];
    match type of H with
    | match ?run with _ => _ end = _ =>
        destruct run as [[[respBody|e] evs]|] eqn:E; [| |discriminate]
    end;
    inversion H; subst; clear H;
    (split;
     [first [ exists respBody; split; [reflexivity|];
              apply background_last_answer, (call_last_answer _ _ _ _ _ _ _ _ E)
            | split; [reflexivity|apply (call_error _ _ _ _ _ _ _ _ E)] ]
     | split;
       [ intros b Hb; apply background_last_answer in Hb;
         pose proof (call_answered _ _ _ _ _ _ _ _ _ E Hb) as Hr;
         first [reflexivity|discriminate]
       | intros q Hq;
         destruct (call_requests_built Body json_Marshal _ _ _ _ _ _ _ _ q E Hq)
           as [jsonData [Hm ->]];
         cbn in Hm; inversion Hm; subst jsonData;
         cbn [buildRequest req_method req_body req_header];
         destruct (String.eqb (UserAgent c) ""); repeat split ] ]).
Qed.

Local Abbreviation decode := (decodeRecord unmarshalRecord unmarshalMap).

(** The errors of the two passes, the outer decode first, then [data],
    then [conditional_data]. *)
Lemma decodeRecord_errors (respBody : bytes) (e : error) :
  decode respBody = inr e ->
  match e with
  | ParseResponseError cause => unmarshalRecord respBody = inr cause
  | ParseDataError cause =>
      exists f, unmarshalRecord respBody = inl f
                /\ f_data f <> ""%string
                /\ unmarshalMap (f_data f) = inr cause
  | ParseConditionalDataError cause =>
      exists f, unmarshalRecord respBody = inl f
                /\ (f_data f = ""%string
                    \/ exists m, unmarshalMap (f_data f) = inl m)
                /\ f_conditional_data f <> ""%string
                /\ f_conditional_data f <> emptyJSON
                /\ unmarshalMap (f_conditional_data f) = inr cause
  | _ => False
  end.
Proof.
  unfold decodeRecord, DataRaw, ConditionalDataRaw.
  destruct (unmarshalRecord respBody) as [f|cause];
    [|intros H; inversion H; reflexivity].
  cbn [fields Data ConditionalData].
  destruct (String.eqb_spec (f_data f) "") as [Hd|Hd]; cbn [negb].
  - cbn [fields].
    destruct (String.eqb_spec (f_conditional_data f) "") as [Hc|Hc];
      cbn [negb andb]; [discriminate|].
    destruct (String.eqb_spec (f_conditional_data f) emptyJSON) as [Hs|Hs];
      cbn [negb]; [discriminate|].
    destruct (unmarshalMap (f_conditional_data f)) as [m|cause] eqn:Em;
      [discriminate|].
    intros H. inversion H. exists f. repeat split; auto.
  - destruct (unmarshalMap (f_data f)) as [md|cause] eqn:Ed.
    + cbn [fields].
      destruct (String.eqb_spec (f_conditional_data f) "") as [Hc|Hc];
        cbn [negb andb]; [discriminate|].
      destruct (String.eqb_spec (f_conditional_data f) emptyJSON) as [Hs|Hs];
        cbn [negb]; [discriminate|].
      destruct (unmarshalMap (f_conditional_data f)) as [m|cause] eqn:Em;
        [discriminate|].
      intros H. inversion H. exists f. repeat split; eauto.
    + intros H. inversion H. exists f. repeat split; auto.
Qed.

(** X18.  [CreateRecord], [GetRecord] and [UpdateRecord] make one call,
    [run].  An error of theirs is the error that this call returned,
    passed on as it is, or comes from the body that the call returned,
    the body of the 2xx answer to its last attempt: from its outer
    decode, else from its [data], else from its [conditional_data]; a
    record whose nested text does not parse is not returned, and the
    request is not made again. *)
Theorem record_errors_come_in_order (c : Client) (env : nat -> iteration)
  (fuel : nat) (zoneID recordID : string) (req : Body) (e : error)
  (t : list event) (run : option (result * list event)) :
  (CreateRecord unmarshalRecord unmarshalMap Body json_Marshal c env fuel
     zoneID req = Some (inr e, t)
   /\ run = doRequest Body json_Marshal c env fuel "POST"
              ("/zones/" ++ zoneID ++ "/records")%string (Some req))
  \/ (GetRecord unmarshalRecord unmarshalMap Body json_Marshal c env fuel
        zoneID recordID = Some (inr e, t)
      /\ run = doRequest Body json_Marshal c env fuel "GET"
                 ("/zones/" ++ zoneID ++ "/records/" ++ recordID)%string
                 None)
  \/ (UpdateRecord unmarshalRecord unmarshalMap Body json_Marshal c env fuel
        zoneID recordID req = Some (inr e, t)
      /\ run = doRequest Body json_Marshal c env fuel "POST"
                 ("/zones/" ++ zoneID ++ "/records/" ++ recordID)%string
                 (Some req)) ->
  match e with
  | ParseResponseError cause =>
      exists respBody,
        run = Some (Ok respBody, t)
        /\ lastAnswer env t respBody
        /\ unmarshalRecord respBody = inr cause
  | ParseDataError cause =>
      exists respBody f,
        run = Some (Ok respBody, t)
        /\ lastAnswer env t respBody
        /\ unmarshalRecord respBody = inl f
        /\ f_data f <> ""%string
        /\ unmarshalMap (f_data f) = inr cause
  | ParseConditionalDataError cause =>
      exists respBody f,
        run = Some (Ok respBody, t)
        /\ lastAnswer env t respBody
        /\ unmarshalRecord respBody = inl f
        /\ (f_data f = ""%string \/ exists m, unmarshalMap (f_data f) = inl m)
        /\ f_conditional_data f <> ""%string
        /\ f_conditional_data f <> emptyJSON
        /\ unmarshalMap (f_conditional_data f) = inr cause
  | _ => run = Some (Err e, t) /\ callError c e = true
  end.
Proof.
  assert (Hrun : forall method path body,
            decodeResponse unmarshalRecord unmarshalMap
              (doRequest Body json_Marshal c env fuel method path body)
            = Some (inr e, t) ->
            (exists respBody,
               doRequest Body json_Marshal c env fuel method path body
               = Some (Ok respBody, t)
               /\ lastAnswer env t respBody
               /\ decode respBody = inr e)
            \/ (doRequest Body json_Marshal c env fuel method path body
                = Some (Err e, t)
                /\ callError c e = true)).
  { intros method path body. unfold doRequest, decodeResponse.
    destruct (call c (background env) fuel method path body)
      as [[[respBody|e0] evs]|] eqn:E; [| |discriminate];
      intros H; inversion H; subst.
    - left. exists respBody. split; [reflexivity|]. split; [|reflexivity].
      apply background_last_answer, (call_last_answer _ _ _ _ _ _ _ _ E).
    - right. split; [reflexivity|]. apply (call_error _ _ _ _ _ _ _ _ E). }
  unfold CreateRecord, GetRecord, UpdateRecord.
  intros [[H ->]|[[H ->]|[H ->]]]; apply Hrun in H;
    (destruct H as [[respBody [Hr [Hl Hd]]]|[Hr He]];
     [ apply decodeRecord_errors in Hd;
       destruct e; try contradiction;
       [ exists respBody; repeat (split; [assumption|]); assumption
       | destruct Hd as [f Hf]; exists respBody, f;
         repeat (split; [assumption|]); assumption
       | destruct Hd as [f Hf]; exists respBody, f;
         repeat (split; [assumption|]); assumption ]
     | destruct e; try discriminate; split; assumption ]).
Qed.

End ApiFacts.

(** ** The provider's configuration *)

Section ProviderFacts.

Import Provider.

Lemma Equal_eq (a b : diagnostic) : Equal a b = true -> a = b.
Proof.
  destruct a as [sa pa ua da], b as [sb pb ub db]. unfold Equal.
  cbn [Severity AttributePath Summary Detail]. intros H.
  apply andb_prop in H. destruct H as [H Hd].
  apply andb_prop in H. destruct H as [H Hu].
  apply andb_prop in H. destruct H as [Hs Hp].
  apply String.eqb_eq in Hd, Hu. subst.
  assert (sa = sb) by (destruct sa, sb; try discriminate; reflexivity).
  assert (pa = pb).
  { destruct pa, pb; try discriminate; [|reflexivity].
    apply String.eqb_eq in Hp. now subst. }
  now subst.
Qed.

Lemma Equal_refl (a : diagnostic) : Equal a a = true.
Proof.
  destruct a as [sa pa ua da]. unfold Equal.
  cbn [Severity AttributePath Summary Detail].
  rewrite !String.eqb_refl. destruct sa, pa; cbn;
    rewrite ?String.eqb_refl; reflexivity.
Qed.

Lemma Contains_In (diags : list diagnostic) (d : diagnostic) :
  Contains diags d = true <-> In d diags.
Proof.
  unfold Contains. rewrite existsb_exists. split.
  - intros [d' [Hin He]]. apply Equal_eq in He. now subst.
  - intros Hin. exists d. split; [exact Hin|apply Equal_refl].
Qed.

(** What [Append] keeps and adds. *)
Lemma Append_In (new diags : list diagnostic) (d : diagnostic) :
  In d (Append diags new) <-> In d diags \/ In d new.
Proof.
  unfold Append. revert diags.
  induction new as [|x new IH]; intros diags; cbn [fold_left].
  - cbn. tauto.
  - rewrite IH. destruct (Contains diags x) eqn:Ec.
    + apply Contains_In in Ec. cbn. intuition (subst; auto).
    + rewrite in_app_iff. cbn. tauto.
Qed.

Lemma HasError_In (diags : list diagnostic) :
  HasError diags = true
  <-> exists d, In d diags /\ Severity d = SeverityError.
Proof.
  unfold HasError. rewrite existsb_exists.
  split; intros [d [Hin H]]; exists d; (split; [exact Hin|]).
  - destruct (Severity d); try discriminate; reflexivity.
  - rewrite H. reflexivity.
Qed.

Lemma HasError_Append (diags new : list diagnostic) :
  HasError (Append diags new) = HasError diags || HasError new.
Proof.
  apply eq_true_iff_eq. rewrite orb_true_iff, !HasError_In.
  split.
  - intros [d [Hin H]]. apply Append_In in Hin.
    destruct Hin; [left|right]; eauto.
  - intros [[d [Hin H]]|[d [Hin H]]]; exists d;
      (split; [apply Append_In; auto|exact H]).
Qed.

(** X19.  [Configure] hands [NewClient] the settings in force exactly when it
    reports no error: the configured value of each setting when it is not
    empty, the environment's otherwise, and neither of them empty.  With
    an error the response keeps the data it had; the log gets the URL
    and never the key. *)
Theorem configure_creates_the_client_or_reports (read : list diagnostic)
  (data : SnitchDNSProviderModel) (getenv : string -> string)
  (resp : ConfigureResponse) :
  let apiURL := effective (APIUrl data) getenv "SNITCHDNS_API_URL" in
  let apiKey := effective (APIKey data) getenv "SNITCHDNS_API_KEY" in
  let resp' := fst (Configure read data getenv resp) in
  let logged := snd (Configure read data getenv resp) in
  if HasError (Diagnostics resp') then
    DataSourceData resp' = DataSourceData resp
    /\ ResourceData resp' = ResourceData resp
    /\ logged = []
  else
    apiURL <> ""%string /\ apiKey <> ""%string
    /\ DataSourceData resp' = Some (NewClient apiURL apiKey)
    /\ ResourceData resp' = Some (NewClient apiURL apiKey)
    /\ logged = [{| Message := "Configuring SnitchDNS client";
                    Fields := [("api_url"%string, apiURL)] |}].
Proof.
  cbv zeta. unfold Configure, effective, AddAttributeError.
  destruct (HasError (Append (Diagnostics resp) read)) eqn:E0.
  - cbn [fst snd Diagnostics DataSourceData ResourceData]. rewrite E0.
    repeat split.
  - set (apiURL := if String.eqb (APIUrl data) ""
                   then getenv "SNITCHDNS_API_URL"%string else APIUrl data).
    set (apiKey := if String.eqb (APIKey data) ""
                   then getenv "SNITCHDNS_API_KEY"%string else APIKey data).
    set (diags0 := Append (Diagnostics resp) read) in *.
    fold missingURLDiagnostic missingKeyDiagnostic.
    assert (EU : HasError [missingURLDiagnostic] = true) by reflexivity.
    assert (EK : HasError [missingKeyDiagnostic] = true) by reflexivity.
    destruct (String.eqb_spec apiURL "") as [Hu|Hu];
      destruct (String.eqb_spec apiKey "") as [Hk|Hk];
      rewrite ?HasError_Append, ?E0, ?EU, ?EK; cbn [orb];
      cbn [fst snd Diagnostics DataSourceData ResourceData];
      rewrite ?HasError_Append, ?E0, ?EU, ?EK; cbn [orb];
      repeat split; assumption.
Qed.

(** X20.  [Configure] loses no diagnostic, and when nothing went wrong before
    it reports every setting that is missing, not only the first. *)
Theorem configure_reports_every_missing_setting (read : list diagnostic)
  (data : SnitchDNSProviderModel) (getenv : string -> string)
  (resp : ConfigureResponse) :
  let resp' := fst (Configure read data getenv resp) in
  (forall d, In d (Diagnostics resp) \/ In d read ->
             In d (Diagnostics resp'))
  /\ (HasError (Diagnostics resp) = false -> HasError read = false ->
      (effective (APIUrl data) getenv "SNITCHDNS_API_URL" = ""%string ->
       In missingURLDiagnostic (Diagnostics resp'))
      /\ (effective (APIKey data) getenv "SNITCHDNS_API_KEY" = ""%string ->
          In missingKeyDiagnostic (Diagnostics resp'))).
Proof.
  cbv zeta. unfold Configure, effective, AddAttributeError.
  fold missingURLDiagnostic missingKeyDiagnostic.
  set (apiURL := if String.eqb (APIUrl data) ""
                 then getenv "SNITCHDNS_API_URL"%string else APIUrl data).
  set (apiKey := if String.eqb (APIKey data) ""
                 then getenv "SNITCHDNS_API_KEY"%string else APIKey data).
  set (diags0 := Append (Diagnostics resp) read).
  split.
  - intros d Hd. apply (Append_In read) in Hd. fold diags0 in Hd.
    destruct (HasError diags0); [exact Hd|].
    destruct (String.eqb apiURL ""), (String.eqb apiKey "");
      match goal with
      | |- context [if ?b then _ else _] => destruct b
      end;
      cbn [fst Diagnostics]; rewrite ?Append_In; auto.
  - intros H1 H2.
    assert (E0 : HasError diags0 = false).
    { unfold diags0. rewrite HasError_Append, H1, H2. reflexivity. }
    rewrite E0.
    split; intros H; rewrite ?H; cbn [String.eqb];
      match goal with
      | |- context [if ?b then _ else _] => destruct b
      end;
      match goal with
      | |- context [if ?b then _ else _] => destruct b
      | _ => idtac
      end;
      cbn [fst Diagnostics]; rewrite ?Append_In; cbn; auto.
Qed.

End ProviderFacts.

(** ** The API key of the test container *)

Section TestcontainerFacts.

Import Testcontainer.

Local Open Scope string_scope.

Lemma HasPrefix_spec (p s : string) :
  HasPrefix s p = true <-> exists r, s = p ++ r.
Proof.
  revert s. induction p as [|a p IH]; intros s; cbn [HasPrefix].
  - split; [intros _; exists s; reflexivity|reflexivity].
  - destruct s as [|b s].
    + split; [discriminate|]. intros [r H]. discriminate.
    + rewrite andb_true_iff, IH. split.
      * intros [Hab [r ->]]. apply Ascii.eqb_eq in Hab. subst.
        exists r. reflexivity.
      * intros [r H]. cbn in H. inversion H; subst.
        split; [apply Ascii.eqb_refl|eauto].
Qed.

Lemma from_app (p r : string) : from (String.length p) (p ++ r) = r.
Proof. induction p as [|a p IH]; cbn; auto. Qed.

Lemma upto_app (p r : string) : upto (String.length p) (p ++ r) = p.
Proof. induction p as [|a p IH]; cbn; [destruct r|]; congruence. Qed.

Lemma string_length_app (p r : string) :
  String.length (p ++ r) = (String.length p + String.length r)%nat.
Proof. induction p as [|a p IH]; cbn; auto. Qed.

Lemma upto_from (n : nat) (s : string) : upto n s ++ from n s = s.
Proof.
  revert s. induction n as [|n IH]; intros [|a s]; cbn; try reflexivity.
  now rewrite IH.
Qed.

Lemma string_app_nil_r (s : string) : s ++ "" = s.
Proof. induction s as [|a s IH]; cbn; congruence. Qed.

Lemma string_app_assoc (a b c : string) : (a ++ b) ++ c = a ++ b ++ c.
Proof. induction a as [|x a IH]; cbn; congruence. Qed.

Lemma reverse_app (a b : string) : reverse (a ++ b) = reverse b ++ reverse a.
Proof.
  unfold reverse.
  assert (H : forall x y, list_ascii_of_string (x ++ y)
              = (list_ascii_of_string x ++ list_ascii_of_string y)%list).
  { induction x as [|c x IH]; intros y; cbn; [reflexivity|now rewrite IH]. }
  assert (G : forall x y, string_of_list_ascii (x ++ y)%list
              = string_of_list_ascii x ++ string_of_list_ascii y).
  { induction x as [|c x IH]; intros y; cbn; [reflexivity|now rewrite IH]. }
  now rewrite H, rev_app_distr, G.
Qed.

Lemma reverse_involutive (s : string) : reverse (reverse s) = s.
Proof.
  unfold reverse.
  rewrite list_ascii_of_string_of_list_ascii, rev_involutive.
  apply string_of_list_ascii_of_string.
Qed.

Lemma upto_length (s : string) : upto (String.length s) s = s.
Proof. induction s as [|a s IH]; cbn; congruence. Qed.

Lemma upto_prefix (n : nat) (r x : string) :
  upto n r = upto (Nat.min n (String.length r)) (r ++ x).
Proof.
  revert n. induction r as [|a r IH]; intros [|n]; cbn; try reflexivity.
  f_equal. apply IH.
Qed.

(** Every rune of space is at least one byte long. *)
Lemma spaceRunes_not_empty (rune : string) :
  In rune spaceRunes -> (1 <= String.length rune)%nat.
Proof.
  assert (H : forallb (fun r => (1 <=? String.length r)%nat) spaceRunes = true)
    by reflexivity.
  rewrite forallb_forall in H. intros Hin. apply Nat.leb_le, H, Hin.
Qed.

Lemma leadingSpace_Some (s rune : string) :
  leadingSpace s = Some rune ->
  In rune spaceRunes /\ exists r, s = rune ++ r.
Proof.
  unfold leadingSpace. intros H. apply find_some in H.
  destruct H as [Hin Hp]. apply HasPrefix_spec in Hp. auto.
Qed.

Lemma trailingSpace_Some (s rune : string) :
  trailingSpace s = Some rune ->
  In rune spaceRunes /\ exists r, s = r ++ rune.
Proof.
  unfold trailingSpace. intros H. apply find_some in H.
  destruct H as [Hin Hp]. apply HasPrefix_spec in Hp.
  destruct Hp as [r Hr]. split; [exact Hin|]. exists (reverse r).
  rewrite <- (reverse_involutive s), Hr, reverse_app, reverse_involutive.
  reflexivity.
Qed.

Lemma leadingSpace_None (s : string) :
  leadingSpace s = None <->
  forall rune r, In rune spaceRunes -> s <> rune ++ r.
Proof.
  unfold leadingSpace. split.
  - intros H rune r Hin ->.
    apply (find_none _ _ H) in Hin.
    assert (Ht : HasPrefix (rune ++ r) rune = true)
      by (apply HasPrefix_spec; eauto).
    congruence.
  - intros H. destruct (find (HasPrefix s) spaceRunes) as [rune|] eqn:E;
      [|reflexivity].
    apply find_some in E. destruct E as [Hin Hp].
    apply HasPrefix_spec in Hp. destruct Hp as [r Hr].
    exfalso. exact (H rune r Hin Hr).
Qed.

Lemma trailingSpace_None (s : string) :
  trailingSpace s = None <->
  forall rune r, In rune spaceRunes -> s <> r ++ rune.
Proof.
  split.
  - intros H rune r Hin ->. unfold trailingSpace in H.
    apply (find_none _ _ H) in Hin. cbv beta in Hin.
    rewrite reverse_app in Hin.
    assert (Ht : HasPrefix (reverse rune ++ reverse r) (reverse rune) = true)
      by (apply HasPrefix_spec; eauto).
    congruence.
  - intros H. destruct (trailingSpace s) as [rune|] eqn:E; [|reflexivity].
    apply trailingSpace_Some in E. destruct E as [Hin [r Hr]].
    exfalso. exact (H rune r Hin Hr).
Qed.

(** What [trimLeft] gives is the end of the string, and begins with no
    rune of space. *)
Lemma trimLeft_spec (fuel : nat) : forall s,
  (String.length s <= fuel)%nat ->
  leadingSpace (trimLeft fuel s) = None
  /\ exists n, trimLeft fuel s = from n s.
Proof.
  induction fuel as [|fuel IH]; intros s Hlen; cbn [trimLeft].
  - destruct s; [|cbn in Hlen; lia]. split; [reflexivity|].
    exists 0%nat. reflexivity.
  - destruct (leadingSpace s) as [rune|] eqn:E.
    + destruct (leadingSpace_Some _ _ E) as [Hin [r ->]].
      pose proof (spaceRunes_not_empty _ Hin) as H1.
      rewrite from_app. rewrite string_length_app in Hlen.
      destruct (IH r ltac:(lia)) as [Hl [n Hn]].
      split; [exact Hl|]. exists (String.length rune + n)%nat.
      rewrite Hn. clear. induction rune as [|a rune IHr]; cbn; auto.
    + split; [exact E|]. exists 0%nat. reflexivity.
Qed.

Lemma trimRight_spec (fuel : nat) : forall s,
  (String.length s <= fuel)%nat ->
  trailingSpace (trimRight fuel s) = None
  /\ exists n, trimRight fuel s = upto n s.
Proof.
  induction fuel as [|fuel IH]; intros s Hlen; cbn [trimRight].
  - destruct s; [|cbn in Hlen; lia]. split; [reflexivity|].
    exists 0%nat. reflexivity.
  - destruct (trailingSpace s) as [rune|] eqn:E.
    + destruct (trailingSpace_Some _ _ E) as [Hin [r ->]].
      pose proof (spaceRunes_not_empty _ Hin) as H1.
      rewrite string_length_app in *.
      replace (String.length r + String.length rune - String.length rune)%nat
        with (String.length r) by lia.
      rewrite upto_app.
      destruct (IH r ltac:(lia)) as [Hl [n Hn]].
      split; [exact Hl|]. exists (Nat.min n (String.length r)).
      rewrite Hn. apply upto_prefix.
    + split; [exact E|]. exists (String.length s).
      symmetry. apply upto_length.
Qed.

Lemma upto_leadingSpace (n : nat) (s : string) :
  leadingSpace s = None -> leadingSpace (upto n s) = None.
Proof.
  rewrite !leadingSpace_None. intros H rune r Hin Hu.
  apply (H rune (r ++ from n s) Hin).
  rewrite <- string_app_assoc, <- Hu. symmetry. apply upto_from.
Qed.

(** What [TrimSpace] gives begins and ends with no rune of space, and
    is a part of the string. *)
Lemma TrimSpace_spec (s : string) :
  leadingSpace (TrimSpace s) = None
  /\ trailingSpace (TrimSpace s) = None
  /\ exists n m, TrimSpace s = upto m (from n s).
Proof.
  unfold TrimSpace, TrimLeft, TrimRight.
  destruct (trimLeft_spec (String.length s) s (Nat.le_refl _)) as [Hl [n Hn]].
  set (l := trimLeft (String.length s) s) in *.
  destruct (trimRight_spec (String.length l) l (Nat.le_refl _)) as [Hr [m Hm]].
  split; [|split; [exact Hr|]].
  - rewrite Hm. apply upto_leadingSpace, Hl.
  - exists n, m. rewrite Hm, Hn. reflexivity.
Qed.

(** A string that begins and ends with no rune of space is left as it
    is. *)
Lemma TrimSpace_fixed (s : string) :
  leadingSpace s = None -> trailingSpace s = None -> TrimSpace s = s.
Proof.
  intros Hl Hr. unfold TrimSpace, TrimLeft, TrimRight.
  assert (E1 : trimLeft (String.length s) s = s)
    by (destruct (String.length s); cbn [trimLeft]; now rewrite ?Hl).
  rewrite E1. destruct (String.length s); cbn [trimRight]; now rewrite ?Hr.
Qed.

Lemma TrimSpace_fixed_inv (s : string) :
  TrimSpace s = s -> leadingSpace s = None /\ trailingSpace s = None.
Proof.
  intros H. destruct (TrimSpace_spec s) as [Hl [Hr _]].
  rewrite H in Hl, Hr. auto.
Qed.

Lemma Index_Some (p : string) : forall (s : string) (i : nat),
  Index s p = Some i -> exists r, from i s = p ++ r.
Proof.
  induction s as [|a s IH]; intros i; cbn [Index].
  - destruct (HasPrefix "" p) eqn:E; [|discriminate].
    intros H. inversion H. apply HasPrefix_spec, E.
  - destruct (HasPrefix (String a s) p) eqn:E.
    + intros H. inversion H. apply HasPrefix_spec, E.
    + destruct (Index s p) as [j|] eqn:Ej; [|discriminate].
      intros H. inversion H. cbn [from]. apply IH. reflexivity.
Qed.

(** The line the loop finds begins with [API_KEY=], when it finds
    one. *)
Lemma apiKeyLineOf_spec (lines : list string) :
  apiKeyLineOf lines = ""
  \/ exists l n r, In l lines /\ from n (TrimSpace l) = "API_KEY=" ++ r
                   /\ apiKeyLineOf lines = "API_KEY=" ++ r.
Proof.
  induction lines as [|l lines IH]; cbn [apiKeyLineOf]; [now left|].
  destruct (Index (TrimSpace l) "API_KEY=") as [idx|] eqn:E.
  - right. destruct (Index_Some _ _ _ E) as [r Hr].
    exists l, idx, r. repeat split; [now left|exact Hr|exact Hr].
  - destruct IH as [IH|[l' [n [r [Hin [Hf Hr]]]]]]; [now left|].
    right. exists l', n, r. repeat split; [now right|exact Hf|exact Hr].
Qed.

(** The bytes of a part of a string are bytes of the string. *)
Lemma from_bytes (n : nat) (s : string) (a : ascii) :
  In a (list_ascii_of_string (from n s)) -> In a (list_ascii_of_string s).
Proof.
  revert s. induction n as [|n IH]; intros [|b s]; cbn; auto.
Qed.

Lemma upto_bytes (n : nat) (s : string) (a : ascii) :
  In a (list_ascii_of_string (upto n s)) -> In a (list_ascii_of_string s).
Proof.
  revert s. induction n as [|n IH]; intros [|b s]; cbn; try tauto.
  intros [H|H]; auto.
Qed.

Lemma TrimSpace_bytes (s : string) (a : ascii) :
  In a (list_ascii_of_string (TrimSpace s)) -> In a (list_ascii_of_string s).
Proof.
  destruct (TrimSpace_spec s) as [_ [_ [n [m ->]]]].
  intros H. eapply from_bytes, upto_bytes, H.
Qed.

(** No piece of [Split] has the separator in it. *)
Lemma Split_pieces (sep : ascii) : forall (s piece : string),
  In piece (Split s sep) -> ~ In sep (list_ascii_of_string piece).
Proof.
  induction s as [|a s IH]; intros piece; cbn [Split].
  - intros [<-|[]]. cbn. tauto.
  - destruct (Ascii.eqb_spec a sep) as [->|Hne].
    + intros [<-|H]; [cbn; tauto|apply IH, H].
    + destruct (Split s sep) as [|p ps] eqn:E.
      * intros [<-|[]]. cbn. intros [H|[]]. congruence.
      * intros [<-|H].
        -- cbn. intros [H|H]; [congruence|].
           apply (IH p); [now left|exact H].
        -- apply IH. now right.
Qed.

(** A string without the separator is one piece. *)
Lemma Split_one (sep : ascii) : forall s : string,
  ~ In sep (list_ascii_of_string s) -> Split s sep = [s].
Proof.
  induction s as [|a s IH]; cbn; [reflexivity|]. intros H.
  destruct (Ascii.eqb_spec a sep) as [->|Hne]; [tauto|].
  rewrite IH by tauto. reflexivity.
Qed.

(** X21.  [extractAPIKey] never fails on the format: the line that it cuts
    at the first [=] begins with [API_KEY=], so that there are always two
    parts. *)
Theorem invalid_format_is_unreachable (run : execution) :
  match extractAPIKey run with
  | inr (InvalidFormat _) => False
  | _ => True
  end.
Proof.
  destruct run as [cause|code [output|cause]]; cbn [extractAPIKey];
    [exact I| |destruct (negb (code =? 0)%Z); exact I].
  destruct (negb (code =? 0)%Z); [exact I|]. cbv zeta.
  destruct (apiKeyLineOf_spec
              (Split (TrimSpace (string_of_bytes output)) newline))
    as [->|[l [n [r [_ [_ ->]]]]]].
  - exact I.
  - change (SplitN2 ("API_KEY=" ++ r) "=") with ["API_KEY"; r].
    cbn [String.eqb append Ascii.eqb Bool.eqb].
    destruct (String.eqb (TrimSpace r) ""); exact I.
Qed.

(** X22.  A key that [extractAPIKey] returns is not empty, begins and ends
    with no white space, and is on one line. *)
Theorem extracted_key_is_clean (run : execution) (apiKey : string) :
  extractAPIKey run = inl apiKey ->
  apiKey <> ""
  /\ TrimSpace apiKey = apiKey
  /\ ~ In newline (list_ascii_of_string apiKey).
Proof.
  destruct run as [cause|code [output|cause]]; cbn [extractAPIKey];
    [discriminate| |destruct (negb (code =? 0)%Z); discriminate].
  destruct (negb (code =? 0)%Z); [discriminate|]. cbv zeta.
  destruct (apiKeyLineOf_spec
              (Split (TrimSpace (string_of_bytes output)) newline))
    as [->|[l [n [r [Hin [Hf ->]]]]]]; [discriminate|].
  change (SplitN2 ("API_KEY=" ++ r) "=") with ["API_KEY"; r].
  cbn [String.eqb append Ascii.eqb Bool.eqb].
  destruct (String.eqb_spec (TrimSpace r) "") as [|Hne]; [discriminate|].
  intros H. inversion H; subst apiKey; clear H.
  split; [exact Hne|]. split.
  - destruct (TrimSpace_spec r) as [Hl [Hr _]]. now apply TrimSpace_fixed.
  - intros Hn. apply TrimSpace_bytes in Hn.
    apply (Split_pieces newline _ l Hin).
    apply TrimSpace_bytes, (from_bytes n). rewrite Hf.
    cbn. do 8 right. exact Hn.
Qed.

(** X23.  The key comes back: [extractAPIKey] finds the key that the file
    holds as [API_KEY=key] on a line, when the key is not empty, begins
    and ends with no white space and has no line feed in it. *)
Theorem key_round_trip (key : string) :
  key <> "" ->
  TrimSpace key = key ->
  ~ In newline (list_ascii_of_string key) ->
  extractAPIKey
    (Exits 0 (inl (bytes_of_string ("API_KEY=" ++ key ++ String newline ""))))
  = inl key.
Proof.
  intros Hne Hfix Hnl.
  destruct (TrimSpace_fixed_inv key Hfix) as [Hl Hr].
  cbn [extractAPIKey Z.eqb negb]. cbv zeta.
  unfold string_of_bytes, bytes_of_string.
  rewrite string_of_list_byte_of_string.
  set (line := "API_KEY=" ++ key).
  assert (Hlead : forall r, leadingSpace ("API_KEY=" ++ r) = None)
    by reflexivity.
  (* the line ends with no rune of space *)
  assert (Htrail : trailingSpace line = None).
  { apply trailingSpace_None. intros rune r Hin E.
    assert (Hcut : forall (p k x y : string),
              p ++ k = x ++ y ->
              (exists z, k = z ++ y)
              \/ (exists z, z <> "" /\ y = z ++ k)).
    { induction p as [|a p IH]; intros k x y Hpk; cbn in Hpk.
      - left. exists x. exact Hpk.
      - destruct x as [|b x]; cbn in Hpk.
        + right. exists (String a p). split; [discriminate|]. now subst.
        + inversion Hpk. apply (IH _ _ _ H1). }
    destruct (Hcut _ _ _ _ E) as [[z Hz]|[z [Hz1 Hz2]]].
    - rewrite trailingSpace_None in Hr. exact (Hr rune z Hin Hz).
    - (* the rune would reach into [API_KEY=], or be the whole key *)
      assert (Hall : forallb
                (fun rune =>
                   forallb (fun a => negb (existsb (Ascii.eqb a)
                                             (list_ascii_of_string "API_KEY=")))
                     (list_ascii_of_string rune))
                spaceRunes = true) by reflexivity.
      rewrite forallb_forall in Hall. specialize (Hall rune Hin).
      rewrite forallb_forall in Hall.
      assert (Hsuf : exists w, "API_KEY=" = w ++ z).
      { clear - E Hz2. subst rune. fold line in E. unfold line in E.
        rewrite <- string_app_assoc in E.
        assert (Hc : forall a b c : string, a ++ c = b ++ c -> a = b).
        { intros a b c H.
          assert (Hlen : String.length a = String.length b).
          { apply (f_equal String.length) in H. rewrite !string_length_app in H. lia. }
          revert b H Hlen. induction a as [|x a IH]; intros [|y b] H Hlen;
            cbn in *; try discriminate; [reflexivity|].
          inversion H. f_equal. apply IH; [assumption|lia]. }
        apply Hc in E. eauto. }
      destruct Hsuf as [w Hw].
      destruct z as [|a z]; [congruence|].
      assert (Ha : In a (list_ascii_of_string rune)).
      { rewrite Hz2. cbn. now left. }
      specialize (Hall a Ha). apply negb_true_iff in Hall.
      assert (Hin8 : In a (list_ascii_of_string "API_KEY=")).
      { rewrite Hw. clear. induction w as [|b w IH]; cbn; auto. }
      assert (Ht : existsb (Ascii.eqb a) (list_ascii_of_string "API_KEY=") = true).
      { apply existsb_exists. exists a. split; [exact Hin8|apply Ascii.eqb_refl]. }
      congruence. }
  (* the outer TrimSpace takes the line feed away *)
  assert (Houter : TrimSpace (line ++ String newline "") = line).
  { unfold TrimSpace.
    assert (E1 : TrimLeft (line ++ String newline "") = line ++ String newline "").
    { unfold TrimLeft, line. rewrite string_app_assoc.
      destruct (String.length ("API_KEY=" ++ key ++ String newline ""));
        cbn [trimLeft]; rewrite ?Hlead; reflexivity. }
    rewrite E1. unfold TrimRight. rewrite string_length_app.
    replace (String.length line + String.length (String newline ""))%nat
      with (S (String.length line)) by (cbn; lia).
    cbn [trimRight].
    assert (E2 : trailingSpace (line ++ String newline "")
                 = Some (String newline "")).
    { unfold trailingSpace. rewrite reverse_app. reflexivity. }
    rewrite E2, string_length_app.
    replace (String.length line + String.length (String newline "")
             - String.length (String newline ""))%nat
      with (String.length line) by (cbn; lia).
    rewrite upto_app.
    destruct (String.length line); cbn [trimRight]; rewrite ?Htrail;
      reflexivity. }
  unfold line in Houter. rewrite string_app_assoc in Houter.
  rewrite Houter. fold line.
  assert (Hline : ~ In newline (list_ascii_of_string line)).
  { unfold line. cbn. intros [H|[H|[H|[H|[H|[H|[H|[H|H]]]]]]]];
      try discriminate. exact (Hnl H). }
  rewrite (Split_one newline line Hline). cbn [apiKeyLineOf].
  rewrite (TrimSpace_fixed line (Hlead key) Htrail).
  unfold line.
  change (Index ("API_KEY=" ++ key) "API_KEY=") with (Some 0%nat).
  cbn [from].
  change (SplitN2 ("API_KEY=" ++ key) "=") with ["API_KEY"; key].
  cbn [String.eqb append Ascii.eqb Bool.eqb].
  rewrite Hfix. destruct (String.eqb_spec key "") as [|_]; [contradiction|].
  reflexivity.
Qed.

End TestcontainerFacts.

(** * The properties at work on the scenarios *)

(** [TestRetryExhausted]: two retries, a server that always answers 503. *)
Lemma retries_exhausted_witness :
  exists evs,
    doRequestWithContext string marshalText
      retryExhaustedClient
      (fun _ => serviceUnavailable) 4 "GET" "/zones/1" None
    = Some (Err (RetriesError 2 (Some (StatusError 503 ""))), evs)
    /\ attempts evs = 3%nat.
Proof.
  apply (retries_exhausted string marshalText
           retryExhaustedClient
           (fun _ => serviceUnavailable) "GET" "/zones/1" None None 4).
  - vm_compute. discriminate.
  - vm_compute. discriminate.
  - reflexivity.
  - intros k _. reflexivity.
  - intros k _. reflexivity.
  - vm_compute. lia.
Defined.

(** [TestRetryLogic]: the third attempt succeeds. *)
Lemma success_after_transient_failures_witness :
  exists evs,
    doRequestWithContext string marshalText
      retryLogicClient
      failsTwice 3 "GET" "/zones/1" None
    = Some (Ok (bytes_of_string "{}"),
            evs ++ [EvAttempt None
                      (Some (buildRequest
                               retryLogicClient
                               "GET" "/zones/1" None))])
    /\ attempts (evs ++ [EvAttempt None
                           (Some (buildRequest
                                    retryLogicClient
                                    "GET" "/zones/1" None))])
       = 3%nat.
Proof.
  apply (success_after_transient_failures string marshalText
           retryLogicClient
           failsTwice "GET" "/zones/1" None None 2 200
           (bytes_of_string "{}") 3).
  - vm_compute. discriminate.
  - vm_compute. discriminate.
  - reflexivity.
  - intros i Hi. destruct i as [|[|i]]; [reflexivity|reflexivity|lia].
  - intros i Hi. destruct i as [|[|[|i]]]; try reflexivity; lia.
  - reflexivity.
  - lia.
  - lia.
Defined.

(** [TestNoRetryOn4xx]: a server that always answers 404. *)
Lemma terminal_failure_is_final_witness :
  (exists evs,
     doRequestWithContext string marshalText (NewClient "http://127.0.0.1" "test-key")
       (fun _ => notFound) 1 "GET" "/zones/1" None
     = Some (Err (StatusError 404 "no such zone"), evs)
     /\ attempts evs = 1%nat /\ waits evs = 0%nat)
  /\ (forall env' fuel' r evs j status' answer',
        doRequestWithContext string marshalText
          (NewClient "http://127.0.0.1" "test-key") env' fuel'
          "GET" "/zones/1" None = Some (r, evs) ->
        (j < attempts evs)%nat ->
        outcome (env' j) = Responds status' answer' ->
        400 <= status' < 500 ->
        attempts evs = S j
        /\ r = Err (StatusError status' (string_of_bytes answer'))).
Proof.
  apply (terminal_failure_is_final string marshalText
           (NewClient "http://127.0.0.1" "test-key") (fun _ => notFound)
           "GET" "/zones/1" None None 404 (bytes_of_string "no such zone") 1).
  - vm_compute. discriminate.
  - reflexivity.
  - reflexivity.
  - lia.
  - lia.
Defined.

(** A client configured with [MaxRetries = -1]. *)
Lemma negative_budget_fails_unattempted_witness :
  exists evs,
    doRequestWithContext string marshalText
      (testClient (-1) (1 * Second) (30 * Second))
      (fun _ => found) 1 "GET" "/zones/1" None
    = Some (Err (RetriesError (-1) None), evs)
    /\ attempts evs = 0%nat /\ waits evs = 0%nat
    /\ unwrap (RetriesError (-1) None) = None.
Proof.
  apply (negative_budget_fails_unattempted string marshalText
           (testClient (-1) (1 * Second) (30 * Second))
           (fun _ => found) "GET" "/zones/1" None None 1).
  - reflexivity.
  - reflexivity.
  - lia.
Defined.

(** A 301 that reaches the client is retried like a 503. *)
Lemma outcome_by_status_witness :
  fst (attemptOnce (NewClient "http://127.0.0.1" "test-key") "GET" "/zones/1"
         None 0 (served (Responds 301 [])))
  = Continue (StatusError 301 "").
Proof.
  apply (outcome_by_status (NewClient "http://127.0.0.1" "test-key")
           "GET" "/zones/1" None 0 (served (Responds 301 [])) 301 []).
  - reflexivity.
  - intros _. reflexivity.
  - lia.
  - lia.
Defined.

(** A 200 whose body breaks off. *)
Lemma partial_read_is_retried_witness :
  fst (attemptOnce (NewClient "http://127.0.0.1" "test-key") "GET" "/zones/1"
         None 0 brokenBody)
  = Continue (ReadBodyError "unexpected EOF")
  /\ transient brokenBody = true
  /\ continues (NewClient "http://127.0.0.1" "test-key") "GET" "/zones/1"
       None 0 brokenBody = true
  /\ (forall b,
        fst (attemptOnce (NewClient "http://127.0.0.1" "test-key") "GET"
               "/zones/1" None 0 brokenBody)
        <> Return (Ok b)).
Proof.
  apply (partial_read_is_retried (NewClient "http://127.0.0.1" "test-key")
           "GET" "/zones/1" None 0 brokenBody 200 (bytes_of_string "{")
           "unexpected EOF").
  - reflexivity.
  - lia.
  - reflexivity.
  - intros _. reflexivity.
Defined.

(** The deadline passes during the first backoff wait, and
    ([TestContextTimeout]) while the first request is in flight. *)
Lemma cancellation_is_immediate_witness :
  (exists evs wait,
     doRequestWithContext string marshalText
       (NewClient "http://127.0.0.1" "test-key") deadlineInWait 2
       "GET" "/zones/1" None
     = Some (Err (CtxError DeadlineExceeded), evs ++ [EvWait wait])
     /\ attempts (evs ++ [EvWait wait]) = 1%nat
     /\ waits (evs ++ [EvWait wait]) = 1%nat)
  /\ (exists evs req,
        doRequestWithContext string marshalText
          (NewClient "http://127.0.0.1" "test-key") deadlineInFlight 1
          "GET" "/zones/1" None
        = Some (Err (CtxError DeadlineExceeded), evs ++ [EvAttempt None req])
        /\ attempts (evs ++ [EvAttempt None req]) = 1%nat
        /\ waits (evs ++ [EvAttempt None req]) = 0%nat).
Proof.
  split.
  - apply (cancellation_is_immediate string marshalText
             (NewClient "http://127.0.0.1" "test-key") deadlineInWait
             "GET" "/zones/1" None None 1 DeadlineExceeded 2).
    + vm_compute. discriminate.
    + vm_compute. discriminate.
    + reflexivity.
    + intros i Hi. destruct i as [|i]; [reflexivity|lia].
    + lia.
    + lia.
    + reflexivity.
  - apply (cancellation_is_immediate string marshalText
             (NewClient "http://127.0.0.1" "test-key") deadlineInFlight
             "GET" "/zones/1" None None 0 DeadlineExceeded 1).
    + vm_compute. discriminate.
    + vm_compute. discriminate.
    + reflexivity.
    + intros i Hi. lia.
    + lia.
    + intros Hi. lia.
    + reflexivity.
    + reflexivity.
Defined.

(** A body of two bytes goes with each of the three attempts; a body
    that does not serialize is never sent. *)
Lemma body_serialized_once_witness :
  (exists r evs evs',
     doRequestWithContext string marshalText
       retryExhaustedClient
       (fun _ => serviceUnavailable) 4 "POST" "/zones" (Some "{}"%string)
     = Some (r, evs)
     /\ evs = EvMarshal :: evs'
     /\ marshals evs = 1%nat
     /\ attempts evs = 3%nat
     /\ Forall (carries (Some (bytes_of_string "{}"))) evs')
  /\ doRequestWithContext string marshalFails
       retryExhaustedClient
       (fun _ => found) 4 "POST" "/zones" (Some "{}"%string)
     = Some (Err (MarshalError "json: unsupported type"), [EvMarshal]).
Proof.
  split.
  - destruct (body_serialized_once string marshalText
                retryExhaustedClient
                (fun _ => serviceUnavailable) "POST" "/zones" "{}"%string 4)
      as [_ H].
    destruct (doRequestWithContext string marshalText
                retryExhaustedClient
                (fun _ => serviceUnavailable) 4 "POST" "/zones"
                (Some "{}"%string)) as [[r evs]|] eqn:E;
      [|vm_compute in E; discriminate].
    destruct (H _ r evs eq_refl eq_refl) as [evs' [Hevs [Hm Hc]]].
    exists r, evs, evs'. repeat split; try assumption.
    vm_compute in E. inversion E. reflexivity.
  - apply (body_serialized_once string marshalFails
             retryExhaustedClient
             (fun _ => found) "POST" "/zones" "{}"%string 4).
    reflexivity.
Defined.

(** The server answers with an A record that is not conditional. *)
Lemma nested_fields_second_pass_witness :
  (exists respBody,
     Json.unmarshalRecord respBody
     = inl (fields {| fields := addressFields;
                      Data := Some [("address"%string, JString "192.0.2.1")];
                      ConditionalData := None |}))
  /\ secondPass Json.unmarshalMap
       {| fields := addressFields;
          Data := Some [("address"%string, JString "192.0.2.1")];
          ConditionalData := None |}.
Proof.
  apply (nested_fields_second_pass Json.unmarshalRecord Json.unmarshalMap
           string marshalText (NewClient "http://127.0.0.1" "test-key")
           (fun _ => served (Responds 200 (recordJSON addressJSON emptyJSON)))
           1 "1" "7" "{}"%string _
           [EvAttempt None
              (Some (buildRequest (NewClient "http://127.0.0.1" "test-key")
                       "GET" "/zones/1/records/7" None))]).
  right. left. vm_compute. reflexivity.
Defined.

(** C8 fails for [data]: a record whose [data] is the sentinel "{}" is
    decoded; with the reference decoder it comes back from [GetRecord]
    with an empty map that is not nil. *)
Lemma data_sentinel_is_decoded :
  exists r evs,
    GetRecord Json.unmarshalRecord Json.unmarshalMap string marshalText
      (NewClient "http://127.0.0.1" "test-key")
      (fun _ => served (Responds 200 (recordJSON emptyJSON emptyJSON)))
      1 "1" "7"
    = Some (inl r, evs)
    /\ DataRaw r = emptyJSON
    /\ Data r = Some []
    /\ ~ sentinelMeansAbsent r.
Proof.
  eexists. eexists. split; [vm_compute; reflexivity|].
  repeat split. intros [H _]. specialize (H eq_refl). discriminate.
Qed.

(** The second retry of [TestRetryLogic], with a random factor of one
    half: the base is 20ms. *)
Lemma backoff_within_truncated_jitter_witness :
  exists d,
    calculateBackoff retryLogicClient 2
      (secureRandomFloat (RandBytes (Byte.x80 :: repeat Byte.x00 7)))
    = Some d
    /\ (jitteredBase retryLogicClient 2
          (secureRandomFloat (RandBytes (Byte.x80 :: repeat Byte.x00 7)))
        - roundingError retryLogicClient 2 - 1 < IZR d
        <= jitteredBase retryLogicClient 2
             (secureRandomFloat (RandBytes (Byte.x80 :: repeat Byte.x00 7)))
           + roundingError retryLogicClient 2)%R
    /\ 3 * backoffBase retryLogicClient 2 / 4 <= d
       <= 5 * backoffBase retryLogicClient 2 / 4
    /\ (backoffBase retryLogicClient 2 mod 4 = 0 ->
        withinJitter retryLogicClient 2 d).
Proof.
  apply (backoff_within_truncated_jitter retryLogicClient 2
           (secureRandomFloat (RandBytes (Byte.x80 :: repeat Byte.x00 7)))).
  - vm_compute. split; discriminate.
  - vm_compute. split; discriminate.
  - vm_compute. split; discriminate.
  - left. reflexivity.
  - reflexivity.
  - reflexivity.
Defined.

(** C5 fails on whole nanoseconds: with [RetryWaitMin] of 1ns and a
    random factor of 0 (eight zero bytes), the base before the first
    retry is 1ns and the wait is 0ns, below [0.75 * base]. *)
Lemma backoff_below_jitter_range :
  secureRandomFloat (RandBytes (repeat Byte.x00 8)) = 0%float
  /\ backoffBase nanosecondClient 1 = 1
  /\ calculateBackoff nanosecondClient 1
       (secureRandomFloat (RandBytes (repeat Byte.x00 8))) = Some 0
  /\ ~ withinJitter nanosecondClient 1 0.
Proof.
  repeat split; try (vm_compute; reflexivity).
  unfold withinJitter. change (backoffBase nanosecondClient 1) with 1. lia.
Qed.

(** The float64 operations round before the conversion truncates: with
    a base of 2^50 - 1 ns and a random factor of 3/4 the exact wait is
    [9/8 * base], an eighth below the whole number of nanoseconds that
    the code returns. *)
Lemma backoff_above_exact_value :
  secureRandomFloat (RandBytes (Byte.xc0 :: repeat Byte.x00 7)) = 0.75%float
  /\ backoffBase (testClient 3 (2 ^ 50 - 1) (2 ^ 50 - 1)) 1 = 2 ^ 50 - 1
  /\ calculateBackoff (testClient 3 (2 ^ 50 - 1) (2 ^ 50 - 1)) 1
       (secureRandomFloat (RandBytes (Byte.xc0 :: repeat Byte.x00 7)))
     = Some 1266637395197951
  /\ 9 * (2 ^ 50 - 1) < 8 * 1266637395197951.
Proof. repeat split; vm_compute; reflexivity. Qed.

(** Without a shortest wait the 1025th retry multiplies 0 by [+Inf]: the
    backoff is a NaN, and its conversion to [time.Duration] is left to
    the implementation. *)
Lemma backoff_of_nan :
  calculateBackoff (testClient 2000 0 (30 * Second)) 1025
    (secureRandomFloat (RandBytes (Byte.x80 :: repeat Byte.x00 7)))
  = None.
Proof. vm_compute. reflexivity. Qed.

(** Eight bytes of ones round to 2^64: the random factor is 1, not below
    it. *)
Lemma random_factor_of_ones :
  secureRandomFloat (RandBytes (repeat Byte.xff 8)) = 1%float.
Proof. vm_compute. reflexivity. Qed.

Lemma random_factor_in_unit_interval_witness :
  (0 <=? secureRandomFloat (RandFailed 1700000000123456789))%float = true
  /\ (secureRandomFloat (RandFailed 1700000000123456789) <=? 1)%float = true.
Proof.
  apply (random_factor_in_unit_interval (RandFailed 1700000000123456789)).
  reflexivity.
Defined.

Lemma random_factor_below_one_witness :
  (secureRandomFloat (RandBytes (repeat Byte.xff 8)) <? 1)%float
  = (bigEndianUint64 (repeat Byte.xff 8) <? 2 ^ 64 - 1024).
Proof.
  apply (random_factor_below_one (repeat Byte.xff 8)). reflexivity.
Defined.

(** [TestRetryLogic]: three attempts, two waits. *)
Lemma call_stays_within_budget_witness :
  exists r t,
    doRequestWithContext string marshalText retryLogicClient zoneAfterTwo 5
      "GET" "/zones/1" None = Some (r, t)
    /\ Z.of_nat (attempts t) <= MaxRetries retryLogicClient + 1
    /\ Z.of_nat (waits t) <= MaxRetries retryLogicClient.
Proof.
  apply (call_stays_within_budget string marshalText retryLogicClient
           zoneAfterTwo 5 "GET" "/zones/1" None).
  - vm_compute. discriminate.
  - vm_compute. discriminate.
  - vm_compute. lia.
Defined.

(** A call whose deadline passes during its first wait: the wait is its
    last event. *)
Lemma call_events_alternate_witness :
  exists evs,
    deadlineTrace = marshalEvents (@None string) ++ evs
    /\ loopShape evs = true
    /\ (forall t0 w, deadlineTrace = t0 ++ [EvWait w] ->
          exists e, Err (CtxError DeadlineExceeded) = Err (CtxError e)
                    /\ wait_done (deadlineInWait (attempts deadlineTrace))
                       = Some e).
Proof.
  apply (call_events_alternate string marshalText retryLogicClient
           deadlineInWait 5 "GET" "/zones/1" None
           (Err (CtxError DeadlineExceeded)) deadlineTrace).
  - vm_compute. discriminate.
  - vm_compute. reflexivity.
Defined.

(** [TestRetryExhausted] *)
Lemma call_errors_witness :
  callError retryExhaustedClient
    (RetriesError 2 (Some (StatusError 503 ""))) = true
  /\ (forall n,
        RetriesError 2 (Some (StatusError 503 "")) = RetriesError n None ->
        MaxRetries retryExhaustedClient < 0
        /\ attempts retryExhaustedTrace = 0%nat).
Proof.
  apply (call_errors string marshalText retryExhaustedClient
           (fun _ => serviceUnavailable) 5 "GET" "/zones/1" None
           (RetriesError 2 (Some (StatusError 503 "")))
           retryExhaustedTrace).
  vm_compute. reflexivity.
Defined.

Lemma success_is_the_last_answer_witness :
  exists n status t0 jsonData,
    attempts retryLogicTrace = S n
    /\ outcome (zoneAfterTwo n) = Responds status zoneJSON
    /\ 200 <= status < 300
    /\ retryLogicTrace
       = t0 ++ [EvAttempt jsonData
                  (Some (buildRequest retryLogicClient "GET" "/zones/1"
                           jsonData))].
Proof.
  apply (success_is_the_last_answer string marshalText retryLogicClient
           zoneAfterTwo 5 "GET" "/zones/1" None zoneJSON retryLogicTrace).
  vm_compute. reflexivity.
Defined.

Lemma exhaustion_means_every_attempt_failed_witness :
  Z.of_nat (attempts retryExhaustedTrace) = MaxRetries retryExhaustedClient + 1
  /\ Z.of_nat (waits retryExhaustedTrace) = MaxRetries retryExhaustedClient
  /\ Some (StatusError 503 "")
     = Some (recordedError
               (outcome ((fun _ : nat => serviceUnavailable)
                           (Z.to_nat (MaxRetries retryExhaustedClient)))))
  /\ (forall k, (k < attempts retryExhaustedTrace)%nat ->
        retried (recordedError
                   (outcome ((fun _ : nat => serviceUnavailable) k))) = true).
Proof.
  apply (exhaustion_means_every_attempt_failed string marshalText
           retryExhaustedClient (fun _ => serviceUnavailable) 5
           "GET" "/zones/1" None 2 (Some (StatusError 503 ""))
           retryExhaustedTrace).
  - vm_compute. discriminate.
  - vm_compute. discriminate.
  - vm_compute. reflexivity.
Defined.

Lemma requests_of_a_call_witness :
  let q := buildRequest retryLogicClient "GET" "/zones/1" None in
  req_method q = "GET"%string
  /\ req_url q = (BaseURL retryLogicClient ++ "/zones/1")%string
  /\ marshalled marshalText (@None string) = Some (req_body q)
  /\ headerValue "X-SnitchDNS-Auth" (req_header q)
     = Some (APIKey retryLogicClient)
  /\ headerValue "User-Agent" (req_header q)
     = (if String.eqb (UserAgent retryLogicClient) "" then None
        else Some (UserAgent retryLogicClient))
  /\ headerValue "Content-Type" (req_header q) = None.
Proof.
  apply (requests_of_a_call string marshalText retryLogicClient zoneAfterTwo 5
           "GET" "/zones/1" None (Ok zoneJSON) retryLogicTrace
           (buildRequest retryLogicClient "GET" "/zones/1" None)).
  - vm_compute. reflexivity.
  - vm_compute. left. reflexivity.
Defined.

Lemma doRequest_is_never_cancelled_witness :
  (forall e, Ok zoneJSON <> Err (CtxError e))
  /\ (attempts retryLogicTrace = 0%nat
      \/ attempts retryLogicTrace = S (waits retryLogicTrace)).
Proof.
  apply (doRequest_is_never_cancelled string marshalText retryLogicClient
           zoneAfterTwo 5 "GET" "/zones/1" None (Ok zoneJSON)
           retryLogicTrace).
  - vm_compute. discriminate.
  - vm_compute. reflexivity.
Defined.

Lemma wellFormed_zoneAfterTwo (k : nat) :
  wellFormed (random (zoneAfterTwo k)) = true.
Proof. unfold zoneAfterTwo. destruct (k <? 2)%nat; reflexivity. Qed.

(** The second wait of [TestRetryLogic]: a little above 20ms. *)
Lemma waits_are_jittered_witness :
  Some 20019607
  = calculateBackoff retryLogicClient (Z.of_nat 1 + 1)
      (secureRandomFloat (random (zoneAfterTwo 2)))
  /\ jittered retryLogicClient (Z.of_nat 1 + 1) (Some 20019607).
Proof.
  apply (waits_are_jittered string marshalText retryLogicClient zoneAfterTwo 5
           "GET" "/zones/1" None (Ok zoneJSON) retryLogicTrace 1
           (Some 20019607)).
  - vm_compute. split; discriminate.
  - vm_compute. split; discriminate.
  - left. reflexivity.
  - vm_compute. discriminate.
  - exact wellFormed_zoneAfterTwo.
  - vm_compute. reflexivity.
  - reflexivity.
Defined.

Lemma backoff_grows_until_capped_witness :
  exists d1 d2,
    calculateBackoff retryLogicClient 1 1 = Some d1
    /\ calculateBackoff retryLogicClient (1 + 1) 0 = Some d2
    /\ d1 <= d2 <= 5 * RetryWaitMax retryLogicClient / 4.
Proof.
  apply (backoff_grows_until_capped retryLogicClient 1 1 0).
  - vm_compute. split; discriminate.
  - vm_compute. split; discriminate.
  - vm_compute. split; [discriminate|reflexivity].
  - left. reflexivity.
  - vm_compute. discriminate.
  - reflexivity.
  - reflexivity.
  - reflexivity.
  - reflexivity.
Defined.

Lemma default_client_budget_witness :
  exists r t,
    doRequestWithContext string marshalText
      (NewClient "http://127.0.0.1:8080" "test-key") zoneAfterTwo 5
      "GET" "/zones/1" None = Some (r, t)
    /\ (attempts t <= 4)%nat
    /\ 0 <= totalWait t <= 8750 * Millisecond
    /\ (forall n cause, r = Err (RetriesError n cause) ->
                        5250 * Millisecond <= totalWait t).
Proof.
  apply (default_client_budget string marshalText "http://127.0.0.1:8080"
           "test-key" zoneAfterTwo 5 "GET" "/zones/1" None).
  - lia.
  - exact wellFormed_zoneAfterTwo.
Defined.

Lemma call_runs_on_at_max_int_witness :
  doRequestWithContext string marshalText relentlessClient
    (fun _ => serviceUnavailable) 10 "GET" "/zones/1" None = None.
Proof.
  apply (call_runs_on_at_max_int string marshalText relentlessClient
           (fun _ => serviceUnavailable) 10 "GET" "/zones/1" None None).
  - reflexivity.
  - reflexivity.
  - intros k. split; reflexivity.
Defined.

(** [TestRetryLogic]: the zone of the third answer. *)
Lemma zone_is_decoded_from_the_last_answer_witness :
  exists respBody,
    doRequestWithContext string marshalText retryLogicClient
      (background zoneAfterTwo) 5 "GET" ("/zones/" ++ "1")%string None
    = Some (Ok respBody, retryLogicTrace)
    /\ lastAnswer zoneAfterTwo retryLogicTrace respBody
    /\ referenceUnmarshalZone respBody = inl exampleZone.
Proof.
  apply (zone_is_decoded_from_the_last_answer referenceUnmarshalZone string marshalText
           retryLogicClient zoneAfterTwo 5 "1" ""%string (inl exampleZone)
           retryLogicTrace).
  right. left. split; [vm_compute|]; reflexivity.
Defined.

Lemma delete_succeeds_on_any_2xx_answer_witness :
  (exists respBody,
     doRequest string marshalText retryLogicClient (fun _ => deleted) 5
       "DELETE" ("/zones/" ++ "1")%string None
     = Some (Ok respBody, deletionTrace)
     /\ lastAnswer (fun _ => deleted) deletionTrace respBody)
  /\ (forall respBody,
        lastAnswer (fun _ => deleted) deletionTrace respBody ->
        @None error = None)
  /\ (forall q, In q (requestsSent deletionTrace) ->
                req_method q = "DELETE"%string /\ req_body q = None
                /\ headerValue "Content-Type" (req_header q) = None).
Proof.
  apply (delete_succeeds_on_any_2xx_answer string marshalText retryLogicClient
           (fun _ => deleted) 5 "1" "7" None deletionTrace).
  left. split; [vm_compute|]; reflexivity.
Defined.

Lemma record_errors_come_in_order_witness :
  exists respBody f,
    doRequest string marshalText retryLogicClient
      (fun _ => served (Responds 200 (recordJSON "{" ""))) 5 "GET"
      ("/zones/" ++ "1" ++ "/records/" ++ "7")%string None
    = Some (Ok respBody, brokenDataTrace)
    /\ lastAnswer (fun _ => served (Responds 200 (recordJSON "{" "")))
         brokenDataTrace respBody
    /\ Json.unmarshalRecord respBody = inl f
    /\ f_data f <> ""%string
    /\ Json.unmarshalMap (f_data f) = inr "invalid character in JSON input"%string.
Proof.
  apply (record_errors_come_in_order Json.unmarshalRecord Json.unmarshalMap
           string marshalText retryLogicClient
           (fun _ => served (Responds 200 (recordJSON "{" ""))) 5 "1" "7"
           ""%string (ParseDataError "invalid character in JSON input")
           brokenDataTrace).
  right. left. split; [vm_compute|]; reflexivity.
Defined.

Lemma extracted_key_is_clean_witness :
  "abc=def"%string <> ""%string
  /\ Testcontainer.TrimSpace "abc=def" = "abc=def"%string
  /\ ~ In Testcontainer.newline (list_ascii_of_string "abc=def").
Proof.
  apply (extracted_key_is_clean
           (Testcontainer.Exits 0
              (inl (bytes_of_string
                      (" starting" ++ String Testcontainer.newline
                         "key: API_KEY= abc=def  ")))) "abc=def").
  vm_compute. reflexivity.
Defined.

Lemma key_round_trip_witness :
  Testcontainer.extractAPIKey
    (Testcontainer.Exits 0
       (inl (bytes_of_string
               ("API_KEY=" ++ "3f9a1c" ++ String Testcontainer.newline ""))))
  = inl "3f9a1c"%string.
Proof.
  apply (key_round_trip "3f9a1c").
  - discriminate.
  - reflexivity.
  - vm_compute. intuition discriminate.
Defined.

(** [TestNoRetryOn4xx] *)
Lemma client_error_is_the_last_answer_witness :
  exists n answer,
    attempts notFoundTrace = S n
    /\ outcome ((fun _ : nat => notFound) n) = Responds 404 answer
    /\ "no such zone"%string = string_of_bytes answer
    /\ 400 <= 404 < 500.
Proof.
  apply (client_error_is_the_last_answer string marshalText retryLogicClient
           (fun _ => notFound) 5 "GET" "/zones/1" None 404 "no such zone"
           notFoundTrace).
  vm_compute. reflexivity.
Defined.

Lemma cancellation_means_the_context_is_done_witness :
  exists n,
    ((0 < n)%nat /\ wait_done (deadlineInWait n) = Some DeadlineExceeded
     /\ attempts deadlineTrace = n)
    \/ (ctx_err (deadlineInWait n) = Some DeadlineExceeded
        /\ failsAtTransport (outcome (deadlineInWait n)) = true
        /\ attempts deadlineTrace = S n).
Proof.
  apply (cancellation_means_the_context_is_done string marshalText
           retryLogicClient deadlineInWait 5 "GET" "/zones/1" None
           DeadlineExceeded deadlineTrace).
  vm_compute. reflexivity.
Defined.
